(** * Alert service of the metlo backend: lifecycle, listing and alert factories

    Shallow embedding of [backend/src/services/alert/index.ts]
    (class [AlertService]) and the properties of its specification.

    - The persisted [Alert] table is a list of rows; [findOne] / [findOneBy]
      return the first row that satisfies the conditions.
    - Exceptions are values of [exn]; code that throws and mutates runs in
      the state-and-exception monad [M], whose state survives a throw
      (a mutation made before the throw stays made).
    - JS strings are Rocq strings holding the UTF-8 bytes of the text;
      [trim] strips every ECMAScript white-space and line-terminator code
      point, [toLowerCase] maps the ASCII letters. *)

From Stdlib Require Import ZArith Ascii String.
From stdpp Require Import base list strings pretty gmap sorting.

Open Scope string_scope.
Open Scope list_scope.

(** ** Exceptions and the state-and-exception monad *)

Inductive exn : Type :=
| Error409Conflict (message : string)
| Error500InternalServer (message : string)
| TypeError (message : string)
| ExternalError (message : string).

Definition M (S A : Type) : Type := S -> (exn + A) * S.

Definition ret {S A} (a : A) : M S A := fun s => (inr a, s).
Definition throw {S A} (e : exn) : M S A := fun s => (inl e, s).
Definition bind {S A B} (c : M S A) (k : A -> M S B) : M S B :=
  fun s => match c s with
           | (inr a, s') => k a s'
           | (inl e, s') => (inl e, s')
           end.
Definition get {S} : M S S := fun s => (inr s, s).
Definition modify {S} (f : S -> S) : M S unit := fun s => (inr tt, f s).
(** [await] of a collaborator's promise: a rejection is thrown. *)
Definition await {S A} (r : exn + A) : M S A := fun s => (r, s).

Declare Scope monad_scope.
Delimit Scope monad_scope with monad.
Notation "x <- c ;; k" := (bind c (fun x => k))
  (at level 100, c at next level, right associativity) : monad_scope.
Notation "c ;; k" := (bind c (fun _ => k))
  (at level 100, right associativity) : monad_scope.
Open Scope monad_scope.

(** [for (const x of xs) body]. *)
Fixpoint for_of {S A} (xs : list A) (body : A -> M S unit) : M S unit :=
  match xs with
  | [] => ret tt
  | x :: xs' => body x ;; for_of xs' body
  end.

(** ** Enumerations ([@common/enums]) *)

Inductive Status : Type := OPEN | IGNORED | RESOLVED.

(** The four commands the service names, and any other value that reaches
    the [switch] at run time. *)
Inductive UpdateAlertType : Type :=
| IGNORE | UNIGNORE | RESOLVE | UNRESOLVE
| UnrecognizedUpdateType (raw : string).

Inductive AlertType : Type :=
| NEW_ENDPOINT
| OPEN_API_SPEC_DIFF
| PII_DATA_DETECTED
| BASIC_AUTHENTICATION_DETECTED
| QUERY_SENSITIVE_DATA
| PATH_SENSITIVE_DATA
| UNSECURED_ENDPOINT_DETECTED.

Inductive DataSection : Type :=
| REQUEST_HEADER | REQUEST_QUERY | REQUEST_PATH
| OtherDataSection (raw : string).

Inductive SpecExtension : Type :=
| JSON | YAML | OtherSpecExtension (raw : string).

Inductive SortOrder : Type := ASC | DESC.

#[global] Instance Status_eq_dec : EqDecision Status.
Proof. solve_decision. Defined.
#[global] Instance AlertType_eq_dec : EqDecision AlertType.
Proof. solve_decision. Defined.
#[global] Instance DataSection_eq_dec : EqDecision DataSection.
Proof. solve_decision. Defined.
#[global] Instance SpecExtension_eq_dec : EqDecision SpecExtension.
Proof. solve_decision. Defined.

(** ** String operations of the JS runtime used by the service *)

Definition utf8_2 (b1 b2 : nat) : string :=
  String (ascii_of_nat b1) (String (ascii_of_nat b2) "").
Definition utf8_3 (b1 b2 b3 : nat) : string :=
  String (ascii_of_nat b1) (utf8_2 b2 b3).

(** The code points [String.prototype.trim] strips, by their UTF-8 bytes:
    ECMAScript's WhiteSpace (TAB, VT, FF, ZWNBSP and the Unicode category
    Space_Separator) and LineTerminator (LF, CR, LS, PS). *)
Definition white_space : list string :=
  [ String "009" "";         (* U+0009 CHARACTER TABULATION *)
    String "010" "";         (* U+000A LINE FEED *)
    String "011" "";         (* U+000B LINE TABULATION *)
    String "012" "";         (* U+000C FORM FEED *)
    String "013" "";         (* U+000D CARRIAGE RETURN *)
    " ";                     (* U+0020 SPACE *)
    utf8_2 194 160;          (* U+00A0 NO-BREAK SPACE *)
    utf8_3 225 154 128 ]     (* U+1680 OGHAM SPACE MARK *)
  ++ (utf8_3 226 128 <$> seq 128 11)   (* U+2000 .. U+200A, EN QUAD .. HAIR SPACE *)
  ++ [ utf8_3 226 128 168;   (* U+2028 LINE SEPARATOR *)
       utf8_3 226 128 169;   (* U+2029 PARAGRAPH SEPARATOR *)
       utf8_3 226 128 175;   (* U+202F NARROW NO-BREAK SPACE *)
       utf8_3 226 129 159;   (* U+205F MEDIUM MATHEMATICAL SPACE *)
       utf8_3 227 128 128;   (* U+3000 IDEOGRAPHIC SPACE *)
       utf8_3 239 187 191 ]. (* U+FEFF ZERO WIDTH NO-BREAK SPACE *)

(** The rest of [s] after its prefix [w], if [s] starts with [w]. *)
Fixpoint strip_prefix (w s : string) : option string :=
  match w, s with
  | EmptyString, _ => Some s
  | String a w', String b s' => if Ascii.eqb a b then strip_prefix w' s' else None
  | String _ _, EmptyString => None
  end.

(** The rest of [s] after one leading entry of [table], if it starts with one. *)
Fixpoint strip_first (table : list string) (s : string) : option string :=
  match table with
  | [] => None
  | w :: table' =>
      match strip_prefix w s with
      | Some rest => Some rest
      | None => strip_first table' s
      end
  end.

(** Leading entries of [table] stripped for as long as there is one; every
    entry stripped shortens the string, so [String.length s] rounds suffice. *)
Fixpoint strip_all (table : list string) (fuel : nat) (s : string) : string :=
  match fuel with
  | O => s
  | S fuel' =>
      match strip_first table s with
      | Some rest => strip_all table fuel' rest
      | None => s
      end
  end.

Definition trimStart (s : string) : string :=
  strip_all white_space (String.length s) s.

Definition trimEnd (s : string) : string :=
  String.rev (strip_all (String.rev <$> white_space) (String.length s) (String.rev s)).

(** [String.prototype.trim]. *)
Definition trim (s : string) : string := trimEnd (trimStart s).

(** A string that is a sequence of entries of [table]. *)
Inductive made_of (table : list string) : string -> Prop :=
| made_of_empty : made_of table ""
| made_of_append w s :
    w ∈ table -> made_of table s -> made_of table (w +:+ s).

Definition white_space_only : string -> Prop := made_of white_space.

Definition lower_ascii (c : ascii) : ascii :=
  let n := nat_of_ascii c in
  if (65 <=? n)%nat && (n <=? 90)%nat then ascii_of_nat (n + 32) else c.

(** [String.prototype.toLowerCase]. *)
Fixpoint toLowerCase (s : string) : string :=
  match s with
  | String c s' => String (lower_ascii c) (toLowerCase s')
  | EmptyString => EmptyString
  end.

(** [String.prototype.includes]. *)
Fixpoint includes (s sub : string) : bool :=
  String.prefix sub s ||
  match s with
  | String _ s' => includes s' sub
  | EmptyString => false
  end.

(** [Array.prototype.join]. *)
Fixpoint join (sep : string) (xs : list string) : string :=
  match xs with
  | [] => ""
  | [x] => x
  | x :: xs' => x +:+ sep +:+ join sep xs'
  end.

(** Number-to-string conversion inside a template literal. *)
Definition nat_to_string (n : nat) : string := pretty n.

(** ** Entities ([models], [@common/types]) *)

Record PairObject : Type := { name : string; value : string }.

Record ApiTrace : Type := {
  trace_host : string;
  trace_path : string;
  requestHeaders : option (list PairObject)
}.

Record ApiEndpoint : Type := {
  endpoint_uuid : string;
  endpoint_path : string;
  endpoint_host : string
}.

(** The [context] payloads the factories build. *)
Inductive AlertContext : Type :=
| ctx_undefined
| ctx_trace (trace : option ApiTrace)
| ctx_path (trace : option ApiTrace) (pathTokenIdx : option nat)
| ctx_spec_diff (pathPointer : list string) (trace : option ApiTrace)
| ctx_hsts (tested_against : string) (trace : ApiTrace).

(** Modelled from the spec: the entity class [Alert] is declared in [models],
    outside the sources. The record has the columns the service selects,
    reads and assigns; the risk score is the integer severity of the data
    model, and [resolutionMessage] is nullable. *)
Record Alert : Type := {
  uuid : string;
  type : AlertType;
  riskScore : Z;
  status : Status;
  description : string;
  context : AlertContext;
  resolutionMessage : option string;
  apiEndpointUuid : string;
  createdAt : Z;
  updatedAt : Z
}.

Definition set_status (a : Alert) (s : Status) : Alert :=
  {| uuid := uuid a; type := type a; riskScore := riskScore a; status := s;
     description := description a; context := context a;
     resolutionMessage := resolutionMessage a;
     apiEndpointUuid := apiEndpointUuid a;
     createdAt := createdAt a; updatedAt := updatedAt a |}.

Definition set_resolutionMessage (a : Alert) (m : option string) : Alert :=
  {| uuid := uuid a; type := type a; riskScore := riskScore a; status := status a;
     description := description a; context := context a;
     resolutionMessage := m;
     apiEndpointUuid := apiEndpointUuid a;
     createdAt := createdAt a; updatedAt := updatedAt a |}.

Record UpdateAlertParams : Type := {
  updateType : UpdateAlertType;
  params_resolutionMessage : option string
}.

(** ** The alert repository *)

Definition find_row (alertId : string) (rows : list Alert) : option Alert :=
  List.find (fun r => bool_decide (uuid r = alertId)) rows.

Definition update_rows (alertId : string) (alert : Alert) (rows : list Alert)
  : list Alert :=
  List.map (fun r => if bool_decide (uuid r = alertId) then alert else r) rows.

(** [alertRepository.findOne({ where: { uuid: alertId } })]. *)
Definition findOne (alertId : string) : M (list Alert) (option Alert) :=
  fun rows => (inr (find_row alertId rows), rows).

(** [alertRepository.update({ uuid: alertId }, alert)]. *)
Definition update (alertId : string) (alert : Alert) : M (list Alert) unit :=
  modify (update_rows alertId alert).

(** Reading [alert.status] where [alert] is the lookup result: on [null] the
    runtime throws a [TypeError]. *)
Definition read_status {S} (alert : option Alert) : M S Alert :=
  match alert with
  | Some a => ret a
  | None => throw (TypeError "Cannot read properties of null (reading 'status')")
  end.

(** ** [AlertService.updateAlert] *)

Definition updateAlert (alertId : string) (updateAlertParams : UpdateAlertParams)
  : M (list Alert) Alert :=
  alert <- findOne alertId ;;
  alert <- match updateType updateAlertParams with
           | IGNORE =>
               a <- read_status alert ;;
               if bool_decide (status a = IGNORED) then
                 throw (Error409Conflict "Alert is already being ignored.")
               else if bool_decide (status a = RESOLVED) then
                 throw (Error409Conflict "Alert is resolved and cannot be ignored.")
               else ret (set_status a IGNORED)
           | UNIGNORE =>
               a <- read_status alert ;;
               if bool_decide (status a <> IGNORED) then
                 throw (Error409Conflict "Alert is currently not ignored.")
               else ret (set_status a OPEN)
           | RESOLVE =>
               a <- read_status alert ;;
               if bool_decide (status a = RESOLVED) then
                 throw (Error409Conflict "Alert is already resolved.")
               else if bool_decide (status a = IGNORED) then
                 throw (Error409Conflict "Alert is ignored and cannot be resolved.")
               else
                 ret (set_resolutionMessage (set_status a RESOLVED)
                        match params_resolutionMessage updateAlertParams with
                        | Some m => if bool_decide (trim m = "") then None else Some (trim m)
                        | None => None
                        end)
           | UNRESOLVE =>
               a <- read_status alert ;;
               if bool_decide (status a <> RESOLVED) then
                 throw (Error409Conflict "Alert is currently not resolved.")
               else ret (set_status a OPEN)
           | UnrecognizedUpdateType _ =>
               throw (Error500InternalServer "Unknown update type.")
           end ;;
  update alertId alert ;;
  ret alert.

(** ** Query conditions and the data source *)

(** The find operators the service uses: plain equality, [In(...)], [Not(...)]. *)
Inductive FindOperator (A : Type) : Type :=
| Equal (v : A)
| In (vs : list A)
| Not (v : A).
Arguments Equal {A} v.
Arguments In {A} vs.
Arguments Not {A} v.

Definition operator_matches {A} `{EqDecision A}
    (op : option (FindOperator A)) (x : A) : bool :=
  match op with
  | None => true
  | Some (Equal v) => bool_decide (x = v)
  | Some (In vs) => bool_decide (x ∈ vs)
  | Some (Not v) => bool_decide (x <> v)
  end.

(** [FindOptionsWhere<Alert>]: an absent key puts no condition on its column.
    [where_host] is the nested condition [apiEndpoint: { host: ... }]. *)
Record FindOptionsWhere : Type := {
  where_apiEndpointUuid : option (FindOperator string);
  where_type : option (FindOperator AlertType);
  where_riskScore : option (FindOperator Z);
  where_host : option (FindOperator string);
  where_status : option (FindOperator Status);
  where_description : option (FindOperator string)
}.

Definition where_empty : FindOptionsWhere :=
  {| where_apiEndpointUuid := None; where_type := None; where_riskScore := None;
     where_host := None; where_status := None; where_description := None |}.

Record DataSource : Type := {
  alert_rows : list Alert;
  endpoint_rows : list ApiEndpoint
}.

(** The condition on the joined endpoint row of an alert. *)
Definition host_matches (db : DataSource) (op : option (FindOperator string))
    (a : Alert) : bool :=
  match op with
  | None => true
  | Some _ =>
      existsb (fun e => bool_decide (endpoint_uuid e = apiEndpointUuid a)
                        && operator_matches op (endpoint_host e))
              (endpoint_rows db)
  end.

Definition where_matches (db : DataSource) (w : FindOptionsWhere) (a : Alert) : bool :=
  operator_matches (where_apiEndpointUuid w) (apiEndpointUuid a)
  && operator_matches (where_type w) (type a)
  && operator_matches (where_riskScore w) (riskScore a)
  && host_matches db (where_host w) a
  && operator_matches (where_status w) (status a)
  && operator_matches (where_description w) (description a).

(** [alertRepository.findOneBy(conditions)] on a data source that answers. *)
Definition table_findOneBy (db : DataSource) (w : FindOptionsWhere)
  : exn + option Alert :=
  inr (List.find (where_matches db w) (alert_rows db)).

(** ** [AlertService.getAlerts] *)

Record GetAlertParams : Type := {
  params_apiEndpointUuid : option string;
  alertTypes : option (list AlertType);
  riskScores : option (list Z);
  hosts : option (list string);
  params_status : option (list Status);
  offset : option nat;
  limit : option nat;
  order : option SortOrder
}.

Inductive OrderColumn : Type := col_status | col_riskScore | col_createdAt.

#[global] Instance OrderColumn_eq_dec : EqDecision OrderColumn.
Proof. solve_decision. Defined.

(** [FindOptionsOrder<Alert>]: a JS object, whose keys keep insertion order. *)
Definition FindOptionsOrder : Type := list (OrderColumn * SortOrder).

(** Setting a key of an object literal: an existing key keeps its position
    and takes the new value, a new key goes last. *)
Fixpoint object_set (o : FindOptionsOrder) (k : OrderColumn) (v : SortOrder)
  : FindOptionsOrder :=
  match o with
  | [] => [(k, v)]
  | (k', v') :: o' =>
      if bool_decide (k' = k) then (k, v) :: o' else (k', v') :: object_set o' k v
  end.

(** [{ ...o, ...src }]. *)
Definition object_spread (o src : FindOptionsOrder) : FindOptionsOrder :=
  fold_left (fun acc kv => object_set acc (fst kv) (snd kv)) src o.

(** [x?.field] followed by a truthiness test, per field type. *)
Definition truthy_string (s : option string) : option string :=
  match s with Some "" => None | _ => s end.
Definition truthy_nat (n : option nat) : option nat :=
  match n with Some O => None | _ => n end.

Definition set_where_apiEndpointUuid (w : FindOptionsWhere) v : FindOptionsWhere :=
  {| where_apiEndpointUuid := v; where_type := where_type w;
     where_riskScore := where_riskScore w; where_host := where_host w;
     where_status := where_status w; where_description := where_description w |}.
Definition set_where_type (w : FindOptionsWhere) v : FindOptionsWhere :=
  {| where_apiEndpointUuid := where_apiEndpointUuid w; where_type := v;
     where_riskScore := where_riskScore w; where_host := where_host w;
     where_status := where_status w; where_description := where_description w |}.
Definition set_where_riskScore (w : FindOptionsWhere) v : FindOptionsWhere :=
  {| where_apiEndpointUuid := where_apiEndpointUuid w; where_type := where_type w;
     where_riskScore := v; where_host := where_host w;
     where_status := where_status w; where_description := where_description w |}.
Definition set_where_host (w : FindOptionsWhere) v : FindOptionsWhere :=
  {| where_apiEndpointUuid := where_apiEndpointUuid w; where_type := where_type w;
     where_riskScore := where_riskScore w; where_host := v;
     where_status := where_status w; where_description := where_description w |}.
Definition set_where_status (w : FindOptionsWhere) v : FindOptionsWhere :=
  {| where_apiEndpointUuid := where_apiEndpointUuid w; where_type := where_type w;
     where_riskScore := where_riskScore w; where_host := where_host w;
     where_status := v; where_description := where_description w |}.

Section QueryEngine.

(** The position of a status in the column order of the [status] enum,
    which the database decides ([@common/enums] declares it). *)
Variable status_rank : Status -> Z.

Definition column_compare (c : OrderColumn) (a b : Alert) : comparison :=
  match c with
  | col_status => Z.compare (status_rank (status a)) (status_rank (status b))
  | col_riskScore => Z.compare (riskScore a) (riskScore b)
  | col_createdAt => Z.compare (createdAt a) (createdAt b)
  end.

(** [ORDER BY] over the keys of the order object, first key first. *)
Fixpoint order_compare (o : FindOptionsOrder) (a b : Alert) : comparison :=
  match o with
  | [] => Eq
  | (c, d) :: o' =>
      match column_compare c a b with
      | Eq => order_compare o' a b
      | r => match d with ASC => r | DESC => CompOpp r end
      end
  end.

Definition order_leb (o : FindOptionsOrder) (a b : Alert) : bool :=
  match order_compare o a b with Gt => false | _ => true end.

Definition order_le (o : FindOptionsOrder) (a b : Alert) : Prop :=
  order_leb o a b = true.

#[global] Instance order_le_dec o a b : Decision (order_le o a b).
Proof. unfold order_le. apply _. Defined.

(** The order in which the database hands back rows that the [ORDER BY]
    keys leave tied. It is the engine's choice and not the service's, and
    it may differ from one query to the next: a paged query ([skip] or
    [take] given) need not break ties as the unpaged one does. *)
Variable tie_rank : option nat -> option nat -> Alert -> Z.

Definition listing_leb (skip take_ : option nat) (o : FindOptionsOrder)
    (a b : Alert) : bool :=
  match order_compare o a b with
  | Lt => true
  | Gt => false
  | Eq => (tie_rank skip take_ a <=? tie_rank skip take_ b)%Z
  end.

Definition listing_le (skip take_ : option nat) (o : FindOptionsOrder)
    (a b : Alert) : Prop :=
  listing_leb skip take_ o a b = true.

#[global] Instance listing_le_dec skip take_ o a b :
  Decision (listing_le skip take_ o a b).
Proof. unfold listing_le. apply _. Defined.

(** [alertRepository.findAndCount({ where, skip, take, order })]: the page
    of the ordered matches, and the number of all matches. The order
    object decides the order of the rows it tells apart; among the rows it
    ties the order is the one of this query. *)
Definition findAndCount (db : DataSource) (w : FindOptionsWhere)
    (skip take_ : option nat) (o : FindOptionsOrder) : list Alert * nat :=
  let matches := List.filter (where_matches db w) (alert_rows db) in
  let sorted := merge_sort (listing_le skip take_ o) matches in
  let skipped := match skip with Some n => drop n sorted | None => sorted end in
  (match take_ with Some n => take n skipped | None => skipped end,
   length matches).

Definition getAlerts (db : DataSource) (alertParams : option GetAlertParams)
  : list Alert * nat :=
  let whereConditions := where_empty in
  let whereConditions :=
    match truthy_string (alertParams ≫= params_apiEndpointUuid) with
    | Some u => set_where_apiEndpointUuid whereConditions (Some (Equal u))
    | None => whereConditions
    end in
  let whereConditions :=
    match alertParams ≫= alertTypes with
    | Some ts => set_where_type whereConditions (Some (In ts))
    | None => whereConditions
    end in
  let whereConditions :=
    match alertParams ≫= riskScores with
    | Some rs => set_where_riskScore whereConditions (Some (In rs))
    | None => whereConditions
    end in
  let whereConditions :=
    match alertParams ≫= hosts with
    | Some hs => set_where_host whereConditions (Some (In hs))
    | None => whereConditions
    end in
  let whereConditions :=
    match alertParams ≫= params_status with
    | Some ss => set_where_status whereConditions (Some (In ss))
    | None => whereConditions
    end in
  let skip := truthy_nat (alertParams ≫= offset) in
  let take_ := truthy_nat (alertParams ≫= limit) in
  let orderParams : FindOptionsOrder :=
    match alertParams ≫= order with
    | Some o => [(col_riskScore, o)]
    | None => [(col_riskScore, DESC)]
    end in
  findAndCount db whereConditions skip take_
    (object_set (object_spread (object_set [] col_status DESC) orderParams)
                col_createdAt DESC).

End QueryEngine.

(** ** Scoped state: local variables and arrays shared by reference *)

(** [try { body } catch (err) { handler }]. *)
Definition try_catch {S A} (body : M S A) (handler : exn -> M S A) : M S A :=
  fun s => match body s with
           | (inr a, s') => (inr a, s')
           | (inl err, s') => handler err s'
           end.

(** A block with a local variable of type [L] next to the ambient state: the
    variable is gone when the block is left, the ambient state is kept. *)
Definition with_local {S L A} (init : L) (c : M (L * S) A) : M S (A * L) :=
  fun s => match c (init, s) with
           | (inr a, (l, s')) => (inr (a, l), s')
           | (inl err, (_, s')) => (inl err, s')
           end.

Definition on_local {S L A} (c : M L A) : M (L * S) A :=
  fun ls => match c (fst ls) with (r, l') => (r, (l', snd ls)) end.

Definition on_shared {S L A} (c : M S A) : M (L * S) A :=
  fun ls => match c (snd ls) with (r, s') => (r, (fst ls, s')) end.

(** Arrays live in a heap and are passed around as references. *)
Definition loc : Type := nat.
Definition Heap : Type := list (list Alert).

(** An array literal [[]]: a fresh array. *)
Definition new_array (init : list Alert) : M Heap loc :=
  fun h => (inr (length h), h ++ [init]).

(** Runs a block that works on the array behind [l]; what it pushed before
    leaving, normally or by a throw, is in the heap. *)
Definition on_array {A} (l : loc) (c : M (list Alert) A) : M Heap A :=
  fun h => match c (default [] (h !! l)) with
           | (r, arr) => (r, <[l := arr]> h)
           end.

(** [alerts.push(newAlert)]. *)
Definition push (newAlert : Alert) : M (list Alert) unit :=
  modify (fun alerts => alerts ++ [newAlert]).

(** ** Alert factories *)

Record DataField : Type := {
  dataSection : DataSection;
  dataPath : string;
  dataClasses : option (list string)
}.

Record CacheEntry : Type := { lineNumber : Z; minimizedSpec : string }.

Record OpenApiSpec : Type := {
  spec_name : string;
  spec : string;
  extension : SpecExtension
}.

(** What [createSpecDiffAlerts] reads and writes outside its own variables:
    the [minimizedSpecContext] object of the spec it was handed, the number
    of source-map parses run so far, and the updates sent to the store. *)
Record SpecState : Type := {
  minimizedSpecContext : gmap string CacheEntry;
  parses : nat;
  stored : list (string * gmap string CacheEntry)
}.

Definition set_minimizedSpecContext (st : SpecState) (k : string) (e : CacheEntry)
  : SpecState :=
  {| minimizedSpecContext := <[k := e]> (minimizedSpecContext st);
     parses := parses st; stored := stored st |}.

Definition count_parse (st : SpecState) : SpecState :=
  {| minimizedSpecContext := minimizedSpecContext st;
     parses := S (parses st); stored := stored st |}.

Definition record_store (st : SpecState) (n : string) : SpecState :=
  {| minimizedSpecContext := minimizedSpecContext st;
     parses := parses st;
     stored := stored st ++ [(n, minimizedSpecContext st)] |}.

(** [existingDataFieldAlert]. *)
Definition existingDataFieldAlert (dataFieldAlerts : option (list Alert))
    (apiEndpointUuid_ : string) (description_ : string) : bool :=
  match dataFieldAlerts with
  | None => false
  | Some alerts =>
      existsb (fun alert =>
                 bool_decide (apiEndpointUuid alert = apiEndpointUuid_)
                 && bool_decide (description alert = description_))
              alerts
  end.

(** [s.replace(/\//g, "~1")]. *)
Fixpoint escape_slash (s : string) : string :=
  match s with
  | String "/" s' => "~1" +:+ escape_slash s'
  | String c s' => String c (escape_slash s')
  | EmptyString => EmptyString
  end.

(** [s.split(/\r?\n/)]. *)
Fixpoint split_lines (s : string) : list string :=
  match s with
  | EmptyString => [""]
  | String "010" s' => "" :: split_lines s'
  | String "013" (String "010" s'') => "" :: split_lines s''
  | String c s' =>
      match split_lines s' with
      | line :: lines => String c line :: lines
      | [] => [String c ""]
      end
  end.

(** [Array.prototype.slice(start, end)], negative indices counting from the end. *)
Definition slice {A} (xs : list A) (start end_ : Z) : list A :=
  let len := Z.of_nat (length xs) in
  let k := if (start <? 0)%Z then Z.max (len + start) 0 else Z.min start len in
  let final := if (end_ <? 0)%Z then Z.max (len + end_) 0 else Z.min end_ len in
  take (Z.to_nat (final - k)) (drop (Z.to_nat k) xs).

(** Truthiness of a possibly undefined number. *)
Definition truthy_number (n : option Z) : bool :=
  match n with Some z => negb (z =? 0)%Z | None => false end.

Definition basicAuthDescription : string :=
  "Basic Authentication detected in Authorization header.".

Record AlertToAdd : Type := {
  add_description : string;
  add_type : AlertType;
  add_context : AlertContext
}.

Section Factory.

(** Tables and helpers of [@common/maps] and [@common/utils]. *)
Variable ALERT_TYPE_TO_RISK_SCORE : AlertType -> Z.
Variable DATA_SECTION_TO_LABEL_MAP : DataSection -> string.
Variable getPathTokens : string -> list string.

(** [alertRepository.findOneBy]; the promise may reject. *)
Variable findOneBy : FindOptionsWhere -> exn + option Alert.

(** [jsonMap.parse(text)] gives, per JSON pointer, the line of its key
    ([result.pointers?.[pathKey]?.key?.line]); it throws on malformed text. *)
Variable jsonMap_parse : string -> exn + (string -> option Z).

(** [yaml.load(text, { listener })] fills the source map, whose [lookup]
    gives the line of a path, or nothing. *)
Variable yaml_load : string -> exn + (list string -> option Z).

(** The [UPDATE] of the spec row sent through the query runner. *)
Variable queryRunner_update : string -> gmap string CacheEntry -> exn + unit.

(** Modelled from the spec: the entity class [Alert] is declared in
    [models], outside the sources. [new Alert()] followed by the five
    assignments every factory makes; the fields a factory leaves alone
    take the entity's defaults (status OPEN, no resolution message). *)
Definition newAlert (type_ : AlertType) (apiEndpointUuid_ : string)
    (context_ : AlertContext) (description_ : string) : Alert :=
  {| uuid := ""; type := type_;
     riskScore := ALERT_TYPE_TO_RISK_SCORE type_;
     status := OPEN; description := description_; context := context_;
     resolutionMessage := None; apiEndpointUuid := apiEndpointUuid_;
     createdAt := 0; updatedAt := 0 |}.

(** [existingUnresolvedAlert]. *)
Definition existingUnresolvedAlert (apiEndpointUuid_ : string)
    (type_ : AlertType) (description_ : string) : exn + option Alert :=
  findOneBy
    {| where_apiEndpointUuid := Some (Equal apiEndpointUuid_);
       where_type := Some (Equal type_);
       where_riskScore := None;
       where_host := None;
       where_status := Some (Not RESOLVED);
       where_description := Some (Equal description_) |}.

(** [createAlert]; [None] is the [null] returned for a duplicate. *)
Definition createAlert {S} (alertType : AlertType) (apiEndpoint : ApiEndpoint)
    (description_ : option string) (context_ : AlertContext)
    (noDuplicate : bool) : M S (option Alert) :=
  let alertDescription :=
    match truthy_string description_ with
    | Some d => d
    | None =>
        match alertType with
        | NEW_ENDPOINT =>
            "A new endpoint has been detected: " +:+ endpoint_path apiEndpoint +:+ "."
        | OPEN_API_SPEC_DIFF => "A OpenAPI Spec diff has been detected."
        | PII_DATA_DETECTED => "PII Data has been detected."
        | _ => "A new alert."
        end
    end in
  existing <- (if noDuplicate then
                 await (existingUnresolvedAlert (endpoint_uuid apiEndpoint)
                          alertType alertDescription)
               else ret None) ;;
  match existing with
  | Some _ => ret None
  | None =>
      ret (Some (newAlert alertType (endpoint_uuid apiEndpoint) context_
                   alertDescription))
  end.

(** The test both loops of [createDataFieldAlerts] make before a push:
    [existingDataFieldAlert(alerts, ...) || (await existingUnresolvedAlert(...))]. *)
Definition existing_draft_or_unresolved (apiEndpointUuid_ : string)
    (type_ : AlertType) (description_ : string) : M (list Alert) bool :=
  alerts <- get ;;
  if existingDataFieldAlert (Some alerts) apiEndpointUuid_ description_ then ret true
  else
    unresolved <- await (existingUnresolvedAlert apiEndpointUuid_ type_ description_) ;;
    ret (match unresolved with Some _ => true | None => false end).

(** [for (let i = 0; i < requestHeaders.length && !found; i++)]. *)
Fixpoint scan_requestHeaders (apiEndpointUuid_ : string)
    (apiTrace : option ApiTrace) (requestHeaders_ : list PairObject)
    (found : bool) : M (list Alert) unit :=
  match requestHeaders_ with
  | [] => ret tt
  | header :: rest =>
      if found then ret tt
      else if bool_decide (toLowerCase (name header) = "authorization")
              && includes (toLowerCase (value header)) "basic "
      then
        existing <- existing_draft_or_unresolved apiEndpointUuid_
                      BASIC_AUTHENTICATION_DETECTED basicAuthDescription ;;
        (if existing then ret tt
         else push (newAlert BASIC_AUTHENTICATION_DETECTED apiEndpointUuid_
                      (ctx_trace apiTrace) basicAuthDescription)) ;;
        scan_requestHeaders apiEndpointUuid_ apiTrace rest true
      else scan_requestHeaders apiEndpointUuid_ apiTrace rest found
  end.

(** The loop over [endpointPathTokens]: the last matching token decides. *)
Fixpoint scan_pathTokens (dataPath_ dataClass : string) (tokens : list string)
    (i : nat) (acc : option nat * string) : option nat * string :=
  match tokens with
  | [] => acc
  | token :: rest =>
      scan_pathTokens dataPath_ dataClass rest (S i)
        (if bool_decide (token = "{" +:+ dataPath_ +:+ "}") then
           (Some i,
            "Path Parameter at position " +:+ nat_to_string (i + 1)
              +:+ " contains sensitive data of type " +:+ dataClass +:+ ".")
         else acc)
  end.

(** The list [alertsToAdd] built for one data class of one field. *)
Definition alertsToAdd (dataField : DataField) (dataClass : string)
    (apiEndpointPath : string) (apiTrace : option ApiTrace) : list AlertToAdd :=
  [ {| add_description :=
         "Sensitive data of type " +:+ dataClass
           +:+ " has been detected in field '" +:+ dataPath dataField
           +:+ "' of " +:+ DATA_SECTION_TO_LABEL_MAP (dataSection dataField) +:+ ".";
       add_type := PII_DATA_DETECTED;
       add_context := ctx_trace apiTrace |} ]
  ++ (if bool_decide (dataSection dataField = REQUEST_QUERY) then
        [ {| add_description :=
               "Query Parameter '" +:+ dataPath dataField
                 +:+ "' contains sensitive data of type " +:+ dataClass +:+ ".";
             add_type := QUERY_SENSITIVE_DATA;
             add_context := ctx_trace apiTrace |} ]
      else [])
  ++ (if bool_decide (dataSection dataField = REQUEST_PATH) then
        let '(pathTokenIdx, sensitivePathDescription) :=
          scan_pathTokens (dataPath dataField) dataClass
            (getPathTokens apiEndpointPath) 0
            (None, "Path Parameters contain sensitive data of type "
                     +:+ dataClass +:+ ".") in
        [ {| add_description := sensitivePathDescription;
             add_type := PATH_SENSITIVE_DATA;
             add_context := ctx_path apiTrace pathTokenIdx |} ]
      else []).

(** The body of the loop over [dataFields], run on the array [alerts]. *)
Definition dataField_alerts (apiEndpointUuid_ apiEndpointPath : string)
    (apiTrace : option ApiTrace) (dataField : DataField) : M (list Alert) unit :=
  (if bool_decide (dataSection dataField = REQUEST_HEADER) then
     match apiTrace ≫= requestHeaders with
     | Some requestHeaders_ =>
         scan_requestHeaders apiEndpointUuid_ apiTrace requestHeaders_ false
     | None => ret tt
     end
   else ret tt) ;;
  match dataClasses dataField with
  | Some dataClasses_ =>
      for_of dataClasses_ (fun dataClass =>
        for_of (alertsToAdd dataField dataClass apiEndpointPath apiTrace)
          (fun alert =>
             existing <- existing_draft_or_unresolved apiEndpointUuid_
                           (add_type alert) (add_description alert) ;;
             if existing then ret tt
             else push (newAlert (add_type alert) apiEndpointUuid_
                          (add_context alert) (add_description alert))))
  | None => ret tt
  end.

(** The [try] block of [createDataFieldAlerts]. *)
Definition createDataFieldAlerts_try (dataFields : option (list DataField))
    (apiEndpointUuid_ apiEndpointPath : string) (apiTrace : option ApiTrace)
    (sensitiveDataAlerts : option loc) : M Heap loc :=
  match dataFields with
  | None => new_array []
  | Some dataFields_ =>
      alerts <- match sensitiveDataAlerts with
                | Some l => ret l
                | None => new_array []
                end ;;
      on_array alerts
        (for_of dataFields_
           (dataField_alerts apiEndpointUuid_ apiEndpointPath apiTrace)) ;;
      ret alerts
  end.

(** [createDataFieldAlerts]; [sensitiveDataAlerts] is a reference to the
    caller's array, and the result is a reference too. *)
Definition createDataFieldAlerts (dataFields : option (list DataField))
    (apiEndpointUuid_ apiEndpointPath : string) (apiTrace : option ApiTrace)
    (sensitiveDataAlerts : option loc) : M Heap loc :=
  try_catch
    (createDataFieldAlerts_try dataFields apiEndpointUuid_ apiEndpointPath
       apiTrace sensitiveDataAlerts)
    (fun err => new_array []).

(** The block of [createSpecDiffAlerts] guarded by
    [!openApiSpec.minimizedSpecContext[minimizedSpecKey]]: on a miss, parse
    the spec, find the line of the pointer, and cache the lines around it. *)
Definition locate_in_spec (openApiSpec : OpenApiSpec)
    (pathPointer : list string) (minimizedSpecKey : string) : M SpecState unit :=
  st <- get ;;
  match minimizedSpecContext st !! minimizedSpecKey with
  | Some _ => ret tt
  | None =>
      lineNumber_ <-
        match extension openApiSpec with
        | JSON =>
            modify count_parse ;;
            result <- await (jsonMap_parse (spec openApiSpec)) ;;
            let pathKey :=
              fold_left (fun pathKey pathToken =>
                           pathKey +:+ "/" +:+ escape_slash pathToken)
                        pathPointer "" in
            let lineNumber_ := result pathKey in
            ret (if truthy_number lineNumber_
                 then (fun n => n + 1)%Z <$> lineNumber_ else lineNumber_)
        | YAML =>
            modify count_parse ;;
            map <- await (yaml_load (spec openApiSpec)) ;;
            match map pathPointer with
            | Some line =>
                ret (if truthy_number (Some line)
                     then Some (line - 1)%Z else Some line)
            | None =>
                throw (TypeError "Cannot read properties of undefined (reading 'line')")
            end
        | OtherSpecExtension _ => ret None
        end ;;
      match lineNumber_ with
      | Some n =>
          if truthy_number lineNumber_ then
            let minimizedString :=
              join (String "010" "")
                   (slice (split_lines (spec openApiSpec)) (n - 5) (n + 5)) in
            modify (fun st =>
              set_minimizedSpecContext st minimizedSpecKey
                {| lineNumber := n; minimizedSpec := minimizedString |})
          else ret tt
      | None => ret tt
      end
  end.

(** The body of the loop over the keys of [alertItems]. *)
Definition specDiff_alert (apiEndpointUuid_ : string) (apiTrace : option ApiTrace)
    (openApiSpec : OpenApiSpec) (item : string * list string)
  : M (list Alert * SpecState) unit :=
  let key := fst item in
  existing <- await (existingUnresolvedAlert apiEndpointUuid_
                       OPEN_API_SPEC_DIFF key) ;;
  match existing with
  | Some _ => ret tt
  | None =>
      let pathPointer := snd item in
      let minimizedSpecKey := join "." pathPointer in
      on_shared (locate_in_spec openApiSpec pathPointer minimizedSpecKey) ;;
      on_local (push (newAlert OPEN_API_SPEC_DIFF apiEndpointUuid_
                        (ctx_spec_diff pathPointer apiTrace) key))
  end ;;
  on_shared
    (st <- get ;;
     await (queryRunner_update (spec_name openApiSpec) (minimizedSpecContext st)) ;;
     modify (fun st => record_store st (spec_name openApiSpec))).

(** The [try] block of [createSpecDiffAlerts]; [alertItems] lists the
    entries of the record in the order [for ... in] visits its keys. *)
Definition createSpecDiffAlerts_try (alertItems : option (list (string * list string)))
    (apiEndpointUuid_ : string) (apiTrace : option ApiTrace)
    (openApiSpec : OpenApiSpec) : M SpecState (list Alert) :=
  match alertItems with
  | None => ret []
  | Some items =>
      if bool_decide (length items = 0%nat) then ret []
      else
        r <- with_local []
               (for_of items (specDiff_alert apiEndpointUuid_ apiTrace openApiSpec)) ;;
        ret (snd r)
  end.

(** [createSpecDiffAlerts]. *)
Definition createSpecDiffAlerts (alertItems : option (list (string * list string)))
    (apiEndpointUuid_ : string) (apiTrace : option ApiTrace)
    (openApiSpec : OpenApiSpec) : M SpecState (list Alert) :=
  try_catch
    (createSpecDiffAlerts_try alertItems apiEndpointUuid_ apiTrace openApiSpec)
    (fun err => ret []).

(** The body of the loop over [alertProps]. *)
Definition missingHSTS_alert {S} (alertProp : ApiEndpoint * ApiTrace * string)
  : M (list Alert * S) unit :=
  let '(endpoint, trace, description_) := alertProp in
  existing <- await (existingUnresolvedAlert (endpoint_uuid endpoint)
                       UNSECURED_ENDPOINT_DETECTED description_) ;;
  match existing with
  | Some _ => ret tt
  | None =>
      on_local
        (push (newAlert UNSECURED_ENDPOINT_DETECTED (endpoint_uuid endpoint)
                 (ctx_hsts (trace_host trace +:+ "/" +:+ trace_path trace) trace)
                 description_))
  end.

(** The [try] block of [createMissingHSTSAlert]. *)
Definition createMissingHSTSAlert_try {S}
    (alertProps : option (list (ApiEndpoint * ApiTrace * string)))
  : M S (list Alert) :=
  match alertProps with
  | None => ret []
  | Some alertProps_ =>
      r <- with_local [] (for_of alertProps_ missingHSTS_alert) ;;
      ret (snd r)
  end.

(** [createMissingHSTSAlert]. *)
Definition createMissingHSTSAlert {S}
    (alertProps : option (list (ApiEndpoint * ApiTrace * string)))
  : M S (list Alert) :=
  try_catch (createMissingHSTSAlert_try alertProps) (fun err => ret []).

End Factory.

(** ** Vocabulary of the specification *)

(** The invariant of the data model on the resolution message. *)
Definition resolution_invariant (a : Alert) : Prop :=
  resolutionMessage a <> None -> status a = RESOLVED.

(** Outcomes of a lifecycle command: a conflict leaves the table as it was,
    a transition writes the new alert over its row. *)
Definition conflict (message : string) (rows : list Alert)
  : (exn + Alert) * list Alert :=
  (inl (Error409Conflict message), rows).

Definition transitioned (alertId : string) (a : Alert) (rows : list Alert)
  : (exn + Alert) * list Alert :=
  (inr a, update_rows alertId a rows).

(** [a'] differs from [a] in its status at most: identity, type, risk score,
    description, context, resolution message, endpoint and creation time are
    those of [a]. *)
Definition keeps_but_status (a a' : Alert) : Prop :=
  uuid a' = uuid a /\ type a' = type a /\ riskScore a' = riskScore a
  /\ description a' = description a /\ context a' = context a
  /\ resolutionMessage a' = resolutionMessage a
  /\ apiEndpointUuid a' = apiEndpointUuid a /\ createdAt a' = createdAt a.

(** [t] is [s] without its leading and trailing white space: what is cut off
    at either end is white space, and [t] neither starts nor ends with a
    white-space character. *)
Definition trimmed_of (s t : string) : Prop :=
  (exists l r, white_space_only l /\ white_space_only r /\ s = l +:+ t +:+ r)
  /\ strip_first white_space t = None
  /\ strip_first (String.rev <$> white_space) (String.rev t) = None.

(** The message [RESOLVE] stores: [resolutionMessage?.trim() || null]. *)
Definition stored_message (m : option string) : option string :=
  match m with
  | Some s => if bool_decide (trim s = "") then None else Some (trim s)
  | None => None
  end.

(** ** Sample data *)

Definition sample_alert (id : string) (st : Status) (msg : option string)
    (score created : Z) : Alert :=
  {| uuid := id; type := PII_DATA_DETECTED; riskScore := score; status := st;
     description := "PII Data has been detected."; context := ctx_undefined;
     resolutionMessage := msg; apiEndpointUuid := "endpoint-1";
     createdAt := created; updatedAt := created |}.

(** The ordering of the listing as the specification words it: of two
    returned alerts with different risk scores, the one that the risk-score
    direction puts first comes first. *)
Definition risk_score_decides (direction : SortOrder) (l : list Alert) : Prop :=
  forall (i j : nat) (a b : Alert),
    (i < j)%nat -> l !! i = Some a -> l !! j = Some b ->
    riskScore a <> riskScore b ->
    match direction with
    | DESC => (riskScore b < riskScore a)%Z
    | ASC => (riskScore a < riskScore b)%Z
    end.

(** A column order of the status enum, to run the listing on sample rows. *)
Definition sample_status_rank (s : Status) : Z :=
  match s with RESOLVED => 0 | IGNORED => 1 | OPEN => 2 end.

(** A database that returns tied rows in the order they are stored in. *)
Definition sample_tie_rank (skip take_ : option nat) (a : Alert) : Z := 0.

Definition no_filter (o : option SortOrder) : GetAlertParams :=
  {| params_apiEndpointUuid := None; alertTypes := None; riskScores := None;
     hosts := None; params_status := None; offset := None; limit := None;
     order := o |}.

(** A finding handed to a factory, with its deduplication key
    (endpoint, type, description). *)
Record Finding : Type := {
  finding_uuid : string;
  finding_type : AlertType;
  finding_description : string;
  finding_context : AlertContext
}.

(** The header test of the basic-authentication scan. *)
Definition is_basic_auth_header (header : PairObject) : bool :=
  bool_decide (toLowerCase (name header) = "authorization")
  && includes (toLowerCase (value header)) "basic ".

Definition is_basic_auth_draft (a : Alert) : bool :=
  bool_decide (type a = BASIC_AUTHENTICATION_DETECTED).

Section DedupPolicy.

Variable ALERT_TYPE_TO_RISK_SCORE : AlertType -> Z.
Variable DATA_SECTION_TO_LABEL_MAP : DataSection -> string.
Variable getPathTokens : string -> list string.
Variable db : DataSource.

Definition draft_of (f : Finding) : Alert :=
  newAlert ALERT_TYPE_TO_RISK_SCORE (finding_type f) (finding_uuid f)
    (finding_context f) (finding_description f).

(** A persisted alert with the key of the finding and a status other than
    RESOLVED exists. *)
Definition persisted_unresolved (f : Finding) : bool :=
  existsb (fun a => bool_decide (apiEndpointUuid a = finding_uuid f)
                    && bool_decide (type a = finding_type f)
                    && bool_decide (description a = finding_description f)
                    && bool_decide (status a <> RESOLVED))
          (alert_rows db).

(** A draft with the endpoint and the description of the finding sits in
    the batch. *)
Definition drafted (batch : list Alert) (f : Finding) : bool :=
  existsb (fun a => bool_decide (apiEndpointUuid a = finding_uuid f)
                    && bool_decide (description a = finding_description f))
          batch.

(** The policy in the words of the specification: a finding is suppressed
    if either an in-batch or a persisted unresolved duplicate exists,
    otherwise its draft joins the batch. *)
Fixpoint batch_or_store_policy (batch : list Alert) (fs : list Finding)
  : list Alert :=
  match fs with
  | [] => batch
  | f :: fs' =>
      batch_or_store_policy
        (if drafted batch f || persisted_unresolved f then batch
         else batch ++ [draft_of f])
        fs'
  end.

(** The policy that looks at the persisted alerts only. *)
Definition store_policy (fs : list Finding) : list Alert :=
  draft_of <$> List.filter (fun f => negb (persisted_unresolved f)) fs.

(** The findings each factory is handed, in the order it visits them. *)
Definition basic_auth_finding (apiEndpointUuid_ : string)
    (apiTrace : option ApiTrace) : Finding :=
  {| finding_uuid := apiEndpointUuid_;
     finding_type := BASIC_AUTHENTICATION_DETECTED;
     finding_description := basicAuthDescription;
     finding_context := ctx_trace apiTrace |}.

Definition finding_of_alertToAdd (apiEndpointUuid_ : string) (alert : AlertToAdd)
  : Finding :=
  {| finding_uuid := apiEndpointUuid_;
     finding_type := add_type alert;
     finding_description := add_description alert;
     finding_context := add_context alert |}.

Definition dataField_findings (apiEndpointUuid_ apiEndpointPath : string)
    (apiTrace : option ApiTrace) (dataField : DataField) : list Finding :=
  (if bool_decide (dataSection dataField = REQUEST_HEADER) then
     match apiTrace ≫= requestHeaders with
     | Some hs =>
         if existsb is_basic_auth_header hs
         then [basic_auth_finding apiEndpointUuid_ apiTrace] else []
     | None => []
     end
   else [])
  ++ match dataClasses dataField with
     | Some classes =>
         concat ((fun dataClass =>
                    finding_of_alertToAdd apiEndpointUuid_
                      <$> alertsToAdd DATA_SECTION_TO_LABEL_MAP getPathTokens
                            dataField dataClass apiEndpointPath apiTrace)
                 <$> classes)
     | None => []
     end.

Definition specDiff_finding (apiEndpointUuid_ : string)
    (apiTrace : option ApiTrace) (item : string * list string) : Finding :=
  {| finding_uuid := apiEndpointUuid_;
     finding_type := OPEN_API_SPEC_DIFF;
     finding_description := fst item;
     finding_context := ctx_spec_diff (snd item) apiTrace |}.

Definition missingHSTS_finding (alertProp : ApiEndpoint * ApiTrace * string)
  : Finding :=
  let '(endpoint, trace, description_) := alertProp in
  {| finding_uuid := endpoint_uuid endpoint;
     finding_type := UNSECURED_ENDPOINT_DETECTED;
     finding_description := description_;
     finding_context :=
       ctx_hsts (trace_host trace +:+ "/" +:+ trace_path trace) trace |}.

End DedupPolicy.

(** Sample tables and rows to run the factories on. *)
Definition sample_risk_score (t : AlertType) : Z :=
  match t with
  | NEW_ENDPOINT => 0
  | OPEN_API_SPEC_DIFF | QUERY_SENSITIVE_DATA | BASIC_AUTHENTICATION_DETECTED => 2
  | PII_DATA_DETECTED | PATH_SENSITIVE_DATA | UNSECURED_ENDPOINT_DETECTED => 3
  end.

Definition sample_section_label (s : DataSection) : string :=
  match s with
  | REQUEST_HEADER => "Request Headers"
  | REQUEST_QUERY => "Request Query"
  | REQUEST_PATH => "Request Path"
  | OtherDataSection raw => raw
  end.

Definition sample_path_tokens (path : string) : list string :=
  ["users"; "{id}"; "profile"].

Definition empty_source : DataSource := {| alert_rows := []; endpoint_rows := [] |}.

Definition sample_endpoint : ApiEndpoint :=
  {| endpoint_uuid := "endpoint-1"; endpoint_path := "/users/{id}/profile";
     endpoint_host := "api.example.com" |}.

Definition sample_trace : ApiTrace :=
  {| trace_host := "api.example.com"; trace_path := "users/7/profile";
     requestHeaders :=
       Some [ {| name := "Authorization"; value := "Basic dXNlcjpwYXNz" |};
              {| name := "authorization"; value := "BASIC b3RoZXI6cGFzcw==" |} ] |}.

(** A repository whose lookups for one alert type are rejected. *)
Definition failing_on (t : AlertType) (w : FindOptionsWhere) : exn + option Alert :=
  match where_type w with
  | Some (Equal t') =>
      if bool_decide (t' = t)
      then inl (ExternalError "Connection terminated unexpectedly")
      else inr None
  | _ => inr None
  end.

(** A computation on the batch that only ever pushes. *)
Definition appends_only {A} (c : M (list Alert) A) : Prop :=
  forall batch, exists appended, snd (c batch) = batch ++ appended.

(** A finding of the data-field batch of one endpoint and trace: the
    basic-authentication finding itself, or one of another type whose
    description differs from the basic-authentication description. *)
Definition batch_finding (apiEndpointUuid_ : string) (apiTrace : option ApiTrace)
    (f : Finding) : Prop :=
  finding_uuid f = apiEndpointUuid_
  /\ (f = basic_auth_finding apiEndpointUuid_ apiTrace
      \/ finding_type f <> BASIC_AUTHENTICATION_DETECTED
         /\ finding_description f <> basicAuthDescription).

Definition has_basic (fs : list Finding) : bool :=
  existsb (fun f => bool_decide (finding_type f = BASIC_AUTHENTICATION_DETECTED)) fs.

(** A JSON specification and a source map of it, to run the locator on. *)
Definition sample_spec : OpenApiSpec :=
  {| spec_name := "petstore";
     spec := "openapi: 3.0.0" +:+ String "010" "" +:+ "paths:" +:+ String "010" ""
             +:+ "  /users:" +:+ String "010" "" +:+ "    get: {}";
     extension := JSON |}.

Definition sample_jsonMap_parse (text : string) : exn + (string -> option Z) :=
  inr (fun pathKey => if bool_decide (pathKey = "/paths/~1users") then Some 2%Z else None).

Definition sample_yaml_load (text : string) : exn + (list string -> option Z) :=
  inr (fun _ => None).

Definition sample_queryRunner_update (n : string) (c : gmap string CacheEntry)
  : exn + unit := inr tt.

Definition empty_spec_state : SpecState :=
  {| minimizedSpecContext := ∅; parses := 0; stored := [] |}.

(** The JSON pointer of a pointer-path: every segment after a "/", with a
    "/" inside a segment written "~1". *)
Definition json_pointer (pathPointer : list string) : string :=
  fold_left (fun pathKey pathToken => pathKey +:+ "/" +:+ escape_slash pathToken)
            pathPointer "".

(** The cache entry for a line of a spec: the line, and the lines of the
    text from index [line - 5] up to [line + 5]. *)
Definition entry_at (openApiSpec : OpenApiSpec) (line : Z) : CacheEntry :=
  {| lineNumber := line;
     minimizedSpec :=
       join (String "010" "")
            (slice (split_lines (spec openApiSpec)) (line - 5) (line + 5)) |}.

(** A JSON specification on a single line, as a minified file is, and its
    source map: every key of the document is on line 0. *)
Definition quoted (s : string) : string := String "034" s +:+ String "034" "".

Definition one_line_spec : OpenApiSpec :=
  {| spec_name := "minified";
     spec := "{" +:+ quoted "paths" +:+ ": {" +:+ quoted "/users" +:+ ": {"
             +:+ quoted "get" +:+ ": {}}}}";
     extension := JSON |}.

Definition one_line_jsonMap_parse (text : string) : exn + (string -> option Z) :=
  inr (fun pathKey =>
         if bool_decide (pathKey ∈ ["/paths"; "/paths/~1users"; "/paths/~1users/get"])
         then Some 0%Z else None).

(** ** Further operations of the service *)

(** [AlertService.getAlert]: [alertRepository.findOneBy({ uuid: alertId })]. *)
Definition getAlert (alertId : string) : M (list Alert) (option Alert) :=
  fun rows => (inr (find_row alertId rows), rows).

(** [AlertService.getAlertWithConditions], on a data source that answers. *)
Definition getAlertWithConditions (db : DataSource) (conditions : FindOptionsWhere)
  : exn + option Alert :=
  table_findOneBy db conditions.

(** The state a lifecycle command moves an alert to. *)
Definition target_status (c : UpdateAlertType) : option Status :=
  match c with
  | IGNORE => Some IGNORED
  | UNIGNORE => Some OPEN
  | RESOLVE => Some RESOLVED
  | UNRESOLVE => Some OPEN
  | UnrecognizedUpdateType _ => None
  end.

(** The conditions [getAlerts] puts together from its parameters. *)
Definition getAlerts_where (alertParams : option GetAlertParams) : FindOptionsWhere :=
  {| where_apiEndpointUuid :=
       Equal <$> truthy_string (alertParams ≫= params_apiEndpointUuid);
     where_type := In <$> (alertParams ≫= alertTypes);
     where_riskScore := In <$> (alertParams ≫= riskScores);
     where_host := In <$> (alertParams ≫= hosts);
     where_status := In <$> (alertParams ≫= params_status);
     where_description := None |}.

(** An alert passes every filter the caller supplied. *)
Definition satisfies_filters (db : DataSource) (alertParams : option GetAlertParams)
    (a : Alert) : Prop :=
  (forall u, alertParams ≫= params_apiEndpointUuid = Some u -> u <> "" ->
             apiEndpointUuid a = u)
  /\ (forall ts, alertParams ≫= alertTypes = Some ts -> type a ∈ ts)
  /\ (forall rs, alertParams ≫= riskScores = Some rs -> riskScore a ∈ rs)
  /\ (forall hs, alertParams ≫= hosts = Some hs ->
                 exists e, e ∈ endpoint_rows db
                           /\ endpoint_uuid e = apiEndpointUuid a
                           /\ endpoint_host e ∈ hs)
  /\ (forall ss, alertParams ≫= params_status = Some ss -> status a ∈ ss).

(** The parameters with the paging taken out. *)
Definition unpaged (p : GetAlertParams) : GetAlertParams :=
  {| params_apiEndpointUuid := params_apiEndpointUuid p;
     alertTypes := alertTypes p; riskScores := riskScores p; hosts := hosts p;
     params_status := params_status p; offset := None; limit := None;
     order := order p |}.

(** Within the drafts of one endpoint, no description occurs twice. *)
Definition unique_drafts (apiEndpointUuid_ : string) (batch : list Alert) : Prop :=
  NoDup (description
           <$> List.filter (fun a => bool_decide (apiEndpointUuid a = apiEndpointUuid_))
                 batch).

(** A computation on the batch that only pushes alerts with a property. *)
Definition pushes_only {A} (P : Alert -> Prop) (c : M (list Alert) A) : Prop :=
  forall batch, exists appended,
    snd (c batch) = batch ++ appended /\ Forall P appended.

(** A computation on the batch that keeps an invariant of the batch,
    whether it returns or throws. *)
Definition keeps {A} (I : list Alert -> Prop) (c : M (list Alert) A) : Prop :=
  forall batch, I batch -> I (snd (c batch)).

(** A draft of the data-field batch of an endpoint: it carries the endpoint,
    the risk score of its type, no resolution message, and one of the four
    types of that batch. *)
Definition dataField_draft (risk : AlertType -> Z) (apiEndpointUuid_ : string)
    (a : Alert) : Prop :=
  apiEndpointUuid a = apiEndpointUuid_
  /\ riskScore a = risk (type a)
  /\ resolutionMessage a = None
  /\ type a ∈ [BASIC_AUTHENTICATION_DETECTED; PII_DATA_DETECTED;
               QUERY_SENSITIVE_DATA; PATH_SENSITIVE_DATA].

(** What a run over [n] keys of a spec-diff batch may have done to the state
    of the spec: at most one parse and one store update per key (exactly one
    update per key when the run completed), updates that carry the name of
    the spec, and a cache that kept every entry it had and gained entries
    only under the given keys, each with a line number other than 0 and the
    lines of the spec text around it. *)
Definition spec_effects (openApiSpec : OpenApiSpec) (n : nat) (keys : list string)
    (completed : bool) (st st' : SpecState) : Prop :=
  (parses st <= parses st' <= parses st + n)%nat
  /\ (exists writes,
        stored st' = stored st ++ writes
        /\ (length writes <= n)%nat
        /\ (completed = true -> length writes = n)
        /\ Forall (fun w => fst w = spec_name openApiSpec) writes)
  /\ (forall k e, minimizedSpecContext st !! k = Some e ->
                  minimizedSpecContext st' !! k = Some e)
  /\ (forall k e, minimizedSpecContext st' !! k = Some e ->
                  minimizedSpecContext st !! k = Some e
                  \/ (k ∈ keys /\ lineNumber e <> 0%Z
                      /\ minimizedSpec e
                         = join (String "010" "")
                             (slice (split_lines (spec openApiSpec))
                                (lineNumber e - 5) (lineNumber e + 5)))).

Definition is_completed {A} (r : exn + A) : bool :=
  match r with inr _ => true | inl _ => false end.

(** ** Messages for OpenAPI validation errors *)

(** The fields of a validator error the formatters read; [path] and
    [location] are optional in the validators' declarations. *)
Record ValidatorError : Type := {
  errorCode : string;
  error_path : option string;
  error_message : string;
  error_location : option string
}.

(** A possibly undefined string inside a template literal. *)
Definition template (o : option string) : string := default "undefined" o.

(** [s.split(".")[0]]. *)
Fixpoint first_segment (s : string) : string :=
  match s with
  | EmptyString => EmptyString
  | String "." _ => EmptyString
  | String c s' => String c (first_segment s')
  end.

(** [generateAlertMessageFromReqErrors]. *)
Definition generateAlertMessageFromReqErrors (errors : option (list ValidatorError))
  : list string :=
  match errors with
  | None => []
  | Some errors_ =>
      (fun error =>
         let category := first_segment (errorCode error) in
         if bool_decide (category = "required") then
           "Required property '" +:+ template (error_path error)
             +:+ "' is missing from request " +:+ template (error_location error)
         else if bool_decide (category = "type") then
           "Property '" +:+ template (error_path error) +:+ "' "
             +:+ error_message error +:+ " in request "
             +:+ template (error_location error)
         else if bool_decide (category = "additionalProperties") then
           "Property '" +:+ template (error_path error)
             +:+ "' is present in request " +:+ template (error_location error)
             +:+ " without being defined in OpenAPI Spec"
         else
           error_message error +:+ ": '" +:+ template (error_path error)
             +:+ "' in request " +:+ template (error_location error))
      <$> errors_
  end.

(** [generateAlertMessageFromRespErrors]. *)
Definition generateAlertMessageFromRespErrors (errors : option (list ValidatorError))
  : list string :=
  match errors with
  | None => []
  | Some errors_ =>
      (fun error =>
         let category := first_segment (errorCode error) in
         if bool_decide (category = "required") then
           "Required property '" +:+ template (error_path error)
             +:+ "' is missing from response body"
         else if bool_decide (category = "type") then
           "Property '" +:+ template (error_path error) +:+ "' "
             +:+ error_message error +:+ " in response body"
         else if bool_decide (category = "additionalProperties") then
           "Property '" +:+ template (error_path error)
             +:+ "' is present in response body without being defined in OpenAPI Spec"
         else
           error_message error +:+ ": '" +:+ template (error_path error)
             +:+ "' in response body")
      <$> errors_
  end.

(** A string without a dot. *)
Fixpoint dot_free (s : string) : bool :=
  match s with
  | EmptyString => true
  | String "." _ => false
  | String _ s' => dot_free s'
  end.

(** No persisted alert with the key of the draft (endpoint, type,
    description) is unresolved. *)
Definition no_unresolved_duplicate (db : DataSource) (d : Alert) : Prop :=
  forall row, row ∈ alert_rows db ->
              apiEndpointUuid row = apiEndpointUuid d -> type row = type d ->
              description row = description d -> status row = RESOLVED.

(** * Properties *)

(** ** The runtime helpers on sample inputs *)

Example trim_example : trim (String "009" "  fixed in v2 " +:+ String "010" "") = "fixed in v2".
Proof. reflexivity. Qed.

Example trim_unicode_example :
  trim (utf8_2 194 160 +:+ String "009" " fixed in v2" +:+ utf8_3 226 128 168
        +:+ utf8_3 227 128 128 +:+ utf8_3 239 187 191)
  = "fixed in v2".
Proof. reflexivity. Qed.

Example toLowerCase_example : toLowerCase "AuthoriZation" = "authorization".
Proof. reflexivity. Qed.

Example includes_example :
  includes (toLowerCase "Digest x, BASIC dXNlcg==") "basic " = true
  /\ includes (toLowerCase "Basic") "basic " = false.
Proof. by vm_compute. Qed.

Example escape_slash_example : escape_slash "/users/{id}" = "~1users~1{id}".
Proof. reflexivity. Qed.

Example split_lines_example :
  split_lines ("a" +:+ String "013" (String "010" "b") +:+ String "010" "" +:+ "c")
  = ["a"; "b"; "c"].
Proof. reflexivity. Qed.

Example slice_example :
  slice [0; 1; 2; 3; 4; 5; 6; 7; 8; 9; 10; 11]%nat (7 - 5) (7 + 5) = [2; 3; 4; 5; 6; 7; 8; 9; 10; 11]%nat
  /\ slice [0; 1; 2; 3]%nat (3 - 5) (3 + 5) = [2; 3]%nat.
Proof. by vm_compute. Qed.

Example object_spread_example :
  object_set (object_spread (object_set [] col_status DESC) [(col_riskScore, ASC)])
             col_createdAt DESC
  = [(col_status, DESC); (col_riskScore, ASC); (col_createdAt, DESC)].
Proof. reflexivity. Qed.

Example path_position_example :
  alertsToAdd sample_section_label sample_path_tokens
    {| dataSection := REQUEST_PATH; dataPath := "id"; dataClasses := Some ["Email"] |}
    "Email" "/users/{id}/profile" None
  = [ {| add_description :=
           "Sensitive data of type Email has been detected in field 'id' of Request Path.";
         add_type := PII_DATA_DETECTED; add_context := ctx_trace None |};
      {| add_description :=
           "Path Parameter at position 2 contains sensitive data of type Email.";
         add_type := PATH_SENSITIVE_DATA; add_context := ctx_path None (Some 1%nat) |} ].
Proof. by vm_compute. Qed.


(** ** Alert lifecycle *)

Ltac run_update Hfind :=
  unfold updateAlert, bind, findOne, read_status, update, modify, ret, throw,
    conflict, transitioned; cbn [updateType params_resolutionMessage];
  rewrite ?Hfind; cbn [status set_status set_resolutionMessage].

Lemma length_append (a b : string) :
  String.length (a +:+ b) = String.length a + String.length b.
Proof. induction a as [|c a IH]; simpl; [done|]. by rewrite IH. Qed.

Lemma append_assoc (a b c : string) : (a +:+ b) +:+ c = a +:+ (b +:+ c).
Proof.
  induction a as [|x a IH]; [done|].
  change (String x ((a +:+ b) +:+ c) = String x (a +:+ (b +:+ c))). by rewrite IH.
Qed.

Lemma append_empty_r (a : string) : a +:+ "" = a.
Proof.
  induction a as [|x a IH]; [done|].
  change (String x (a +:+ "") = String x a). by rewrite IH.
Qed.

Lemma rev_app_spec (s acc : string) : String.rev_app s acc = String.rev s +:+ acc.
Proof.
  revert acc. induction s as [|c s IH]; intros acc; [done|].
  unfold String.rev. cbn [String.rev_app].
  rewrite (IH (String c acc)), (IH (String c "")). by rewrite append_assoc.
Qed.

Lemma rev_String (c : ascii) (s : string) : String.rev (String c s) = String.rev s +:+ String c "".
Proof. unfold String.rev at 1. cbn [String.rev_app]. apply rev_app_spec. Qed.

Lemma rev_append (a b : string) : String.rev (a +:+ b) = String.rev b +:+ String.rev a.
Proof.
  induction a as [|c a IH].
  - change ("" +:+ b) with b. by rewrite append_empty_r.
  - change (String c a +:+ b) with (String c (a +:+ b)).
    by rewrite !rev_String, IH, append_assoc.
Qed.

Lemma rev_involutive (s : string) : String.rev (String.rev s) = s.
Proof.
  induction s as [|c s IH]; [done|].
  by rewrite rev_String, rev_append, IH.
Qed.

Lemma length_rev (s : string) : String.length (String.rev s) = String.length s.
Proof.
  induction s as [|c s IH]; [done|].
  rewrite rev_String, length_append, IH. cbn. lia.
Qed.

Lemma strip_prefix_app w s : strip_prefix w (w +:+ s) = Some s.
Proof.
  induction w as [|c w IH]; simpl; [by destruct s|].
  by rewrite Ascii.eqb_refl.
Qed.

Lemma strip_prefix_Some w s rest : strip_prefix w s = Some rest -> s = w +:+ rest.
Proof.
  revert s. induction w as [|c w IH]; intros s; cbn.
  - by intros [= ->].
  - destruct s as [|b s]; [done|].
    destruct (Ascii.eqb c b) eqn:E; [|done].
    apply Ascii.eqb_eq in E as ->. intros H. by rewrite (IH _ H).
Qed.

Lemma strip_first_Some table s rest :
  strip_first table s = Some rest -> exists w, w ∈ table /\ s = w +:+ rest.
Proof.
  induction table as [|w table IH]; cbn; [done|].
  destruct (strip_prefix w s) eqn:E.
  - intros [= ->]. exists w. split; [left|by apply strip_prefix_Some].
  - intros H. destruct (IH H) as (w' & ? & ?). exists w'. split; [by right|done].
Qed.

Lemma strip_first_append table p r :
  strip_first table (p +:+ r) = None -> strip_first table p = None.
Proof.
  induction table as [|w table IH]; cbn; [done|].
  destruct (strip_prefix w p) as [x|] eqn:E.
  - apply strip_prefix_Some in E as ->.
    by rewrite append_assoc, strip_prefix_app.
  - destruct (strip_prefix w (p +:+ r)); [done|]. apply IH.
Qed.

Lemma white_space_nonempty w : w ∈ white_space -> 0 < String.length w.
Proof.
  intros Hw. unfold white_space in Hw. cbn in Hw.
  repeat (apply elem_of_cons in Hw as [->|Hw]; [cbn; lia|]).
  by apply elem_of_nil in Hw.
Qed.

Lemma white_space_rev_nonempty w :
  w ∈ String.rev <$> white_space -> 0 < String.length w.
Proof.
  intros (w' & -> & Hw)%list_elem_of_fmap. rewrite length_rev.
  by apply white_space_nonempty.
Qed.

Lemma strip_first_white_space w s :
  w ∈ white_space -> strip_first white_space (w +:+ s) = Some s.
Proof.
  intros Hw. unfold white_space in Hw. cbn in Hw.
  repeat (apply elem_of_cons in Hw as [->|Hw]; [reflexivity|]).
  by apply elem_of_nil in Hw.
Qed.

Lemma strip_all_white_space_only fuel s :
  white_space_only s -> String.length s <= fuel -> strip_all white_space fuel s = "".
Proof.
  intros Hs. revert fuel. induction Hs as [|w s Hw Hs IH]; intros fuel Hlen.
  - by destruct fuel.
  - pose proof (white_space_nonempty _ Hw). rewrite length_append in Hlen.
    destruct fuel as [|fuel]; [lia|]. cbn [strip_all].
    rewrite (strip_first_white_space _ _ Hw). apply IH. lia.
Qed.

Lemma trimStart_white_space_only s : white_space_only s -> trimStart s = "".
Proof. intros Hs. by apply strip_all_white_space_only. Qed.

Lemma trim_white_space_only s : white_space_only s -> trim s = "".
Proof. intros Hs. unfold trim. by rewrite (trimStart_white_space_only _ Hs). Qed.

Lemma strip_all_stops table fuel s :
  (forall w, w ∈ table -> 0 < String.length w) ->
  String.length s <= fuel ->
  strip_first table (strip_all table fuel s) = None.
Proof.
  intros Hne. revert s. induction fuel as [|fuel IH]; intros s Hlen; cbn [strip_all].
  - destruct s; [|cbn in Hlen; lia].
    destruct (strip_first table "") eqn:E; [|done].
    apply strip_first_Some in E as (w & Hw & E). apply Hne in Hw.
    apply (f_equal String.length) in E. rewrite length_append in E. cbn in E. lia.
  - destruct (strip_first table s) as [rest|] eqn:E; [|done].
    apply IH. apply strip_first_Some in E as (w & Hw & ->). apply Hne in Hw.
    rewrite length_append in Hlen. lia.
Qed.

Lemma strip_all_decompose table fuel s :
  exists l, made_of table l /\ s = l +:+ strip_all table fuel s.
Proof.
  revert s. induction fuel as [|fuel IH]; intros s; cbn [strip_all].
  - exists "". split; [constructor|done].
  - destruct (strip_first table s) as [rest|] eqn:E.
    + apply strip_first_Some in E as (w & Hw & ->).
      destruct (IH rest) as (l & Hl & Hrest). exists (w +:+ l).
      split; [by constructor|]. by rewrite append_assoc, <- Hrest.
    + exists "". split; [constructor|done].
Qed.

Lemma made_of_app table a b :
  made_of table a -> made_of table b -> made_of table (a +:+ b).
Proof.
  intros Ha Hb. induction Ha as [|w a Hw Ha IH]; [done|].
  rewrite append_assoc. by constructor.
Qed.

Lemma made_of_rev table s :
  made_of (String.rev <$> table) s -> made_of table (String.rev s).
Proof.
  induction 1 as [|w s Hw Hs IH]; [constructor|].
  apply list_elem_of_fmap in Hw as (w' & -> & Hw).
  rewrite rev_append, rev_involutive. apply made_of_app; [done|].
  rewrite <- (append_empty_r w'). constructor; [done|constructor].
Qed.

Lemma trim_decompose s :
  exists l r, white_space_only l /\ white_space_only r /\ s = l +:+ trim s +:+ r.
Proof.
  destruct (strip_all_decompose white_space (String.length s) s) as (l & Hl & Hs).
  fold (trimStart s) in Hs. set (t := trimStart s) in *.
  destruct (strip_all_decompose (String.rev <$> white_space) (String.length t)
              (String.rev t)) as (r & Hr & Ht).
  apply (f_equal String.rev) in Ht. rewrite rev_involutive, rev_append in Ht.
  fold (trimEnd t) in Ht.
  exists l, (String.rev r). split; [done|]. split; [by apply made_of_rev|].
  unfold trim. fold t. by rewrite <- Ht.
Qed.

Lemma trim_stops s :
  strip_first white_space (trim s) = None
  /\ strip_first (String.rev <$> white_space) (String.rev (trim s)) = None.
Proof.
  split.
  - destruct (strip_all_decompose (String.rev <$> white_space)
                (String.length (trimStart s)) (String.rev (trimStart s)))
      as (r & Hr & Ht).
    apply (f_equal String.rev) in Ht. rewrite rev_involutive, rev_append in Ht.
    fold (trimEnd (trimStart s)) in Ht. fold (trim s) in Ht.
    apply (strip_first_append _ _ (String.rev r)). rewrite <- Ht.
    apply strip_all_stops; [apply white_space_nonempty|done].
  - unfold trim, trimEnd. rewrite rev_involutive.
    apply strip_all_stops; [apply white_space_rev_nonempty|].
    by rewrite length_rev.
Qed.

Lemma trim_trimmed_of s : trimmed_of s (trim s).
Proof. split; [apply trim_decompose|apply trim_stops]. Qed.

Lemma white_space_only_trim s : trim s = "" -> white_space_only s.
Proof.
  intros Ht. destruct (trim_decompose s) as (l & r & Hl & Hr & Hs).
  rewrite Ht in Hs. change ("" +:+ r) with r in Hs. rewrite Hs.
  by apply made_of_app.
Qed.

Lemma find_row_uuid alertId rows a : find_row alertId rows = Some a -> uuid a = alertId.
Proof.
  unfold find_row. intros [_ H]%find_some. by apply bool_decide_eq_true in H.
Qed.

Lemma find_row_update alertId rows a a' :
  find_row alertId rows = Some a -> uuid a' = alertId ->
  find_row alertId (update_rows alertId a' rows) = Some a'.
Proof.
  unfold find_row, update_rows. intros Hfind Hu.
  induction rows as [|r rows IH]; cbn in *; [done|].
  destruct (bool_decide (uuid r = alertId)) eqn:Hr.
  - cbn. by rewrite bool_decide_eq_true_2.
  - cbn. rewrite Hr. auto.
Qed.

Lemma updateAlert_RESOLVE_found alertId msg rows a :
  find_row alertId rows = Some a ->
  updateAlert alertId {| updateType := RESOLVE; params_resolutionMessage := msg |} rows
  = match status a with
    | OPEN =>
        transitioned alertId
          (set_resolutionMessage (set_status a RESOLVED) (stored_message msg)) rows
    | IGNORED => conflict "Alert is ignored and cannot be resolved." rows
    | RESOLVED => conflict "Alert is already resolved." rows
    end.
Proof. intros Hfind. run_update Hfind. by destruct (status a). Qed.

Lemma updateAlert_IGNORE_found alertId msg rows a :
  find_row alertId rows = Some a ->
  updateAlert alertId {| updateType := IGNORE; params_resolutionMessage := msg |} rows
  = match status a with
    | OPEN => transitioned alertId (set_status a IGNORED) rows
    | IGNORED => conflict "Alert is already being ignored." rows
    | RESOLVED => conflict "Alert is resolved and cannot be ignored." rows
    end.
Proof. intros Hfind. run_update Hfind. by destruct (status a). Qed.

Lemma updateAlert_UNIGNORE_found alertId msg rows a :
  find_row alertId rows = Some a ->
  updateAlert alertId {| updateType := UNIGNORE; params_resolutionMessage := msg |} rows
  = match status a with
    | IGNORED => transitioned alertId (set_status a OPEN) rows
    | _ => conflict "Alert is currently not ignored." rows
    end.
Proof. intros Hfind. run_update Hfind. by destruct (status a). Qed.

Lemma updateAlert_UNRESOLVE_found alertId msg rows a :
  find_row alertId rows = Some a ->
  updateAlert alertId {| updateType := UNRESOLVE; params_resolutionMessage := msg |} rows
  = match status a with
    | RESOLVED => transitioned alertId (set_status a OPEN) rows
    | _ => conflict "Alert is currently not resolved." rows
    end.
Proof. intros Hfind. run_update Hfind. by destruct (status a). Qed.

Lemma updateAlert_unrecognized alertId raw msg rows :
  updateAlert alertId
    {| updateType := UnrecognizedUpdateType raw; params_resolutionMessage := msg |} rows
  = (inl (Error500InternalServer "Unknown update type."), rows).
Proof. done. Qed.

(** C2 (as amended): [RESOLVE] is valid from OPEN only. From OPEN the alert
    moves to RESOLVED, its row is rewritten, and [resolutionMessage] is the
    input without its leading and trailing white space (Unicode white space
    and line terminators included), or null when no message, an empty or an
    all-whitespace message is given; from IGNORED the command is rejected
    with the conflict "Alert is ignored and cannot be resolved.", from
    RESOLVED with "Alert is already resolved.", and the table is left as it
    was. *)
Theorem updateAlert_resolve_from_open_only alertId msg rows a :
  find_row alertId rows = Some a ->
  let call := updateAlert alertId
                {| updateType := RESOLVE; params_resolutionMessage := msg |} rows in
  match status a with
  | OPEN =>
      exists a',
        call = (inr a', update_rows alertId a' rows)
        /\ find_row alertId (update_rows alertId a' rows) = Some a'
        /\ status a' = RESOLVED
        /\ resolutionMessage a' = stored_message msg
        /\ (msg = None -> resolutionMessage a' = None)
        /\ (forall s, msg = Some s ->
                      (resolutionMessage a' = None <-> white_space_only s))
        /\ (forall s, msg = Some s -> trim s <> "" ->
                      resolutionMessage a' = Some (trim s))
        /\ (forall s t, msg = Some s -> resolutionMessage a' = Some t ->
                        t <> "" /\ trimmed_of s t)
  | IGNORED =>
      call = (inl (Error409Conflict "Alert is ignored and cannot be resolved."), rows)
  | RESOLVED =>
      call = (inl (Error409Conflict "Alert is already resolved."), rows)
  end.
Proof.
  intros Hfind call. subst call. rewrite (updateAlert_RESOLVE_found _ _ _ _ Hfind).
  destruct (status a) eqn:Hst; [|done..].
  eexists. split; [reflexivity|].
  split; [apply (find_row_update _ _ a); [done|]; cbn; by eapply find_row_uuid|].
  cbn [status resolutionMessage set_status set_resolutionMessage].
  split; [done|]. split; [done|]. split; [by intros ->|].
  split; [|split].
  - intros s ->. cbn [stored_message]. split.
    + case_bool_decide as Ht; [|done]. intros _. by apply white_space_only_trim.
    + intros Hs. by rewrite (trim_white_space_only _ Hs).
  - intros s -> Hs. cbn [stored_message]. by rewrite bool_decide_eq_false_2.
  - intros s t ->. cbn [stored_message]. case_bool_decide as Ht; [done|].
    intros [= <-]. split; [done|]. apply trim_trimmed_of.
Qed.

Lemma updateAlert_resolve_from_open_only_witness :
  let a := sample_alert "a1" OPEN None 2 10 in
  let message := utf8_2 194 160 +:+ "  fixed in v2 " +:+ utf8_3 226 128 169 in
  find_row "a1" [a] = Some a
  /\ exists a',
       updateAlert "a1"
         {| updateType := RESOLVE; params_resolutionMessage := Some message |}
         [a] = (inr a', [a'])
       /\ status a' = RESOLVED /\ resolutionMessage a' = Some "fixed in v2".
Proof.
  intros a message. split; [reflexivity|].
  destruct (updateAlert_resolve_from_open_only "a1" (Some message) [a] a
              eq_refl) as (a' & Hcall & _ & Hst & Hmsg & _).
  exists a'. split; [|split]; [| exact Hst | exact Hmsg].
  rewrite Hcall. reflexivity.
Defined.

(** C2 (as stated) fails: an IGNORED alert is not resolved by [RESOLVE], the
    command is rejected with a conflict. *)
Lemma updateAlert_resolve_from_ignored_rejected :
  let a := sample_alert "a1" IGNORED None 2 10 in
  find_row "a1" [a] = Some a
  /\ status a = IGNORED
  /\ updateAlert "a1"
       {| updateType := RESOLVE; params_resolutionMessage := Some "fixed" |} [a]
     = (inl (Error409Conflict "Alert is ignored and cannot be resolved."), [a]).
Proof. by vm_compute. Qed.

(** C5: the lifecycle table of [IGNORE], [UNIGNORE] and [UNRESOLVE], and the
    unrecognized command. [IGNORE] succeeds only from OPEN, and the alert it
    returns and stores has status IGNORED; it raises the conflict "Alert is
    already being ignored." from IGNORED and "Alert is resolved and cannot be
    ignored." from RESOLVED. [UNIGNORE] succeeds only from IGNORED, and the
    alert it returns and stores has status OPEN; it raises "Alert is
    currently not ignored." otherwise. [UNRESOLVE] succeeds only from
    RESOLVED, and the alert it returns and stores has status OPEN; it raises
    "Alert is currently not resolved." otherwise. Any other command raises
    the internal error "Unknown update type." and changes nothing. A success
    changes the status and nothing else of the alert and rewrites its row; a
    conflict leaves the table as it was. *)
Theorem updateAlert_lifecycle_table alertId msg rows a :
  find_row alertId rows = Some a ->
  let run c := updateAlert alertId
                 {| updateType := c; params_resolutionMessage := msg |} rows in
  let succeeds c s :=
    exists a', run c = (inr a', update_rows alertId a' rows)
               /\ status a' = s
               /\ keeps_but_status a a'
               /\ find_row alertId (update_rows alertId a' rows) = Some a' in
  let conflicts c message := run c = (inl (Error409Conflict message), rows) in
  match status a with
  | OPEN =>
      succeeds IGNORE IGNORED
      /\ conflicts UNIGNORE "Alert is currently not ignored."
      /\ conflicts UNRESOLVE "Alert is currently not resolved."
  | IGNORED =>
      conflicts IGNORE "Alert is already being ignored."
      /\ succeeds UNIGNORE OPEN
      /\ conflicts UNRESOLVE "Alert is currently not resolved."
  | RESOLVED =>
      conflicts IGNORE "Alert is resolved and cannot be ignored."
      /\ conflicts UNIGNORE "Alert is currently not ignored."
      /\ succeeds UNRESOLVE OPEN
  end
  /\ (forall raw,
        run (UnrecognizedUpdateType raw)
        = (inl (Error500InternalServer "Unknown update type."), rows)).
Proof.
  intros Hfind run succeeds conflicts. subst run succeeds conflicts. cbn beta.
  rewrite (updateAlert_IGNORE_found _ _ _ _ Hfind),
    (updateAlert_UNIGNORE_found _ _ _ _ Hfind),
    (updateAlert_UNRESOLVE_found _ _ _ _ Hfind).
  assert (Hmoved : forall s,
    exists a', transitioned alertId (set_status a s) rows
               = (inr a', update_rows alertId a' rows)
               /\ status a' = s /\ keeps_but_status a a'
               /\ find_row alertId (update_rows alertId a' rows) = Some a').
  { intros s. exists (set_status a s). split; [done|]. split; [done|].
    split; [by repeat split|].
    apply (find_row_update _ _ a); [done|]. cbn. by eapply find_row_uuid. }
  split; [|done].
  destruct (status a); (split; [|split]); first [apply Hmoved | done].
Qed.

Lemma updateAlert_lifecycle_table_witness :
  let a := sample_alert "a1" OPEN None 2 10 in
  find_row "a1" [a] = Some a
  /\ (exists a',
        updateAlert "a1" {| updateType := IGNORE; params_resolutionMessage := None |} [a]
        = (inr a', [a'])
        /\ status a' = IGNORED /\ uuid a' = "a1" /\ riskScore a' = 2%Z)
  /\ updateAlert "a1" {| updateType := UNIGNORE; params_resolutionMessage := None |} [a]
     = (inl (Error409Conflict "Alert is currently not ignored."), [a]).
Proof.
  intros a. split; [reflexivity|].
  pose proof (updateAlert_lifecycle_table "a1" None [a] a eq_refl) as H.
  cbn [status sample_alert a] in H.
  destruct H as [((a' & Hrun & Hst & Hmoved & _) & Hunignore & _) _].
  split; [|exact Hunignore].
  exists a'. destruct Hmoved as (Hid & _ & Hscore & _).
  split; [|split; [exact Hst|split; [exact Hid|exact Hscore]]].
  rewrite Hrun. unfold update_rows. cbn. reflexivity.
Defined.

(** C4 (as amended): every successful [IGNORE], [UNIGNORE] and [RESOLVE]
    keeps the invariant "resolutionMessage is non-null only when the status
    is RESOLVED". A successful [UNRESOLVE] moves the alert from RESOLVED to
    OPEN and leaves [resolutionMessage] as it was, so the invariant holds
    afterwards exactly when the message was null before. *)
Theorem updateAlert_resolution_invariant alertId p rows a a' rows' :
  find_row alertId rows = Some a ->
  resolution_invariant a ->
  updateAlert alertId p rows = (inr a', rows') ->
  match updateType p with
  | UNRESOLVE =>
      status a = RESOLVED /\ status a' = OPEN
      /\ resolutionMessage a' = resolutionMessage a
      /\ (resolution_invariant a' <-> resolutionMessage a = None)
  | _ => resolution_invariant a'
  end.
Proof.
  intros Hfind Hinv. destruct p as [c msg]. cbn [updateType].
  destruct c.
  - rewrite (updateAlert_IGNORE_found _ _ _ _ Hfind).
    destruct (status a) eqn:Hst; intros [= <- <-]. unfold resolution_invariant in *.
    cbn. intros Hm. specialize (Hinv Hm). congruence.
  - rewrite (updateAlert_UNIGNORE_found _ _ _ _ Hfind).
    destruct (status a) eqn:Hst; intros [= <- <-]. unfold resolution_invariant in *.
    cbn. intros Hm. specialize (Hinv Hm). congruence.
  - rewrite (updateAlert_RESOLVE_found _ _ _ _ Hfind).
    destruct (status a) eqn:Hst; intros [= <- <-]. by intros _.
  - rewrite (updateAlert_UNRESOLVE_found _ _ _ _ Hfind).
    destruct (status a) eqn:Hst; intros [= <- <-].
    repeat split; unfold resolution_invariant; cbn.
    + intros H. destruct (resolutionMessage a); [|done].
      by discriminate H.
    + by intros ->.
  - by rewrite updateAlert_unrecognized.
Qed.

Lemma updateAlert_resolution_invariant_witness :
  let a := sample_alert "a1" OPEN None 2 10 in
  let p := {| updateType := RESOLVE; params_resolutionMessage := Some "patched" |} in
  let a' := set_resolutionMessage (set_status a RESOLVED) (Some "patched") in
  find_row "a1" [a] = Some a
  /\ resolution_invariant a
  /\ updateAlert "a1" p [a] = (inr a', [a'])
  /\ resolution_invariant a'.
Proof.
  intros a p a'.
  assert (Hinv : resolution_invariant a) by (intros H; by destruct H).
  split; [reflexivity|]. split; [exact Hinv|]. split; [reflexivity|].
  exact (updateAlert_resolution_invariant "a1" p [a] a a' [a'] eq_refl Hinv eq_refl).
Defined.

(** C4 (as stated) fails: a RESOLVED alert that carries a message satisfies
    the invariant; [UNRESOLVE] succeeds on it and returns an OPEN alert that
    still carries the message. *)
Lemma updateAlert_unresolve_keeps_message :
  let a := sample_alert "a1" RESOLVED (Some "fixed") 2 10 in
  exists a',
    resolution_invariant a
    /\ updateAlert "a1" {| updateType := UNRESOLVE; params_resolutionMessage := None |} [a]
       = (inr a', [a'])
    /\ status a' = OPEN
    /\ resolutionMessage a' = Some "fixed"
    /\ ~ resolution_invariant a'.
Proof.
  intros a. exists (set_status a OPEN).
  split; [by intros _|]. do 3 (split; [reflexivity|]).
  intros H. by discriminate H.
Qed.

(** C9 (as amended): when no alert has the given id, each of the four named
    commands reads the status of the null lookup result and fails with a
    type error, neither a conflict nor an internal error; an unrecognized
    command never reads the alert and raises the internal error "Unknown
    update type.". Nothing is written in either case. *)
Theorem updateAlert_missing_alert alertId p rows :
  find_row alertId rows = None ->
  updateAlert alertId p rows =
  match updateType p with
  | IGNORE | UNIGNORE | RESOLVE | UNRESOLVE =>
      (inl (TypeError "Cannot read properties of null (reading 'status')"), rows)
  | UnrecognizedUpdateType _ =>
      (inl (Error500InternalServer "Unknown update type."), rows)
  end.
Proof.
  intros Hfind. destruct p as [c msg]. run_update Hfind. by destruct c.
Qed.

Lemma updateAlert_missing_alert_witness :
  find_row "a2" [sample_alert "a1" OPEN None 2 10] = None
  /\ updateAlert "a2" {| updateType := IGNORE; params_resolutionMessage := None |}
       [sample_alert "a1" OPEN None 2 10]
     = (inl (TypeError "Cannot read properties of null (reading 'status')"),
        [sample_alert "a1" OPEN None 2 10]).
Proof.
  split; [reflexivity|].
  exact (updateAlert_missing_alert "a2"
           {| updateType := IGNORE; params_resolutionMessage := None |}
           [sample_alert "a1" OPEN None 2 10] eq_refl).
Defined.

(** C9 (as stated) fails: with no alert of that id and an unrecognized
    command, the call raises the internal error and reads no status. *)
Lemma updateAlert_missing_alert_unrecognized :
  find_row "a2" [sample_alert "a1" OPEN None 2 10] = None
  /\ updateAlert "a2"
       {| updateType := UnrecognizedUpdateType "ARCHIVE";
          params_resolutionMessage := None |}
       [sample_alert "a1" OPEN None 2 10]
     = (inl (Error500InternalServer "Unknown update type."),
        [sample_alert "a1" OPEN None 2 10]).
Proof. by vm_compute. Qed.

(** ** Listing alerts *)

Ltac case_compare :=
  match goal with
  | |- context [Z.compare ?x ?y] => destruct (Z.compare_spec x y)
  end.

Section QueryOrder.

Variable status_rank : Status -> Z.
Variable tie_rank : option nat -> option nat -> Alert -> Z.

Lemma order_compare_trans o a b c :
  order_compare status_rank o a b <> Gt ->
  order_compare status_rank o b c <> Gt ->
  order_compare status_rank o a c <> Gt.
Proof.
  induction o as [|[col d] o IH]; cbn; [done|].
  destruct col; cbn; repeat case_compare; destruct d; cbn; try done; try lia; auto.
Qed.

Lemma order_compare_total o a b :
  order_compare status_rank o a b <> Gt \/ order_compare status_rank o b a <> Gt.
Proof.
  induction o as [|[col d] o IH]; cbn; [by left|].
  destruct col; cbn; repeat case_compare; destruct d; cbn; try lia; auto.
Qed.

Lemma order_le_alt o a b :
  order_le status_rank o a b <-> order_compare status_rank o a b <> Gt.
Proof. unfold order_le, order_leb. by destruct (order_compare _ _ _ _). Qed.

#[local] Instance order_le_trans o : Transitive (order_le status_rank o).
Proof. intros a b c. rewrite !order_le_alt. apply order_compare_trans. Qed.

#[local] Instance order_le_total o : Total (order_le status_rank o).
Proof. intros a b. rewrite !order_le_alt. apply order_compare_total. Qed.

Lemma StronglySorted_sublist {A} (R : relation A) (l k : list A) :
  l `sublist_of` k -> StronglySorted R k -> StronglySorted R l.
Proof.
  induction 1 as [|x l k Hsub IH|x l k Hsub IH]; intros Hk; [done|..].
  - apply StronglySorted_inv in Hk as [Hk Hx]. constructor; [auto|].
    eapply Forall_forall. intros y Hy. eapply Forall_forall in Hx; [done|].
    by eapply sublist_subseteq.
  - apply StronglySorted_inv in Hk as [Hk _]. auto.
Qed.

Lemma StronglySorted_lookup {A} (R : relation A) (l : list A) i j a b :
  StronglySorted R l -> (i < j)%nat -> l !! i = Some a -> l !! j = Some b -> R a b.
Proof.
  intros Hl. revert i j. induction Hl as [|x l Hl IH Hx]; intros i j Hij Hi Hj; [done|].
  destruct j as [|j]; [lia|]. destruct i as [|i]; cbn in *.
  - injection Hi as <-. eapply Forall_forall in Hx; [done|].
    by eapply list_elem_of_lookup_2.
  - eapply (IH i j); [lia|done..].
Qed.

Lemma listing_le_order_le skip take_ o a b :
  listing_le status_rank tie_rank skip take_ o a b -> order_le status_rank o a b.
Proof.
  unfold listing_le, listing_leb, order_le, order_leb.
  by destruct (order_compare _ _ _ _).
Qed.

#[local] Instance listing_le_trans skip take_ o :
  Transitive (listing_le status_rank tie_rank skip take_ o).
Proof.
  intros a b c. unfold listing_le, listing_leb.
  induction o as [|[col d] o IH]; cbn [order_compare]; [lia|].
  destruct col; cbn [column_compare]; repeat case_compare; destruct d;
    cbn [CompOpp]; try done; try lia; auto.
Qed.

#[local] Instance listing_le_total skip take_ o :
  Total (listing_le status_rank tie_rank skip take_ o).
Proof.
  intros a b. unfold listing_le, listing_leb.
  induction o as [|[col d] o IH]; cbn [order_compare]; [lia|].
  destruct col; cbn [column_compare]; repeat case_compare; destruct d;
    cbn [CompOpp]; try lia; auto.
Qed.

Lemma StronglySorted_weaken {A} (R R' : relation A) (l : list A) :
  (forall x y, R x y -> R' x y) -> StronglySorted R l -> StronglySorted R' l.
Proof.
  intros HR. induction 1 as [|x l Hl IH Hx]; constructor; [done|].
  eapply Forall_impl; [done|]. auto.
Qed.

Lemma findAndCount_sorted db w skip take_ o :
  StronglySorted (order_le status_rank o)
    (fst (findAndCount status_rank tie_rank db w skip take_ o)).
Proof.
  unfold findAndCount. cbn [fst].
  set (sorted := merge_sort _ _).
  assert (Hs : StronglySorted (order_le status_rank o) sorted).
  { apply (StronglySorted_weaken (listing_le status_rank tie_rank skip take_ o));
      [apply listing_le_order_le|].
    apply StronglySorted_merge_sort; apply _. }
  assert (Hd : StronglySorted (order_le status_rank o)
                 (match skip with Some n => drop n sorted | None => sorted end)).
  { destruct skip; [|done]. eapply StronglySorted_sublist; [apply sublist_drop|done]. }
  destruct take_; [|done]. eapply StronglySorted_sublist; [apply sublist_take|done].
Qed.

(** The listing is sorted by the order object [getAlerts] builds: status
    first, then risk score, then creation time. *)
Lemma getAlerts_sorted db alertParams :
  StronglySorted
    (order_le status_rank
       [(col_status, DESC);
        (col_riskScore, default DESC (alertParams ≫= order));
        (col_createdAt, DESC)])
    (fst (getAlerts status_rank tie_rank db alertParams)).
Proof.
  unfold getAlerts.
  destruct (alertParams ≫= order); apply findAndCount_sorted.
Qed.

End QueryOrder.

(** On a data source, a call without filters or paging lists all rows. *)
Lemma getAlerts_no_filter_Permutation status_rank tie_rank db o :
  fst (getAlerts status_rank tie_rank db (Some (no_filter o))) ≡ₚ alert_rows db.
Proof.
  unfold getAlerts, findAndCount. cbn [fst].
  destruct o; cbn; rewrite merge_sort_Permutation;
    (induction (alert_rows db) as [|r rows IH]; [done|]; cbn; by f_equiv).
Qed.

(** Two rows of different status come out in the order of their statuses,
    whatever their risk scores and whatever direction the caller asks for. *)
Lemma getAlerts_status_overrides_risk status_rank tie_rank a b o :
  (status_rank (status b) < status_rank (status a))%Z ->
  fst (getAlerts status_rank tie_rank {| alert_rows := [b; a]; endpoint_rows := [] |}
         (Some (no_filter o))) = [a; b].
Proof.
  intros Hrank.
  pose proof (getAlerts_no_filter_Permutation status_rank tie_rank
                {| alert_rows := [b; a]; endpoint_rows := [] |} o) as Hperm.
  pose proof (getAlerts_sorted status_rank tie_rank
                {| alert_rows := [b; a]; endpoint_rows := [] |}
                (Some (no_filter o))) as Hsorted.
  cbn [alert_rows] in Hperm. symmetry in Hperm.
  apply Permutation_length_2_inv in Hperm as [Heq|Heq]; [|done].
  rewrite Heq in Hsorted.
  apply StronglySorted_inv in Hsorted as [_ Hb].
  apply Forall_cons in Hb as [Hb _].
  unfold order_le, order_leb in Hb. cbn in Hb.
  destruct (Z.compare_spec (status_rank (status b)) (status_rank (status a)));
    [lia | done | lia].
Qed.

(** C3 (as amended): the listing is ordered by status descending first, by
    risk score in the caller's direction (descending when none is given)
    among alerts of equal status, and by creation time descending among
    alerts of equal status and risk score. *)
Theorem getAlerts_order_status_first status_rank tie_rank db alertParams
    (i j : nat) (a b : Alert) :
  (i < j)%nat ->
  fst (getAlerts status_rank tie_rank db alertParams) !! i = Some a ->
  fst (getAlerts status_rank tie_rank db alertParams) !! j = Some b ->
  (status_rank (status b) <= status_rank (status a))%Z
  /\ (status_rank (status a) = status_rank (status b) ->
      match default DESC (alertParams ≫= order) with
      | DESC => (riskScore b <= riskScore a)%Z
      | ASC => (riskScore a <= riskScore b)%Z
      end)
  /\ (status_rank (status a) = status_rank (status b) ->
      riskScore a = riskScore b ->
      (createdAt b <= createdAt a)%Z).
Proof.
  intros Hij Hi Hj.
  pose proof (StronglySorted_lookup _ _ _ _ _ _
                (getAlerts_sorted status_rank tie_rank db alertParams) Hij Hi Hj) as Hle.
  unfold order_le, order_leb in Hle. cbn in Hle.
  destruct (default DESC (alertParams ≫= order));
    repeat match type of Hle with
           | context [Z.compare ?x ?y] => destruct (Z.compare_spec x y); cbn in Hle
           end; try done; repeat split; intros; lia.
Qed.

Lemma getAlerts_order_status_first_witness :
  let x := sample_alert "a1" OPEN None 1 10 in
  let y := sample_alert "a2" RESOLVED None 3 20 in
  let db := {| alert_rows := [y; x]; endpoint_rows := [] |} in
  fst (getAlerts sample_status_rank sample_tie_rank db None) = [x; y]
  /\ (sample_status_rank (status y) <= sample_status_rank (status x))%Z.
Proof.
  intros x y db. split; [by vm_compute|].
  exact (proj1 (getAlerts_order_status_first sample_status_rank sample_tie_rank db None 0 1 x y
                  ltac:(lia) eq_refl eq_refl)).
Defined.

(** C3 (as stated) fails: an OPEN alert of risk score 1 is listed before a
    RESOLVED alert of risk score 3 although the direction is descending. *)
Lemma getAlerts_risk_score_not_primary :
  let x := sample_alert "a1" OPEN None 1 10 in
  let y := sample_alert "a2" RESOLVED None 3 20 in
  let db := {| alert_rows := [y; x]; endpoint_rows := [] |} in
  fst (getAlerts sample_status_rank sample_tie_rank db None) = [x; y]
  /\ ~ risk_score_decides DESC (fst (getAlerts sample_status_rank sample_tie_rank db None)).
Proof.
  intros x y db.
  assert (Hl : fst (getAlerts sample_status_rank sample_tie_rank db None) = [x; y]) by by vm_compute.
  split; [done|]. rewrite Hl. intros Hclaim.
  specialize (Hclaim 0%nat 1%nat x y ltac:(lia) eq_refl eq_refl ltac:(done)).
  cbn in Hclaim. lia.
Qed.

(** ** Alert factories *)

Ltac mrun :=
  unfold push, try_catch, with_local, on_local, on_shared, on_array, new_array,
    bind, ret, throw, get, modify, await in *;
  cbn [fst snd] in *.

Lemma for_of_app {S A} (xs ys : list A) (body : A -> M S unit) s :
  for_of (xs ++ ys) body s
  = match for_of xs body s with
    | (inr _, s') => for_of ys body s'
    | (inl err, s') => (inl err, s')
    end.
Proof.
  revert s. induction xs as [|x xs IH]; intros s; cbn; [done|].
  unfold bind. destruct (body x s) as [[err|[]] s']; [done|]. apply IH.
Qed.

Section DedupOnTable.

Variable ALERT_TYPE_TO_RISK_SCORE : AlertType -> Z.
Variable DATA_SECTION_TO_LABEL_MAP : DataSection -> string.
Variable getPathTokens : string -> list string.
Variable db : DataSource.

#[local] Abbreviation policy := (batch_or_store_policy ALERT_TYPE_TO_RISK_SCORE db).
#[local] Abbreviation draft := (draft_of ALERT_TYPE_TO_RISK_SCORE).

(** The lookup of [existingUnresolvedAlert] on a table finds a row exactly
    when a persisted alert has the key and is not RESOLVED. *)
Lemma existingUnresolvedAlert_table f :
  existingUnresolvedAlert (table_findOneBy db)
    (finding_uuid f) (finding_type f) (finding_description f)
  = inr (List.find
           (fun a => bool_decide (apiEndpointUuid a = finding_uuid f)
                     && bool_decide (type a = finding_type f)
                     && bool_decide (description a = finding_description f)
                     && bool_decide (status a <> RESOLVED))
           (alert_rows db)).
Proof.
  unfold existingUnresolvedAlert, table_findOneBy. f_equal.
  induction (alert_rows db) as [|r rows IH]; cbn; [done|].
  rewrite IH. unfold where_matches. cbn.
  repeat case_bool_decide; cbn; try done.
Qed.

Ltac rewrite_lookup f :=
  let H := fresh "Hlookup" in
  pose proof (existingUnresolvedAlert_table f) as H;
  cbn [finding_uuid finding_type finding_description
       missingHSTS_finding specDiff_finding basic_auth_finding
       finding_of_alertToAdd] in H;
  rewrite H; clear H.

Lemma find_existsb {A} (p : A -> bool) (l : list A) :
  match List.find p l with Some _ => true | None => false end = existsb p l.
Proof. induction l as [|x l IH]; cbn; [done|]. by destruct (p x). Qed.

Lemma persisted_unresolved_spec f :
  persisted_unresolved db f = true <->
  exists a, a ∈ alert_rows db
            /\ apiEndpointUuid a = finding_uuid f /\ type a = finding_type f
            /\ description a = finding_description f /\ status a <> RESOLVED.
Proof.
  unfold persisted_unresolved. rewrite existsb_exists. split.
  - intros (a & Hin & H). exists a. rewrite list_elem_of_In.
    repeat (apply andb_true_iff in H as [H ?]).
    repeat match goal with H : bool_decide _ = true |- _ =>
             apply bool_decide_eq_true in H end.
    done.
  - intros (a & Hin & H1 & H2 & H3 & H4). exists a.
    rewrite <- list_elem_of_In. split; [done|].
    by rewrite !andb_true_iff, !bool_decide_eq_true.
Qed.

(** One finding against the batch: the step both loops of
    [createDataFieldAlerts] make. *)
Lemma existing_draft_or_unresolved_table f batch :
  existing_draft_or_unresolved (table_findOneBy db)
    (finding_uuid f) (finding_type f) (finding_description f) batch
  = (inr (drafted batch f || persisted_unresolved db f), batch).
Proof.
  unfold existing_draft_or_unresolved. mrun.
  unfold existingDataFieldAlert, drafted.
  destruct (existsb _ batch); [done|].
  rewrite existingUnresolvedAlert_table. cbn.
  by rewrite find_existsb.
Qed.

Lemma scan_requestHeaders_found uuid_ apiTrace hs batch :
  scan_requestHeaders ALERT_TYPE_TO_RISK_SCORE (table_findOneBy db)
    uuid_ apiTrace hs true batch = (inr tt, batch).
Proof. by destruct hs. Qed.

Lemma scan_requestHeaders_table uuid_ apiTrace hs batch :
  scan_requestHeaders ALERT_TYPE_TO_RISK_SCORE (table_findOneBy db)
    uuid_ apiTrace hs false batch
  = (inr tt,
     policy batch (if existsb is_basic_auth_header hs
                   then [basic_auth_finding uuid_ apiTrace] else [])).
Proof.
  induction hs as [|header hs IH]; [done|].
  cbn [scan_requestHeaders existsb]. fold (is_basic_auth_header header).
  destruct (is_basic_auth_header header); cbn [orb]; [|apply IH].
  unfold bind at 1.
  rewrite (existing_draft_or_unresolved_table (basic_auth_finding uuid_ apiTrace)).
  cbn [batch_or_store_policy].
  destruct (_ || _); unfold bind, ret, push, modify;
    by rewrite scan_requestHeaders_found.
Qed.

Lemma policy_app batch fs gs :
  policy batch (fs ++ gs) = policy (policy batch fs) gs.
Proof. revert batch. induction fs as [|f fs IH]; intros batch; cbn; auto. Qed.

Lemma alertsToAdd_table uuid_ (adds : list AlertToAdd) batch :
  for_of adds
    (fun alert =>
       existing <- existing_draft_or_unresolved (table_findOneBy db) uuid_
                     (add_type alert) (add_description alert) ;;
       if existing then ret tt
       else push (newAlert ALERT_TYPE_TO_RISK_SCORE (add_type alert) uuid_
                    (add_context alert) (add_description alert))) batch
  = (inr tt, policy batch (finding_of_alertToAdd uuid_ <$> adds)).
Proof.
  revert batch. induction adds as [|alert adds IH]; intros batch; [done|].
  cbn [for_of fmap list_fmap batch_or_store_policy]. unfold bind at 1 2.
  rewrite (existing_draft_or_unresolved_table (finding_of_alertToAdd uuid_ alert)).
  destruct (_ || _); unfold ret, push, modify; apply IH.
Qed.

Lemma dataField_alerts_table uuid_ path_ apiTrace dataField batch :
  dataField_alerts ALERT_TYPE_TO_RISK_SCORE DATA_SECTION_TO_LABEL_MAP getPathTokens
    (table_findOneBy db) uuid_ path_ apiTrace dataField batch
  = (inr tt,
     policy batch
       (dataField_findings DATA_SECTION_TO_LABEL_MAP getPathTokens
          uuid_ path_ apiTrace dataField)).
Proof.
  unfold dataField_alerts, dataField_findings. rewrite policy_app.
  unfold bind at 1.
  set (scan := if bool_decide (dataSection dataField = REQUEST_HEADER) then _ else _).
  assert (Hscan : scan batch
                  = (inr tt,
                     policy batch
                       (if bool_decide (dataSection dataField = REQUEST_HEADER) then
                          match apiTrace ≫= requestHeaders with
                          | Some hs =>
                              if existsb is_basic_auth_header hs
                              then [basic_auth_finding uuid_ apiTrace] else []
                          | None => []
                          end
                        else []))).
  { subst scan. destruct (bool_decide _); [|done].
    destruct (apiTrace ≫= requestHeaders); [|done].
    apply scan_requestHeaders_table. }
  rewrite Hscan. clear Hscan scan.
  generalize (policy batch
    (if bool_decide (dataSection dataField = REQUEST_HEADER) then
       match apiTrace ≫= requestHeaders with
       | Some hs => if existsb is_basic_auth_header hs
                    then [basic_auth_finding uuid_ apiTrace] else []
       | None => []
       end
     else [])) as batch'.
  destruct (dataClasses dataField) as [classes|]; [|done].
  induction classes as [|dataClass classes IH]; intros batch'; [done|].
  cbn [for_of fmap list_fmap concat]. unfold bind at 1.
  rewrite alertsToAdd_table, policy_app. apply IH.
Qed.

(** The loop of [createDataFieldAlerts] on a table follows the policy of
    the specification over the findings of the data fields. *)
Lemma dataFields_loop_table uuid_ path_ apiTrace dataFields_ batch :
  for_of dataFields_
    (dataField_alerts ALERT_TYPE_TO_RISK_SCORE DATA_SECTION_TO_LABEL_MAP
       getPathTokens (table_findOneBy db) uuid_ path_ apiTrace) batch
  = (inr tt,
     policy batch
       (concat (dataField_findings DATA_SECTION_TO_LABEL_MAP getPathTokens
                  uuid_ path_ apiTrace <$> dataFields_))).
Proof.
  revert batch. induction dataFields_ as [|dataField dfs IH]; intros batch; [done|].
  cbn [for_of fmap list_fmap concat]. unfold bind at 1.
  rewrite dataField_alerts_table, policy_app. apply IH.
Qed.

#[local] Abbreviation store_only := (store_policy ALERT_TYPE_TO_RISK_SCORE db).

Lemma store_policy_cons f fs :
  store_only (f :: fs)
  = (if persisted_unresolved db f then [] else [draft f]) ++ store_only fs.
Proof. unfold store_policy. cbn. by destruct (persisted_unresolved db f). Qed.

Lemma store_policy_app fs gs :
  store_only (fs ++ gs) = store_only fs ++ store_only gs.
Proof. unfold store_policy. by rewrite List.filter_app, fmap_app. Qed.

Lemma missingHSTS_alert_table {S} alertProp acc (s : S) :
  missingHSTS_alert ALERT_TYPE_TO_RISK_SCORE (table_findOneBy db) alertProp (acc, s)
  = (inr tt, (acc ++ store_only [missingHSTS_finding alertProp], s)).
Proof.
  destruct alertProp as [[endpoint trace] description_].
  unfold missingHSTS_alert. mrun.
  rewrite_lookup (missingHSTS_finding (endpoint, trace, description_)).
  rewrite store_policy_cons. unfold persisted_unresolved.
  rewrite <- find_existsb.
  cbn [finding_uuid finding_type finding_description
       missingHSTS_finding specDiff_finding].
  destruct (List.find _ _); cbn; [by rewrite app_nil_r|done].
Qed.

Lemma missingHSTS_loop_table {S} alertProps acc (s : S) :
  for_of alertProps
    (missingHSTS_alert ALERT_TYPE_TO_RISK_SCORE (table_findOneBy db)) (acc, s)
  = (inr tt, (acc ++ store_only (missingHSTS_finding <$> alertProps), s)).
Proof.
  revert acc. induction alertProps as [|p ps IH]; intros acc.
  - cbn. by rewrite app_nil_r.
  - cbn [for_of fmap list_fmap]. unfold bind.
    rewrite missingHSTS_alert_table, IH, <- app_assoc.
    by rewrite <- store_policy_app.
Qed.

(** On a table, [createMissingHSTSAlert] drafts the findings that no
    persisted unresolved alert matches, and consults nothing else. *)
Lemma createMissingHSTSAlert_table {S} alertProps (s : S) :
  createMissingHSTSAlert ALERT_TYPE_TO_RISK_SCORE (table_findOneBy db)
    (Some alertProps) s
  = (inr (store_only (missingHSTS_finding <$> alertProps)), s).
Proof.
  unfold createMissingHSTSAlert, createMissingHSTSAlert_try. mrun.
  by rewrite missingHSTS_loop_table.
Qed.

Section SpecDiff.

Variable jsonMap_parse : string -> exn + (string -> option Z).
Variable yaml_load : string -> exn + (list string -> option Z).
Variable queryRunner_update : string -> gmap string CacheEntry -> exn + unit.

Lemma specDiff_alert_table uuid_ apiTrace openApiSpec item acc st acc' st' :
  specDiff_alert ALERT_TYPE_TO_RISK_SCORE (table_findOneBy db) jsonMap_parse
    yaml_load queryRunner_update uuid_ apiTrace openApiSpec item (acc, st)
  = (inr tt, (acc', st')) ->
  acc' = acc ++ store_only [specDiff_finding uuid_ apiTrace item].
Proof.
  unfold specDiff_alert. mrun.
  rewrite_lookup (specDiff_finding uuid_ apiTrace item).
  rewrite store_policy_cons. unfold persisted_unresolved.
rewrite <- find_existsb.
cbn [finding_uuid finding_type finding_description
     missingHSTS_finding specDiff_finding].
  destruct (List.find _ _); unfold store_policy;
    cbn [List.filter fmap list_fmap app].
  - destruct (queryRunner_update _ _); intros [= <- <-]. by rewrite app_nil_r.
  - destruct (locate_in_spec _ _ _ _ _ _) as [[err|[]] st1]; [done|].
    cbn [fst snd]. destruct (queryRunner_update _ _); by intros [= <- <-].
Qed.

Lemma specDiff_loop_table uuid_ apiTrace openApiSpec items acc st acc' st' :
  for_of items
    (specDiff_alert ALERT_TYPE_TO_RISK_SCORE (table_findOneBy db) jsonMap_parse
       yaml_load queryRunner_update uuid_ apiTrace openApiSpec) (acc, st)
  = (inr tt, (acc', st')) ->
  acc' = acc ++ store_only (specDiff_finding uuid_ apiTrace <$> items).
Proof.
  revert acc st. induction items as [|item items IH]; intros acc st.
  - cbn. intros [= <- <-]. by rewrite app_nil_r.
  - cbn [for_of fmap list_fmap]. unfold bind.
    destruct (specDiff_alert _ _ _ _ _ _ _ _ _ _) as [[err|[]] [acc1 st1]] eqn:Hstep;
      [done|].
    intros Hrest. apply specDiff_alert_table in Hstep. apply IH in Hrest.
    subst. rewrite <- app_assoc.
    by rewrite <- store_policy_app.
Qed.

(** On a table, a run of [createSpecDiffAlerts] whose [try] block
    completes drafts the findings that no persisted unresolved alert
    matches. *)
Lemma createSpecDiffAlerts_table uuid_ apiTrace openApiSpec items st alerts st' :
  createSpecDiffAlerts_try ALERT_TYPE_TO_RISK_SCORE (table_findOneBy db)
    jsonMap_parse yaml_load queryRunner_update (Some items) uuid_ apiTrace
    openApiSpec st = (inr alerts, st') ->
  alerts = store_only (specDiff_finding uuid_ apiTrace <$> items).
Proof.
  unfold createSpecDiffAlerts_try.
  case_bool_decide as Hlen.
  - destruct items; [|done]. by intros [= <- <-].
  - mrun.
    destruct (for_of _ _ _) as [[err|[]] [acc1 st1]] eqn:Hloop; [done|].
    intros [= <- <-]. by apply specDiff_loop_table in Hloop.
Qed.

End SpecDiff.

End DedupOnTable.

Lemma new_array_lookup init (h : Heap) :
  (h ++ [init]) !! length h = Some init.
Proof. by rewrite lookup_app_r, Nat.sub_diag. Qed.

(** The result of [createDataFieldAlerts] in terms of its loop: the loop
    runs on the array behind [sensitiveDataAlerts], or on a fresh array. *)
Lemma createDataFieldAlerts_run risk label tokens findOneBy
    dfs uuid_ path_ apiTrace sda (h : Heap) init :
  match sda with Some a => h !! a = Some init | None => init = [] end ->
  let loop := for_of dfs (dataField_alerts risk label tokens findOneBy
                            uuid_ path_ apiTrace) init in
  let alerts := match sda with Some a => a | None => length h end in
  let h1 := match sda with Some _ => h | None => h ++ [[]] end in
  createDataFieldAlerts risk label tokens findOneBy (Some dfs) uuid_ path_ apiTrace sda h
  = match fst loop with
    | inr _ => (inr alerts, <[alerts := snd loop]> h1)
    | inl _ =>
        (inr (length h1), <[alerts := snd loop]> h1 ++ [[]])
    end
  /\ (<[alerts := snd loop]> h1) !! alerts = Some (snd loop)
  /\ (alerts < length h1)%nat.
Proof.
  intros Hinit loop alerts h1.
  unfold createDataFieldAlerts, createDataFieldAlerts_try. mrun.
  unfold Heap, loc in *. destruct sda as [a|].
  - rewrite Hinit. cbn [from_option id]. subst loop alerts h1.
    assert (a < length h)%nat by by eapply lookup_lt_Some.
    destruct (for_of _ _ _) as [[err|[]] arr]; cbn [fst snd];
      (split; [|split]); rewrite ?length_insert; try done;
      by apply list_lookup_insert_eq.
  - subst init. rewrite new_array_lookup. cbn [from_option id]. subst loop alerts h1.
    assert (length h < length (h ++ [[]]))%nat by (rewrite length_app; cbn; lia).
    destruct (for_of _ _ _) as [[err|[]] arr]; cbn [fst snd];
      (split; [|split]); rewrite ?length_insert; try done;
      by apply list_lookup_insert_eq.
Qed.

(** On a table, the array [createDataFieldAlerts] returns holds what the
    policy of the specification makes of the batch handed in. *)
Lemma createDataFieldAlerts_table risk label tokens (db : DataSource)
    dfs uuid_ path_ apiTrace sda (h : Heap) init :
  match sda with Some a => h !! a = Some init | None => init = [] end ->
  exists l h',
    createDataFieldAlerts risk label tokens (table_findOneBy db)
      (Some dfs) uuid_ path_ apiTrace sda h = (inr l, h')
    /\ h' !! l
       = Some (batch_or_store_policy risk db init
                 (concat (dataField_findings label tokens uuid_ path_ apiTrace
                            <$> dfs))).
Proof.
  intros Hinit.
  destruct (createDataFieldAlerts_run risk label tokens (table_findOneBy db)
              dfs uuid_ path_ apiTrace sda h init Hinit) as (Hrun & Hlook & _).
  rewrite dataFields_loop_table in Hrun, Hlook. cbn [fst snd] in Hrun, Hlook.
  eauto.
Qed.

(** C1 (as amended): [createDataFieldAlerts] suppresses a finding exactly
    when a draft with its endpoint and description already sits in the batch
    or a persisted alert with its key and a status other than RESOLVED
    exists; [createSpecDiffAlerts] and [createMissingHSTSAlert] suppress a
    finding exactly when such a persisted alert exists and do not consult
    the batch. In all three a persisted match that is RESOLVED suppresses
    nothing. (On a data source that answers its lookups; a spec-diff batch
    whose [try] block is left by a throw is empty.) *)
Theorem batch_construction_dedup risk label tokens (db : DataSource) :
  (forall dfs uuid_ path_ apiTrace sda (h : Heap) init,
     match sda with Some a => h !! a = Some init | None => init = [] end ->
     exists l h',
       createDataFieldAlerts risk label tokens (table_findOneBy db)
         (Some dfs) uuid_ path_ apiTrace sda h = (inr l, h')
       /\ h' !! l
          = Some (batch_or_store_policy risk db init
                    (concat (dataField_findings label tokens uuid_ path_ apiTrace
                               <$> dfs))))
  /\ (forall jsonMap_parse yaml_load queryRunner_update items uuid_ apiTrace
             openApiSpec st,
        exists alerts st',
          createSpecDiffAlerts risk (table_findOneBy db) jsonMap_parse yaml_load
            queryRunner_update (Some items) uuid_ apiTrace openApiSpec st
          = (inr alerts, st')
          /\ (alerts = store_policy risk db (specDiff_finding uuid_ apiTrace <$> items)
              \/ alerts = []
                 /\ exists err,
                      fst (createSpecDiffAlerts_try risk (table_findOneBy db)
                             jsonMap_parse yaml_load queryRunner_update (Some items)
                             uuid_ apiTrace openApiSpec st) = inl err))
  /\ (forall alertProps,
        createMissingHSTSAlert risk (table_findOneBy db) (Some alertProps) tt
        = (inr (store_policy risk db (missingHSTS_finding <$> alertProps)), tt))
  /\ (forall f,
        persisted_unresolved db f = true <->
        exists a, a ∈ alert_rows db
                  /\ apiEndpointUuid a = finding_uuid f /\ type a = finding_type f
                  /\ description a = finding_description f /\ status a <> RESOLVED).
Proof.
  split; [|split; [|split]].
  - intros dfs uuid_ path_ apiTrace sda h init Hinit.
    by apply createDataFieldAlerts_table.
  - intros jsonMap_parse yaml_load queryRunner_update items uuid_ apiTrace
      openApiSpec st.
    unfold createSpecDiffAlerts, try_catch.
    destruct (createSpecDiffAlerts_try _ _ _ _ _ _ _ _ _ _) as [[err|alerts] st1] eqn:Htry.
    + do 2 eexists. split; [reflexivity|]. right. eauto.
    + do 2 eexists. split; [reflexivity|]. left.
      by eapply createSpecDiffAlerts_table.
  - intros alertProps. apply createMissingHSTSAlert_table.
  - apply persisted_unresolved_spec.
Qed.

Lemma batch_construction_dedup_witness :
  let dataField := {| dataSection := REQUEST_QUERY; dataPath := "email";
                      dataClasses := Some ["Email"; "Email"] |} in
  let resolved :=
    {| uuid := "a1"; type := PII_DATA_DETECTED; riskScore := 3; status := RESOLVED;
       description :=
         "Sensitive data of type Email has been detected in field 'email' of Request Query.";
       context := ctx_undefined; resolutionMessage := None;
       apiEndpointUuid := "endpoint-1"; createdAt := 1; updatedAt := 2 |} in
  let db := {| alert_rows := [resolved]; endpoint_rows := [] |} in
  exists l h',
    createDataFieldAlerts sample_risk_score sample_section_label sample_path_tokens
      (table_findOneBy db) (Some [dataField]) "endpoint-1" "/search"
      (Some sample_trace) None [] = (inr l, h')
    /\ fmap (M:=option) (fmap (M:=list) type) (h' !! l)
       = Some [PII_DATA_DETECTED; QUERY_SENSITIVE_DATA].
Proof.
  intros dataField resolved db.
  destruct (proj1 (batch_construction_dedup sample_risk_score sample_section_label
                     sample_path_tokens db)
              [dataField] "endpoint-1" "/search" (Some sample_trace) None [] []
              eq_refl) as (l & h' & Hrun & Hlook).
  exists l, h'. split; [exact Hrun|]. rewrite Hlook. reflexivity.
Defined.

(** C1 (as stated) fails for [createMissingHSTSAlert]: handed the same
    finding twice, with nothing persisted, it drafts it twice, although the
    first draft sits in the batch when the second finding is considered. *)
Lemma createMissingHSTSAlert_repeats_in_batch :
  let p := (sample_endpoint, sample_trace, "Found endpoint possibly missing SSL on /users") in
  let f := missingHSTS_finding p in
  let d := draft_of sample_risk_score f in
  createMissingHSTSAlert sample_risk_score (table_findOneBy empty_source)
    (Some [p; p]) tt = (inr [d; d], tt)
  /\ drafted [d] f = true
  /\ batch_or_store_policy sample_risk_score empty_source [] [f; f] = [d].
Proof. by vm_compute. Qed.

(** ** Failures during a batch *)

Section Appends.

Variable ALERT_TYPE_TO_RISK_SCORE : AlertType -> Z.
Variable DATA_SECTION_TO_LABEL_MAP : DataSection -> string.
Variable getPathTokens : string -> list string.
Variable findOneBy : FindOptionsWhere -> exn + option Alert.

Lemma appends_ret {A} (a : A) : appends_only (ret a).
Proof. intros batch. exists []. cbn. by rewrite app_nil_r. Qed.

Lemma appends_push a : appends_only (push a).
Proof. intros batch. by exists [a]. Qed.

Lemma appends_bind {A B} (c : M (list Alert) A) (k : A -> M (list Alert) B) :
  appends_only c -> (forall a, appends_only (k a)) -> appends_only (x <- c ;; k x).
Proof.
  intros Hc Hk batch. unfold bind.
  destruct (Hc batch) as [app1 H1]. destruct (c batch) as [[err|a] s1]; cbn in *.
  - by exists app1.
  - destruct (Hk a s1) as [app2 H2]. exists (app1 ++ app2).
    by rewrite H2, H1, app_assoc.
Qed.

Lemma appends_for_of {A} (xs : list A) (body : A -> M (list Alert) unit) :
  (forall x, appends_only (body x)) -> appends_only (for_of xs body).
Proof.
  intros Hbody. induction xs as [|x xs IH]; cbn; [apply appends_ret|].
  apply appends_bind; auto.
Qed.

Lemma appends_existing uuid_ type_ description_ :
  appends_only (existing_draft_or_unresolved findOneBy uuid_ type_ description_).
Proof.
  intros batch. exists []. rewrite app_nil_r.
  unfold existing_draft_or_unresolved. mrun.
  destruct (existingDataFieldAlert _ _ _); [done|].
  by destruct (existingUnresolvedAlert _ _ _ _) as [err|[a|]].
Qed.

Lemma appends_scan uuid_ apiTrace hs found :
  appends_only (scan_requestHeaders ALERT_TYPE_TO_RISK_SCORE findOneBy
                  uuid_ apiTrace hs found).
Proof.
  revert found. induction hs as [|header hs IH]; intros found; cbn;
    [apply appends_ret|].
  destruct found; [apply appends_ret|].
  destruct (_ && _); [|apply IH].
  apply appends_bind; [apply appends_existing|]. intros existing.
  apply appends_bind; [|auto].
  destruct existing; [apply appends_ret|apply appends_push].
Qed.

Lemma appends_dataField uuid_ path_ apiTrace dataField :
  appends_only (dataField_alerts ALERT_TYPE_TO_RISK_SCORE DATA_SECTION_TO_LABEL_MAP
                  getPathTokens findOneBy uuid_ path_ apiTrace dataField).
Proof.
  unfold dataField_alerts. apply appends_bind.
  - destruct (bool_decide _); [|apply appends_ret].
    destruct (apiTrace ≫= requestHeaders); [apply appends_scan|apply appends_ret].
  - intros _. destruct (dataClasses dataField); [|apply appends_ret].
    apply appends_for_of. intros dataClass. apply appends_for_of. intros alert.
    apply appends_bind; [apply appends_existing|].
    intros existing. destruct existing; [apply appends_ret|apply appends_push].
Qed.

(** The loop of [createDataFieldAlerts] only pushes: whatever it leaves in
    the array, normally or by a throw, extends what was there. *)
Lemma appends_dataFields uuid_ path_ apiTrace dfs :
  appends_only (for_of dfs
                  (dataField_alerts ALERT_TYPE_TO_RISK_SCORE
                     DATA_SECTION_TO_LABEL_MAP getPathTokens findOneBy
                     uuid_ path_ apiTrace)).
Proof. apply appends_for_of. intros dataField. apply appends_dataField. Qed.

End Appends.

Lemma missingHSTS_alert_state {S} risk findOneBy p acc (s : S) :
  (exists acc' found,
     missingHSTS_alert risk findOneBy p (acc, s) = (inr tt, (acc', s))
     /\ existingUnresolvedAlert findOneBy (endpoint_uuid p.1.1)
          UNSECURED_ENDPOINT_DETECTED p.2 = inr found)
  \/ (exists err,
        missingHSTS_alert risk findOneBy p (acc, s) = (inl err, (acc, s))
        /\ existingUnresolvedAlert findOneBy (endpoint_uuid p.1.1)
             UNSECURED_ENDPOINT_DETECTED p.2 = inl err).
Proof.
  destruct p as [[endpoint trace] description_].
  unfold missingHSTS_alert. mrun. cbn [fst snd].
  destruct (existingUnresolvedAlert _ _ _ _) as [err|[a|]]; eauto 6.
Qed.

Lemma missingHSTS_loop_failing_lookup {S} risk findOneBy alertProps acc (s : S) :
  Exists (fun p => exists err,
            existingUnresolvedAlert findOneBy (endpoint_uuid p.1.1)
              UNSECURED_ENDPOINT_DETECTED p.2 = inl err) alertProps ->
  exists err acc',
    for_of alertProps (missingHSTS_alert risk findOneBy) (acc, s)
    = (inl err, (acc', s)).
Proof.
  intros Hfail. revert acc.
  induction Hfail as [p ps [err Herr]|p ps _ IH]; intros acc;
    cbn [for_of]; unfold bind;
    destruct (missingHSTS_alert_state risk findOneBy p acc s)
      as [(acc1 & found & -> & Hfound)|(err' & -> & Herr')]; eauto.
  congruence.
Qed.

Lemma missingHSTS_loop_state {S} risk findOneBy alertProps acc (s : S) :
  exists r acc',
    for_of alertProps (missingHSTS_alert risk findOneBy) (acc, s) = (r, (acc', s)).
Proof.
  revert acc. induction alertProps as [|p ps IH]; intros acc; cbn [for_of].
  - by exists (inr tt), acc.
  - unfold bind.
    destruct (missingHSTS_alert_state risk findOneBy p acc s)
      as [(acc1 & found & -> & _)|(err & -> & _)]; eauto.
Qed.

Lemma createMissingHSTSAlert_try_state {S} risk findOneBy alertProps (s : S) :
  snd (createMissingHSTSAlert_try risk findOneBy alertProps s) = s.
Proof.
  unfold createMissingHSTSAlert_try. destruct alertProps as [ps|]; [|done]. mrun.
  destruct (missingHSTS_loop_state risk findOneBy ps [] s) as (r & acc' & ->).
  by destruct r.
Qed.

(** A rejected lookup anywhere in the list empties the result of
    [createMissingHSTSAlert]. *)
Lemma createMissingHSTSAlert_failing_lookup {S} risk findOneBy alertProps (s : S) :
  Exists (fun p => exists err,
            existingUnresolvedAlert findOneBy (endpoint_uuid p.1.1)
              UNSECURED_ENDPOINT_DETECTED p.2 = inl err) alertProps ->
  createMissingHSTSAlert risk findOneBy (Some alertProps) s = (inr [], s).
Proof.
  intros Hfail.
  destruct (missingHSTS_loop_failing_lookup risk findOneBy alertProps [] s Hfail)
    as (err & acc' & Hloop).
  unfold createMissingHSTSAlert, createMissingHSTSAlert_try. mrun.
  by rewrite Hloop.
Qed.

(** C6: none of [createDataFieldAlerts], [createSpecDiffAlerts] and
    [createMissingHSTSAlert] ever throws, whatever the repository, the
    parsers and the query runner do; when the [try] block of a call is left
    by an exception, the call returns the empty list (for the data-field
    batch: a reference to a fresh empty array), and the state is as the
    block left it. *)
Theorem batch_construction_never_throws risk label tokens findOneBy
    jsonMap_parse yaml_load queryRunner_update :
  (forall dataFields uuid_ path_ apiTrace sda (h : Heap),
     exists l h',
       createDataFieldAlerts risk label tokens findOneBy dataFields uuid_ path_
         apiTrace sda h = (inr l, h')
       /\ forall err h1,
            createDataFieldAlerts_try risk label tokens findOneBy dataFields uuid_
              path_ apiTrace sda h = (inl err, h1) ->
            h' !! l = Some [] /\ h' = h1 ++ [[]])
  /\ (forall alertItems uuid_ apiTrace openApiSpec st,
        exists alerts st',
          createSpecDiffAlerts risk findOneBy jsonMap_parse yaml_load
            queryRunner_update alertItems uuid_ apiTrace openApiSpec st
          = (inr alerts, st')
          /\ forall err st1,
               createSpecDiffAlerts_try risk findOneBy jsonMap_parse yaml_load
                 queryRunner_update alertItems uuid_ apiTrace openApiSpec st
               = (inl err, st1) ->
               alerts = [] /\ st' = st1)
  /\ (forall (S : Type) alertProps (s : S),
        exists alerts,
          createMissingHSTSAlert risk findOneBy alertProps s = (inr alerts, s)
          /\ forall err s1,
               createMissingHSTSAlert_try risk findOneBy alertProps s = (inl err, s1) ->
               alerts = []).
Proof.
  split; [|split].
  - intros. unfold createDataFieldAlerts, try_catch, new_array.
    destruct (createDataFieldAlerts_try _ _ _ _ _ _ _ _ _ _) as [[err|l] h1].
    + do 2 eexists. split; [reflexivity|]. intros ? ? [= <- <-].
      split; [apply new_array_lookup|done].
    + do 2 eexists. split; [reflexivity|]. by intros.
  - intros. unfold createSpecDiffAlerts, try_catch, ret.
    destruct (createSpecDiffAlerts_try _ _ _ _ _ _ _ _ _ _) as [[err|l] st1].
    + do 2 eexists. split; [reflexivity|]. by intros ? ? [= <- <-].
    + do 2 eexists. split; [reflexivity|]. by intros.
  - intros. unfold createMissingHSTSAlert, try_catch, ret.
    pose proof (createMissingHSTSAlert_try_state risk findOneBy alertProps s) as Hs.
    destruct (createMissingHSTSAlert_try _ _ _ _) as [[err|l] s1]; cbn in Hs; subst s1.
    + eexists. split; [reflexivity|]. by intros.
    + eexists. split; [reflexivity|]. by intros.
Qed.

Lemma batch_construction_never_throws_witness :
  let findOneBy := failing_on UNSECURED_ENDPOINT_DETECTED in
  let alertProps := Some [(sample_endpoint, sample_trace, "Couldn't validate SSL info")] in
  createMissingHSTSAlert_try sample_risk_score findOneBy alertProps tt
  = (inl (ExternalError "Connection terminated unexpectedly"), tt)
  /\ createMissingHSTSAlert sample_risk_score findOneBy alertProps tt = (inr [], tt).
Proof.
  intros findOneBy alertProps. split; [reflexivity|].
  destruct (proj2 (proj2 (batch_construction_never_throws sample_risk_score
                            sample_section_label sample_path_tokens findOneBy
                            (fun _ => inl (ExternalError "Unexpected token"))
                            (fun _ => inl (ExternalError "bad indentation"))
                            (fun _ _ => inr tt)))
              unit alertProps tt) as (alerts & Hrun & Hempty).
  rewrite Hrun. do 2 f_equal. eapply Hempty. reflexivity.
Defined.

(** C10: [createDataFieldAlerts] accumulates in the caller's array. Handed
    a reference to an array holding [init], a call that completes returns
    that same reference, and the array then holds [init] followed by the
    new drafts; a call whose loop is left by an exception returns a
    reference to a fresh empty array, while the caller's array keeps [init]
    and the drafts pushed before the failure. No other array changes. *)
Theorem createDataFieldAlerts_accumulator risk label tokens findOneBy
    dfs uuid_ path_ apiTrace (a : loc) (h : Heap) init :
  h !! a = Some init ->
  let loop := for_of dfs (dataField_alerts risk label tokens findOneBy
                            uuid_ path_ apiTrace) init in
  exists appended l h',
    snd loop = init ++ appended
    /\ createDataFieldAlerts risk label tokens findOneBy (Some dfs) uuid_ path_
         apiTrace (Some a) h = (inr l, h')
    /\ h' !! a = Some (init ++ appended)
    /\ match fst loop with
       | inr _ => l = a /\ length h' = length h
       | inl err => l <> a /\ h' !! l = Some [] /\ l = length h
       end
    /\ (forall b, b <> a -> (b < length h)%nat -> h' !! b = h !! b).
Proof.
  intros Hinit loop.
  destruct (appends_dataFields risk label tokens findOneBy uuid_ path_ apiTrace
              dfs init) as [appended Happ].
  destruct (createDataFieldAlerts_run risk label tokens findOneBy dfs uuid_ path_
              apiTrace (Some a) h init Hinit) as (Hrun & Hlook & Hlt).
  fold loop in Happ, Hrun, Hlook. cbn beta zeta in Hrun, Hlook, Hlt.
  unfold Heap, loc in *.
  exists appended. destruct (fst loop) as [err|[]].
  - exists (length h), (<[a := snd loop]> h ++ [[]]).
    split; [done|]. split; [done|].
    split; [by rewrite lookup_app_l, Hlook, Happ by by rewrite length_insert|].
    split.
    + split; [lia|]. split; [|done].
      rewrite <- (length_insert h a (snd loop)). apply new_array_lookup.
    + intros b Hb Hbl.
      by rewrite lookup_app_l, list_lookup_insert_ne by by rewrite ?length_insert.
  - exists a, (<[a := snd loop]> h).
    split; [done|]. split; [done|].
    split; [by rewrite Hlook, Happ|].
    split; [by rewrite length_insert|].
    intros b Hb _. by rewrite list_lookup_insert_ne.
Qed.

Lemma createDataFieldAlerts_accumulator_witness :
  let findOneBy := failing_on QUERY_SENSITIVE_DATA in
  let earlier := newAlert sample_risk_score NEW_ENDPOINT "endpoint-1" ctx_undefined
                   "A new endpoint has been detected: /search." in
  let dataField := {| dataSection := REQUEST_QUERY; dataPath := "email";
                      dataClasses := Some ["Email"] |} in
  let pii := newAlert sample_risk_score PII_DATA_DETECTED "endpoint-1"
               (ctx_trace (Some sample_trace))
               "Sensitive data of type Email has been detected in field 'email' of Request Query." in
  ([[earlier]] : Heap) !! (0%nat : loc) = Some [earlier]
  /\ exists appended l h',
       appended = [pii]
       /\ createDataFieldAlerts sample_risk_score sample_section_label
            sample_path_tokens findOneBy (Some [dataField]) "endpoint-1" "/search"
            (Some sample_trace) (Some 0%nat) [[earlier]] = (inr l, h')
       /\ h' !! (0%nat : loc) = Some ([earlier] ++ appended)
       /\ l <> 0%nat /\ h' !! l = Some [].
Proof.
  intros findOneBy earlier dataField pii. split; [reflexivity|].
  destruct (createDataFieldAlerts_accumulator sample_risk_score sample_section_label
              sample_path_tokens findOneBy [dataField] "endpoint-1" "/search"
              (Some sample_trace) 0%nat [[earlier]] [earlier] eq_refl)
    as (appended & l & h' & Happ & Hrun & Hlook & Hcase & _).
  exists appended, l, h'.
  split; [exact (app_inv_head [earlier] appended [pii] (eq_sym Happ))|].
  split; [exact Hrun|]. split; [exact Hlook|].
  split; [exact (proj1 Hcase)|exact (proj1 (proj2 Hcase))].
Defined.

(** ** Basic-authentication detection *)

Section BasicAuth.

Variable ALERT_TYPE_TO_RISK_SCORE : AlertType -> Z.
Variable DATA_SECTION_TO_LABEL_MAP : DataSection -> string.
Variable getPathTokens : string -> list string.
Variable db : DataSource.
Variable apiEndpointUuid_ : string.
Variable apiTrace : option ApiTrace.

#[local] Abbreviation policy := (batch_or_store_policy ALERT_TYPE_TO_RISK_SCORE db).
#[local] Abbreviation draft := (draft_of ALERT_TYPE_TO_RISK_SCORE).
#[local] Abbreviation basic := (basic_auth_finding apiEndpointUuid_ apiTrace).

#[local] Abbreviation batch_finding := (batch_finding apiEndpointUuid_ apiTrace).

Lemma batch_finding_other alert rest :
  add_type alert <> BASIC_AUTHENTICATION_DETECTED ->
  (add_description alert = String "S" rest
   \/ add_description alert = String "Q" rest
   \/ add_description alert = String "P" rest) ->
  batch_finding (finding_of_alertToAdd apiEndpointUuid_ alert).
Proof.
  intros Htype Hdesc. split; [done|]. right. split; [done|]. cbn.
  cbv [basicAuthDescription]. by destruct Hdesc as [->|[->| ->]].
Qed.

Lemma drafted_snoc batch d f :
  drafted (batch ++ [d]) f
  = drafted batch f
    || (bool_decide (apiEndpointUuid d = finding_uuid f)
        && bool_decide (description d = finding_description f)).
Proof. unfold drafted. rewrite existsb_app. cbn. by rewrite orb_false_r. Qed.

(** Over the findings of one batch, the policy drafts the basic
    authentication finding at most once: once if it occurs and the batch
    held no draft of it, never otherwise. *)
Lemma policy_basic_auth_once fs batch :
  Forall batch_finding fs ->
  persisted_unresolved db basic = false ->
  exists new,
    policy batch fs = batch ++ new
    /\ List.filter is_basic_auth_draft new
       = if drafted batch basic then []
         else if has_basic fs then [draft basic] else [].
Proof.
  intros Hfs Hstore. revert batch.
  induction Hfs as [|f fs [Huuid Hf] _ IH]; intros batch.
  - exists []. rewrite app_nil_r. by destruct (drafted batch basic).
  - cbn [batch_or_store_policy has_basic existsb].
    destruct Hf as [->|[Htype Hdesc]].
    + rewrite Hstore, orb_false_r. cbn [finding_type basic_auth_finding].
      rewrite bool_decide_eq_true_2 by done. cbn [orb].
      destruct (drafted batch basic) eqn:Hdrafted.
      * destruct (IH batch) as (new & -> & Hnew). exists new.
        by rewrite Hnew, Hdrafted.
      * destruct (IH (batch ++ [draft basic])) as (new & -> & Hnew).
        exists (draft basic :: new). split; [by rewrite <- app_assoc|].
        rewrite drafted_snoc in Hnew. cbn in Hnew.
        rewrite !bool_decide_eq_true_2, orb_true_r in Hnew by done.
        cbn. by rewrite Hnew.
    + rewrite (bool_decide_eq_false_2 _ Htype). cbn [orb].
      destruct (drafted batch f || persisted_unresolved db f).
      * apply IH.
      * destruct (IH (batch ++ [draft f])) as (new & -> & Hnew).
        exists (draft f :: new). split; [by rewrite <- app_assoc|].
        rewrite drafted_snoc in Hnew. cbn in Hnew.
        rewrite (bool_decide_eq_false_2 _ Hdesc), andb_false_r, orb_false_r in Hnew.
        cbn. unfold is_basic_auth_draft at 1. cbn.
        by rewrite (bool_decide_eq_false_2 _ Htype).
Qed.

Lemma scan_pathTokens_description dataPath_ dataClass tokens i acc :
  (exists rest, snd acc = String "P" rest) ->
  exists rest,
    snd (scan_pathTokens dataPath_ dataClass tokens i acc) = String "P" rest.
Proof.
  revert i acc. induction tokens as [|token tokens IH]; intros i acc Hacc; [done|].
  cbn [scan_pathTokens]. apply IH. case_bool_decide; [|done].
  cbn [snd]. cbv [String.append]. eauto.
Qed.

Lemma alertsToAdd_batch_finding dataField dataClass path_ :
  Forall batch_finding
    (finding_of_alertToAdd apiEndpointUuid_
       <$> alertsToAdd DATA_SECTION_TO_LABEL_MAP getPathTokens dataField dataClass
             path_ apiTrace).
Proof.
  unfold alertsToAdd. rewrite !fmap_app. repeat apply Forall_app_2.
  - apply Forall_singleton. eapply batch_finding_other; [done|].
    left. cbn. cbv [String.append]. reflexivity.
  - case_bool_decide; [|by constructor].
    apply Forall_singleton. eapply batch_finding_other; [done|].
    right. left. cbn. cbv [String.append]. reflexivity.
  - case_bool_decide; [|by constructor].
    destruct (scan_pathTokens_description (dataPath dataField) dataClass
                (getPathTokens path_) 0
                (None, "Path Parameters contain sensitive data of type "
                         +:+ dataClass +:+ "."))
      as [rest Hrest]; [cbv [String.append]; cbn; eauto|].
    destruct (scan_pathTokens _ _ _ _ _) as [idx sensitivePathDescription].
    cbn in Hrest. subst. apply Forall_singleton.
    eapply batch_finding_other; [done|]. right. right. reflexivity.
Qed.

Lemma dataField_findings_batch_finding path_ dataField :
  Forall batch_finding
    (dataField_findings DATA_SECTION_TO_LABEL_MAP getPathTokens
       apiEndpointUuid_ path_ apiTrace dataField).
Proof.
  unfold dataField_findings. apply Forall_app_2.
  - case_bool_decide; [|by constructor].
    destruct (apiTrace ≫= requestHeaders); [|by constructor].
    destruct (existsb _ _); [|by constructor].
    apply Forall_singleton. split; [done|]. by left.
  - destruct (dataClasses dataField) as [classes|]; [|by constructor].
    induction classes as [|dataClass classes IH]; [by constructor|].
    cbn [fmap list_fmap concat].
    apply Forall_app_2; [apply alertsToAdd_batch_finding|apply IH].
Qed.

Lemma has_basic_app fs gs : has_basic (fs ++ gs) = has_basic fs || has_basic gs.
Proof. apply existsb_app. Qed.

Lemma dataFields_has_basic path_ dfs hs :
  Exists (fun df => dataSection df = REQUEST_HEADER) dfs ->
  apiTrace ≫= requestHeaders = Some hs ->
  existsb is_basic_auth_header hs = true ->
  has_basic (concat (dataField_findings DATA_SECTION_TO_LABEL_MAP getPathTokens
                       apiEndpointUuid_ path_ apiTrace <$> dfs)) = true.
Proof.
  intros Hdfs Hhs Hbasic.
  induction Hdfs as [df dfs Hdf|df dfs _ IH]; cbn; rewrite has_basic_app.
  - unfold dataField_findings. rewrite has_basic_app, Hhs, Hbasic.
    by rewrite bool_decide_eq_true_2.
  - by rewrite IH, orb_true_r.
Qed.

End BasicAuth.

(** C7: a call to [createDataFieldAlerts] whose data fields include a
    REQUEST_HEADER field and whose trace carries a header named
    "authorization" (in any case) with a value containing "basic " (in any
    case) produces exactly one BASIC_AUTHENTICATION_DETECTED draft, with the
    fixed description, however many such headers and REQUEST_HEADER fields
    there are, provided no unresolved alert with that key is persisted and
    the batch handed in holds no draft of it. (On a data source that answers
    its lookups.) *)
Theorem createDataFieldAlerts_basic_auth_once risk label tokens (db : DataSource)
    dfs uuid_ path_ apiTrace hs sda (h : Heap) init :
  match sda with Some a => h !! a = Some init | None => init = [] end ->
  Exists (fun dataField => dataSection dataField = REQUEST_HEADER) dfs ->
  apiTrace ≫= requestHeaders = Some hs ->
  Exists (fun header => toLowerCase (name header) = "authorization"
                        /\ includes (toLowerCase (value header)) "basic " = true) hs ->
  (forall a, a ∈ alert_rows db -> apiEndpointUuid a = uuid_ ->
             type a = BASIC_AUTHENTICATION_DETECTED ->
             description a = basicAuthDescription -> status a = RESOLVED) ->
  existingDataFieldAlert (Some init) uuid_ basicAuthDescription = false ->
  exists l h' new,
    createDataFieldAlerts risk label tokens (table_findOneBy db) (Some dfs)
      uuid_ path_ apiTrace sda h = (inr l, h')
    /\ h' !! l = Some (init ++ new)
    /\ List.filter is_basic_auth_draft new
       = [newAlert risk BASIC_AUTHENTICATION_DETECTED uuid_ (ctx_trace apiTrace)
            basicAuthDescription].
Proof.
  intros Hinit Hdfs Hhs Hheader Hstore Hbatch.
  destruct (createDataFieldAlerts_table risk label tokens db
              dfs uuid_ path_ apiTrace sda h init Hinit) as (l & h' & Hrun & Hlook).
  assert (Hbasic : existsb is_basic_auth_header hs = true).
  { apply existsb_exists. apply Exists_exists in Hheader as (header & Hin & Hn & Hv).
    exists header. split; [by apply list_elem_of_In|].
    unfold is_basic_auth_header. by rewrite bool_decide_eq_true_2, Hv. }
  assert (Hnot : persisted_unresolved db (basic_auth_finding uuid_ apiTrace) = false).
  { apply not_true_is_false. intros Hp.
    apply persisted_unresolved_spec in Hp as (a & Hin & H1 & H2 & H3 & H4).
    apply H4. by apply Hstore. }
  destruct (policy_basic_auth_once risk db uuid_ apiTrace
              (concat (dataField_findings label tokens uuid_ path_ apiTrace <$> dfs))
              init) as (new & Hnew & Hcount); [|done|].
  { apply Forall_concat, Forall_fmap, Forall_forall. intros dataField _.
    apply dataField_findings_batch_finding. }
  exists l, h', new. split; [done|]. split; [by rewrite Hlook, Hnew|].
  rewrite Hcount.
  unfold drafted. cbn [finding_uuid finding_description basic_auth_finding].
  unfold existingDataFieldAlert in Hbatch. rewrite Hbatch.
  by rewrite (dataFields_has_basic label tokens uuid_ apiTrace path_ dfs hs).
Qed.

Lemma createDataFieldAlerts_basic_auth_once_witness :
  let dfs := [ {| dataSection := REQUEST_HEADER; dataPath := "authorization";
                  dataClasses := Some ["Credentials"] |};
               {| dataSection := REQUEST_HEADER; dataPath := "x-api-key";
                  dataClasses := None |} ] in
  exists l h' new,
    createDataFieldAlerts sample_risk_score sample_section_label sample_path_tokens
      (table_findOneBy empty_source) (Some dfs) "endpoint-1" "/users/{id}/profile"
      (Some sample_trace) None [] = (inr l, h')
    /\ h' !! l = Some new
    /\ List.filter is_basic_auth_draft new
       = [newAlert sample_risk_score BASIC_AUTHENTICATION_DETECTED "endpoint-1"
            (ctx_trace (Some sample_trace)) basicAuthDescription].
Proof.
  intros dfs.
  refine (createDataFieldAlerts_basic_auth_once sample_risk_score
            sample_section_label sample_path_tokens empty_source dfs "endpoint-1"
            "/users/{id}/profile" (Some sample_trace)
            [ {| name := "Authorization"; value := "Basic dXNlcjpwYXNz" |};
              {| name := "authorization"; value := "BASIC b3RoZXI6cGFzcw==" |} ]
            None [] [] eq_refl _ eq_refl _ _ eq_refl).
  - by apply Exists_cons_hd.
  - by apply Exists_cons_hd.
  - intros a Ha. by apply elem_of_nil in Ha.
Defined.

(** ** The cache of spec locations *)

Section SpecLocator.

Variable ALERT_TYPE_TO_RISK_SCORE : AlertType -> Z.
Variable findOneBy : FindOptionsWhere -> exn + option Alert.
Variable jsonMap_parse : string -> exn + (string -> option Z).
Variable yaml_load : string -> exn + (list string -> option Z).
Variable queryRunner_update : string -> gmap string CacheEntry -> exn + unit.

#[local] Abbreviation locate := (locate_in_spec jsonMap_parse yaml_load).

(** A hit: nothing is parsed and nothing is written. *)
Lemma locate_in_spec_hit openApiSpec pathPointer key st entry :
  minimizedSpecContext st !! key = Some entry ->
  locate openApiSpec pathPointer key st = (inr tt, st).
Proof. intros Hhit. unfold locate_in_spec, bind, get. by rewrite Hhit. Qed.

(** One resolution parses at most once, and only adds to the cache under
    its own key. *)
Lemma locate_in_spec_parses openApiSpec pathPointer key st :
  let st1 := snd (locate openApiSpec pathPointer key st) in
  (parses st <= parses st1 <= S (parses st))%nat
  /\ (forall k, k <> key ->
                minimizedSpecContext st1 !! k = minimizedSpecContext st !! k)
  /\ (forall entry, minimizedSpecContext st !! key = Some entry ->
                    minimizedSpecContext st1 !! key = Some entry).
Proof.
  cbn zeta. unfold locate_in_spec. mrun.
  unfold set_minimizedSpecContext, count_parse, truthy_number.
  repeat case_match; simplify_eq/=;
    (split; [lia|split]); try done; intros; try congruence;
    by rewrite ?lookup_insert_ne.
Qed.

Lemma specDiff_alert_cached uuid_ apiTrace openApiSpec item acc st entry :
  minimizedSpecContext st !! join "." (snd item) = Some entry ->
  let st1 := snd (snd (specDiff_alert ALERT_TYPE_TO_RISK_SCORE findOneBy
                         jsonMap_parse yaml_load queryRunner_update
                         uuid_ apiTrace openApiSpec item (acc, st))) in
  parses st1 = parses st /\ minimizedSpecContext st1 = minimizedSpecContext st.
Proof.
  intros Hhit. cbn zeta. unfold specDiff_alert. mrun.
  destruct (existingUnresolvedAlert _ _ _ _) as [err|[a|]]; cbn [fst snd]; [done|..].
  - by destruct (queryRunner_update _ _).
  - rewrite (locate_in_spec_hit _ _ _ _ _ Hhit). cbn [fst snd].
    by destruct (queryRunner_update _ _).
Qed.

Lemma specDiff_loop_cached uuid_ apiTrace openApiSpec items acc st :
  Forall (fun item => is_Some (minimizedSpecContext st !! join "." (snd item)))
         items ->
  let st1 := snd (snd (for_of items
                         (specDiff_alert ALERT_TYPE_TO_RISK_SCORE findOneBy
                            jsonMap_parse yaml_load queryRunner_update
                            uuid_ apiTrace openApiSpec) (acc, st))) in
  parses st1 = parses st /\ minimizedSpecContext st1 = minimizedSpecContext st.
Proof.
  cbn zeta. intros Hitems. revert acc st Hitems.
  induction items as [|item items IH]; intros acc st Hitems; [done|].
  apply Forall_cons in Hitems as [[entry Hitem] Hitems].
  cbn [for_of]. unfold bind.
  pose proof (specDiff_alert_cached uuid_ apiTrace openApiSpec item acc st entry
                Hitem) as Hstep. cbn zeta in Hstep.
  destruct (specDiff_alert _ _ _ _ _ _ _ _ _ _) as [[err|[]] [acc1 st1]];
    cbn [fst snd] in *; [done|].
  destruct Hstep as [Hp Hc]. rewrite <- Hp, <- Hc. apply IH.
  by rewrite Hc.
Qed.

(** A miss on JSON text whose pointer has a line: the spec is parsed once
    and the entry is written. *)
Lemma locate_in_spec_json_resolved openApiSpec pathPointer key st result n :
  minimizedSpecContext st !! key = None ->
  extension openApiSpec = JSON ->
  jsonMap_parse (spec openApiSpec) = inr result ->
  result (json_pointer pathPointer) = Some n ->
  n <> 0%Z -> (n + 1)%Z <> 0%Z ->
  locate openApiSpec pathPointer key st
  = (inr tt, set_minimizedSpecContext (count_parse st) key
               (entry_at openApiSpec (n + 1))).
Proof.
  intros Hmiss Hext Hparse Hres Hn Hn1. unfold locate_in_spec, json_pointer in *.
  mrun. rewrite Hmiss, Hext, Hparse. cbn [fst snd]. rewrite Hres.
  unfold truthy_number. cbn [fmap option_fmap option_map].
  destruct (Z.eqb_spec n 0); [done|]. cbn [negb].
  destruct (Z.eqb_spec (n + 1) 0); [done|]. reflexivity.
Qed.

(** A miss on YAML text whose pointer has a line. *)
Lemma locate_in_spec_yaml_resolved openApiSpec pathPointer key st map n :
  minimizedSpecContext st !! key = None ->
  extension openApiSpec = YAML ->
  yaml_load (spec openApiSpec) = inr map ->
  map pathPointer = Some n ->
  n <> 0%Z -> (n - 1)%Z <> 0%Z ->
  locate openApiSpec pathPointer key st
  = (inr tt, set_minimizedSpecContext (count_parse st) key
               (entry_at openApiSpec (n - 1))).
Proof.
  intros Hmiss Hext Hparse Hres Hn Hn1. unfold locate_in_spec. mrun.
  rewrite Hmiss, Hext, Hparse. cbn [fst snd]. rewrite Hres.
  unfold truthy_number.
  destruct (Z.eqb_spec n 0); [done|]. cbn [negb].
  destruct (Z.eqb_spec (n - 1) 0); [done|]. reflexivity.
Qed.

(** A resolution reads the state through the cache only: counting one
    more parse beforehand changes the counter of the result and nothing
    else. *)
Lemma locate_in_spec_count_parse openApiSpec pathPointer key st :
  locate openApiSpec pathPointer key (count_parse st)
  = (fst (locate openApiSpec pathPointer key st),
     count_parse (snd (locate openApiSpec pathPointer key st))).
Proof.
  unfold locate_in_spec. mrun. cbn [minimizedSpecContext count_parse].
  unfold set_minimizedSpecContext, count_parse, truthy_number.
  repeat case_match; simplify_eq/=; try done; congruence.
Qed.

(** A resolution of JSON or YAML text that leaves no entry under its key
    has parsed the spec and written nothing. *)
Lemma locate_in_spec_no_entry openApiSpec pathPointer key st :
  extension openApiSpec = JSON \/ extension openApiSpec = YAML ->
  minimizedSpecContext (snd (locate openApiSpec pathPointer key st)) !! key = None ->
  snd (locate openApiSpec pathPointer key st) = count_parse st.
Proof.
  intros Hext. unfold locate_in_spec. mrun.
  unfold set_minimizedSpecContext, count_parse, truthy_number.
  destruct Hext as [Hext|Hext]; rewrite Hext;
    repeat case_match; simplify_eq/=; try done;
    rewrite ?lookup_insert_eq; congruence.
Qed.

(** When no line is found for the pointer, nothing is cached. *)
Lemma locate_in_spec_json_unresolved openApiSpec pathPointer key st result :
  minimizedSpecContext st !! key = None ->
  extension openApiSpec = JSON ->
  jsonMap_parse (spec openApiSpec) = inr result ->
  result (json_pointer pathPointer) = None
  \/ result (json_pointer pathPointer) = Some 0%Z ->
  locate openApiSpec pathPointer key st = (inr tt, count_parse st).
Proof.
  intros Hmiss Hext Hparse Hres. unfold locate_in_spec, json_pointer in *.
  mrun. rewrite Hmiss, Hext, Hparse. cbn [fst snd].
  by destruct Hres as [-> | ->].
Qed.

Lemma locate_in_spec_yaml_unresolved openApiSpec pathPointer key st map :
  minimizedSpecContext st !! key = None ->
  extension openApiSpec = YAML ->
  yaml_load (spec openApiSpec) = inr map ->
  map pathPointer = Some 0%Z \/ map pathPointer = Some 1%Z ->
  locate openApiSpec pathPointer key st = (inr tt, count_parse st).
Proof.
  intros Hmiss Hext Hparse Hres. unfold locate_in_spec. mrun.
  rewrite Hmiss, Hext, Hparse. cbn [fst snd].
  by destruct Hres as [-> | ->].
Qed.

(** One round of the loop on a finding whose pointer resolves to a line:
    either nothing is parsed and the cache is as before, or the spec has
    been parsed once and the cache holds the pointer's entry. *)
Lemma specDiff_alert_resolving uuid_ apiTrace openApiSpec item acc st :
  (forall st0, minimizedSpecContext st0 !! join "." (snd item) = None ->
     exists st1 e,
       locate openApiSpec (snd item) (join "." (snd item)) st0 = (inr tt, st1)
       /\ parses st1 = S (parses st0)
       /\ minimizedSpecContext st1 !! join "." (snd item) = Some e) ->
  let st' := snd (snd (specDiff_alert ALERT_TYPE_TO_RISK_SCORE findOneBy
                         jsonMap_parse yaml_load queryRunner_update
                         uuid_ apiTrace openApiSpec item (acc, st))) in
  (parses st' = parses st /\ minimizedSpecContext st' = minimizedSpecContext st)
  \/ (parses st' = S (parses st)
      /\ is_Some (minimizedSpecContext st' !! join "." (snd item))).
Proof.
  intros Hres. cbn zeta.
  destruct (minimizedSpecContext st !! join "." (snd item)) as [e|] eqn:Hkey.
  { left. by eapply specDiff_alert_cached. }
  destruct (Hres st Hkey) as (st1 & e & Hrun & Hparses & Hentry).
  unfold specDiff_alert. mrun.
  destruct (existingUnresolvedAlert _ _ _ _) as [err|[a|]]; cbn [fst snd];
    [by left|..].
  - left. by destruct (queryRunner_update _ _).
  - rewrite Hrun. cbn [fst snd]. right.
    by destruct (queryRunner_update _ _).
Qed.

(** A batch of findings at one pointer that resolves to a line parses the
    spec at most once. *)
Lemma specDiff_loop_one_parse uuid_ apiTrace openApiSpec pathPointer items acc st :
  (forall st0, minimizedSpecContext st0 !! join "." pathPointer = None ->
     exists st1 e,
       locate openApiSpec pathPointer (join "." pathPointer) st0 = (inr tt, st1)
       /\ parses st1 = S (parses st0)
       /\ minimizedSpecContext st1 !! join "." pathPointer = Some e) ->
  Forall (fun item => snd item = pathPointer) items ->
  (parses (snd (snd (for_of items
                       (specDiff_alert ALERT_TYPE_TO_RISK_SCORE findOneBy
                          jsonMap_parse yaml_load queryRunner_update
                          uuid_ apiTrace openApiSpec) (acc, st))))
   <= S (parses st))%nat.
Proof.
  intros Hres Hitems. revert acc st.
  induction Hitems as [|item items Hitem Hitems IH]; intros acc st; [cbn; lia|].
  cbn [for_of]. unfold bind.
  pose proof (specDiff_alert_resolving uuid_ apiTrace openApiSpec item acc st)
    as Hstep. rewrite Hitem in Hstep. specialize (Hstep Hres). cbn zeta in Hstep.
  destruct (specDiff_alert _ _ _ _ _ _ _ _ _ _) as [[err|[]] [acc1 st1]];
    cbn [fst snd] in *; [lia|].
  destruct Hstep as [[Hp Hc]|[Hp Hc]].
  - rewrite <- Hp. apply IH.
  - pose proof (specDiff_loop_cached uuid_ apiTrace openApiSpec items acc1 st1)
      as Hrest. cbn zeta in Hrest.
    destruct Hrest as [Hrest _]; [|lia].
    eapply Forall_impl; [exact Hitems|]. by intros item' ->.
Qed.

End SpecLocator.

(** C8 (as amended): in [createSpecDiffAlerts] the cache of spec locations
    is consulted under the pointer segments joined with "."; when it holds
    an entry for that key the spec is not parsed and the cache is left as it
    is. A miss parses the spec once. When the parse finds a line for the
    pointer and the adjusted line (plus 1 for JSON text, minus 1 for YAML
    text) is not 0, the entry - that line and the lines of the text around
    it - is written under the key, so a second resolution of the same
    pointer parses nothing and sees the same entry. When no such line is
    found (the pointer is not in the source map, or its line is 0) nothing
    is cached, and a second resolution of the same pointer parses the spec
    again. A whole batch whose pointers are all cached parses nothing and
    leaves the cache unchanged. *)
Theorem spec_location_cache risk findOneBy jsonMap_parse yaml_load
    queryRunner_update :
  let locate := locate_in_spec jsonMap_parse yaml_load in
  let caches openApiSpec pathPointer key st line :=
    exists st1,
      locate openApiSpec pathPointer key st = (inr tt, st1)
      /\ parses st1 = S (parses st)
      /\ minimizedSpecContext st1
         = <[key := entry_at openApiSpec line]> (minimizedSpecContext st)
      /\ stored st1 = stored st
      /\ locate openApiSpec pathPointer key st1 = (inr tt, st1) in
  let resolves openApiSpec pathPointer :=
    (extension openApiSpec = JSON
     /\ exists result n,
          jsonMap_parse (spec openApiSpec) = inr result
          /\ result (json_pointer pathPointer) = Some n
          /\ n <> 0%Z /\ (n + 1)%Z <> 0%Z)
    \/ (extension openApiSpec = YAML
        /\ exists map n,
             yaml_load (spec openApiSpec) = inr map
             /\ map pathPointer = Some n
             /\ n <> 0%Z /\ (n - 1)%Z <> 0%Z) in
  (forall openApiSpec pathPointer key st entry,
     minimizedSpecContext st !! key = Some entry ->
     locate openApiSpec pathPointer key st = (inr tt, st))
  /\ (forall openApiSpec pathPointer key st result n,
        minimizedSpecContext st !! key = None ->
        extension openApiSpec = JSON ->
        jsonMap_parse (spec openApiSpec) = inr result ->
        result (json_pointer pathPointer) = Some n ->
        n <> 0%Z -> (n + 1)%Z <> 0%Z ->
        caches openApiSpec pathPointer key st (n + 1)%Z)
  /\ (forall openApiSpec pathPointer key st map n,
        minimizedSpecContext st !! key = None ->
        extension openApiSpec = YAML ->
        yaml_load (spec openApiSpec) = inr map ->
        map pathPointer = Some n ->
        n <> 0%Z -> (n - 1)%Z <> 0%Z ->
        caches openApiSpec pathPointer key st (n - 1)%Z)
  /\ (forall openApiSpec pathPointer key st r st1,
        extension openApiSpec = JSON \/ extension openApiSpec = YAML ->
        locate openApiSpec pathPointer key st = (r, st1) ->
        minimizedSpecContext st1 !! key = None ->
        parses st1 = S (parses st)
        /\ minimizedSpecContext st1 = minimizedSpecContext st
        /\ exists st2,
             locate openApiSpec pathPointer key st1 = (r, st2)
             /\ parses st2 = S (S (parses st))
             /\ minimizedSpecContext st2 = minimizedSpecContext st)
  /\ (forall openApiSpec pathPointer key st result,
        minimizedSpecContext st !! key = None ->
        extension openApiSpec = JSON ->
        jsonMap_parse (spec openApiSpec) = inr result ->
        result (json_pointer pathPointer) = None
        \/ result (json_pointer pathPointer) = Some 0%Z ->
        exists st1,
          locate openApiSpec pathPointer key st = (inr tt, st1)
          /\ minimizedSpecContext st1 !! key = None)
  /\ (forall openApiSpec pathPointer key st map,
        minimizedSpecContext st !! key = None ->
        extension openApiSpec = YAML ->
        yaml_load (spec openApiSpec) = inr map ->
        map pathPointer = Some 0%Z \/ map pathPointer = Some 1%Z ->
        exists st1,
          locate openApiSpec pathPointer key st = (inr tt, st1)
          /\ minimizedSpecContext st1 !! key = None)
  /\ (forall items uuid_ apiTrace openApiSpec st,
        Forall (fun item =>
                  is_Some (minimizedSpecContext st !! join "." (snd item))) items ->
        exists alerts st',
          createSpecDiffAlerts risk findOneBy jsonMap_parse yaml_load
            queryRunner_update (Some items) uuid_ apiTrace openApiSpec st
          = (inr alerts, st')
          /\ parses st' = parses st
          /\ minimizedSpecContext st' = minimizedSpecContext st)
  /\ (forall items pathPointer uuid_ apiTrace openApiSpec st,
        Forall (fun item => snd item = pathPointer) items ->
        resolves openApiSpec pathPointer ->
        (parses (snd (createSpecDiffAlerts risk findOneBy jsonMap_parse yaml_load
                        queryRunner_update (Some items) uuid_ apiTrace
                        openApiSpec st))
         <= S (parses st))%nat).
Proof.
  intros locate caches resolves. subst locate caches resolves. cbn beta.
  assert (Hcaches : forall openApiSpec pathPointer key st line,
    locate_in_spec jsonMap_parse yaml_load openApiSpec pathPointer key st
    = (inr tt, set_minimizedSpecContext (count_parse st) key
                 (entry_at openApiSpec line)) ->
    exists st1,
      locate_in_spec jsonMap_parse yaml_load openApiSpec pathPointer key st
      = (inr tt, st1)
      /\ parses st1 = S (parses st)
      /\ minimizedSpecContext st1
         = <[key := entry_at openApiSpec line]> (minimizedSpecContext st)
      /\ stored st1 = stored st
      /\ locate_in_spec jsonMap_parse yaml_load openApiSpec pathPointer key st1
         = (inr tt, st1)).
  { intros openApiSpec pathPointer key st line Hrun. eexists.
    split; [exact Hrun|]. do 3 (split; [reflexivity|]).
    eapply locate_in_spec_hit. cbn. apply lookup_insert_eq. }
  split_and!.
  - intros. by eapply locate_in_spec_hit.
  - intros. apply Hcaches. by eapply locate_in_spec_json_resolved.
  - intros. apply Hcaches. by eapply locate_in_spec_yaml_resolved.
  - intros openApiSpec pathPointer key st r st1 Hext Hrun Hnone.
    pose proof (locate_in_spec_no_entry jsonMap_parse yaml_load openApiSpec
                  pathPointer key st Hext) as Hst1.
    rewrite Hrun in Hst1. cbn [snd] in Hst1. specialize (Hst1 Hnone). subst st1.
    split; [done|]. split; [done|]. eexists.
    rewrite locate_in_spec_count_parse, Hrun. cbn [fst snd]. done.
  - intros openApiSpec pathPointer key st result Hmiss Hext Hparse Hres.
    eexists. split; [by eapply locate_in_spec_json_unresolved|]. done.
  - intros openApiSpec pathPointer key st map Hmiss Hext Hparse Hres.
    eexists. split; [by eapply locate_in_spec_yaml_unresolved|]. done.
  - intros items uuid_ apiTrace openApiSpec st Hitems.
    pose proof (specDiff_loop_cached risk findOneBy jsonMap_parse yaml_load
                  queryRunner_update uuid_ apiTrace openApiSpec items [] st Hitems)
      as Hloop. cbn zeta in Hloop.
    unfold createSpecDiffAlerts, createSpecDiffAlerts_try. mrun.
    case_bool_decide; [by eauto|].
    destruct (for_of _ _ _) as [[err|[]] [acc1 st1]]; cbn [fst snd] in *; eauto.
  - intros items pathPointer uuid_ apiTrace openApiSpec st Hitems Hres.
    pose proof (specDiff_loop_one_parse risk findOneBy jsonMap_parse yaml_load
                  queryRunner_update uuid_ apiTrace openApiSpec pathPointer
                  items [] st) as Hloop.
    unfold createSpecDiffAlerts, createSpecDiffAlerts_try. mrun.
    case_bool_decide; [cbn; lia|].
    assert (Hle : (parses (snd (snd (for_of items
                     (specDiff_alert risk findOneBy jsonMap_parse yaml_load
                        queryRunner_update uuid_ apiTrace openApiSpec) ([], st))))
                   <= S (parses st))%nat).
    { apply Hloop; [|done]. intros st0 Hmiss.
      destruct Hres as [(Hext & result & n & Hparse & Hline & Hn & Hn1)
                       |(Hext & map & n & Hparse & Hline & Hn & Hn1)].
      - eexists _, _. split; [by eapply locate_in_spec_json_resolved|].
        split; [done|]. cbn. apply lookup_insert_eq.
      - eexists _, _. split; [by eapply locate_in_spec_yaml_resolved|].
        split; [done|]. cbn. apply lookup_insert_eq. }
    destruct (for_of _ _ _) as [[err|[]] [acc1 st1]]; cbn [fst snd] in *; done.
Qed.

Lemma spec_location_cache_witness :
  let pointer := ["paths"; "/users"] in
  let items := [("Required property 'id' is missing from response body", pointer);
                ("Property 'age' is present in response body without being defined in OpenAPI Spec",
                 pointer)] in
  let entry := {| lineNumber := 3;
                  minimizedSpec := "  /users:" +:+ String "010" "" +:+ "    get: {}" |} in
  (exists st1,
     locate_in_spec sample_jsonMap_parse sample_yaml_load sample_spec
       pointer "paths./users" empty_spec_state = (inr tt, st1)
     /\ parses st1 = 1%nat
     /\ minimizedSpecContext st1 !! "paths./users" = Some entry
     /\ locate_in_spec sample_jsonMap_parse sample_yaml_load sample_spec
          pointer "paths./users" st1 = (inr tt, st1))
  /\ parses (snd (createSpecDiffAlerts sample_risk_score
                    (table_findOneBy empty_source) sample_jsonMap_parse
                    sample_yaml_load sample_queryRunner_update (Some items)
                    "endpoint-1" (Some sample_trace) sample_spec empty_spec_state))
     = 1%nat.
Proof.
  intros pointer items entry. split; [|vm_compute; reflexivity].
  destruct (proj1 (proj2 (spec_location_cache sample_risk_score
                            (table_findOneBy empty_source) sample_jsonMap_parse
                            sample_yaml_load sample_queryRunner_update))
              sample_spec pointer "paths./users" empty_spec_state
              (fun pathKey => if bool_decide (pathKey = "/paths/~1users")
                              then Some 2%Z else None) 2%Z
              eq_refl eq_refl eq_refl eq_refl ltac:(done) ltac:(done))
    as (st1 & Hrun & Hparses & Hcache & _ & Hagain).
  exists st1. split; [exact Hrun|]. split; [exact Hparses|].
  split; [|exact Hagain].
  rewrite Hcache. apply lookup_insert_eq.
Defined.

(** C8 (as stated) fails: in a JSON spec on a single line every key is on
    line 0, so no location is cached. A batch of two new findings at the
    same pointer parses the spec twice and leaves the cache empty; resolved
    twice, the pointer is parsed for twice, and the second resolution finds
    no cached value. *)
Lemma createSpecDiffAlerts_line_zero_parsed_twice :
  let pointer := ["paths"; "/users"; "get"] in
  let items := [("Required property 'id' is missing from response body", pointer);
                ("Property 'age' is present in response body without being defined in OpenAPI Spec",
                 pointer)] in
  let batch := createSpecDiffAlerts sample_risk_score
                 (table_findOneBy empty_source) one_line_jsonMap_parse
                 sample_yaml_load sample_queryRunner_update (Some items)
                 "endpoint-1" (Some sample_trace) one_line_spec empty_spec_state in
  let first := locate_in_spec one_line_jsonMap_parse sample_yaml_load one_line_spec
                 pointer "paths./users.get" empty_spec_state in
  let second := locate_in_spec one_line_jsonMap_parse sample_yaml_load one_line_spec
                  pointer "paths./users.get" (snd first) in
  json_pointer pointer = "/paths/~1users/get"
  /\ join "." pointer = "paths./users.get"
  /\ match fst batch with inr alerts => length alerts | inl _ => 0%nat end = 2%nat
  /\ parses (snd batch) = 2%nat
  /\ minimizedSpecContext (snd batch) !! "paths./users.get" = None
  /\ fst first = inr tt /\ parses (snd first) = 1%nat
  /\ minimizedSpecContext (snd first) !! "paths./users.get" = None
  /\ fst second = inr tt /\ parses (snd second) = 2%nat
  /\ minimizedSpecContext (snd second) !! "paths./users.get" = None.
Proof. by vm_compute. Qed.

(** * Further properties *)

(** ** Lifecycle commands and the table *)

(** What a call to [updateAlert] can do: fail and leave the table, or move
    the alert it found and write it over the rows of that id. *)
Lemma updateAlert_outcome alertId p rows :
  (exists e, updateAlert alertId p rows = (inl e, rows))
  \/ (exists a s,
        find_row alertId rows = Some a
        /\ target_status (updateType p) = Some s
        /\ let a' := match updateType p with
                     | RESOLVE =>
                         set_resolutionMessage (set_status a RESOLVED)
                           (stored_message (params_resolutionMessage p))
                     | _ => set_status a s
                     end in
           updateAlert alertId p rows = (inr a', update_rows alertId a' rows)).
Proof.
  destruct p as [c msg]. destruct (find_row alertId rows) as [a|] eqn:Hfind.
  - destruct c; cbn [updateType params_resolutionMessage target_status].
    + rewrite (updateAlert_IGNORE_found _ _ _ _ Hfind).
      destruct (status a); [right|left|left]; unfold conflict; eauto.
    + rewrite (updateAlert_UNIGNORE_found _ _ _ _ Hfind).
      destruct (status a); [left|right|left]; unfold conflict; eauto.
    + rewrite (updateAlert_RESOLVE_found _ _ _ _ Hfind).
      destruct (status a); [right|left|left]; unfold conflict; eauto.
    + rewrite (updateAlert_UNRESOLVE_found _ _ _ _ Hfind).
      destruct (status a); [left|left|right]; unfold conflict; eauto.
    + left. rewrite updateAlert_unrecognized. eauto.
  - left. run_update Hfind. destruct c; eauto.
Qed.

Lemma update_rows_length alertId a rows :
  length (update_rows alertId a rows) = length rows.
Proof. unfold update_rows. apply length_map. Qed.

Lemma update_rows_other alertId a rows (i : nat) row :
  rows !! i = Some row -> uuid row <> alertId ->
  update_rows alertId a rows !! i = Some row.
Proof.
  intros Hi Hne. unfold update_rows.
  change (List.map ?f rows) with (f <$> rows).
  rewrite list_lookup_fmap, Hi. cbn. by rewrite bool_decide_eq_false_2.
Qed.

(** X1: a call to [updateAlert] never adds or removes a row and never
    changes a row of another id; a call that throws changes no row at all. *)
Theorem updateAlert_frame alertId p rows :
  length (snd (updateAlert alertId p rows)) = length rows
  /\ (forall (i : nat) row,
        rows !! i = Some row -> uuid row <> alertId ->
        snd (updateAlert alertId p rows) !! i = Some row)
  /\ (forall e, fst (updateAlert alertId p rows) = inl e ->
                snd (updateAlert alertId p rows) = rows).
Proof.
  destruct (updateAlert_outcome alertId p rows)
    as [[e ->]|(a & s & _ & _ & ->)]; cbn [fst snd].
  - done.
  - split; [apply update_rows_length|]. split; [|done].
    intros i row Hi Hne. by apply update_rows_other.
Qed.

(** X2: a successful command changes the status of the alert and, for
    [RESOLVE] only, its resolution message; identity, type, risk score,
    description, context, endpoint and creation time stay as they were, and
    the new status depends on the command alone. *)
Theorem updateAlert_touches_status_only alertId p rows a a' rows' :
  find_row alertId rows = Some a ->
  updateAlert alertId p rows = (inr a', rows') ->
  uuid a' = uuid a /\ type a' = type a /\ riskScore a' = riskScore a
  /\ description a' = description a /\ context a' = context a
  /\ apiEndpointUuid a' = apiEndpointUuid a /\ createdAt a' = createdAt a
  /\ target_status (updateType p) = Some (status a')
  /\ (updateType p <> RESOLVE -> resolutionMessage a' = resolutionMessage a).
Proof.
  intros Hfind Hrun.
  destruct (updateAlert_outcome alertId p rows)
    as [[e He]|(a0 & s & Hfind0 & Hs & Hrun0)]; [congruence|].
  cbn zeta in Hrun0. rewrite Hrun0 in Hrun. simplify_eq.
  destruct (updateType p); cbn in *; simplify_eq; done.
Qed.

Lemma updateAlert_touches_status_only_witness :
  let a := sample_alert "a1" OPEN None 2 10 in
  let p := {| updateType := IGNORE; params_resolutionMessage := Some "noise" |} in
  find_row "a1" [a] = Some a
  /\ updateAlert "a1" p [a] = (inr (set_status a IGNORED), [set_status a IGNORED])
  /\ resolutionMessage (set_status a IGNORED) = resolutionMessage a.
Proof.
  intros a p. split; [reflexivity|]. split; [reflexivity|].
  refine (proj2 (proj2 (proj2 (proj2 (proj2 (proj2 (proj2 (proj2
            (updateAlert_touches_status_only "a1" p [a] a (set_status a IGNORED)
               [set_status a IGNORED] eq_refl eq_refl)))))))) _).
  discriminate.
Defined.

(** X3: repeating a command that has just succeeded is rejected with a
    conflict and changes nothing: no command can be applied twice in a row. *)
Theorem updateAlert_repeat_conflicts alertId p p' rows a' rows' :
  updateAlert alertId p rows = (inr a', rows') ->
  updateType p' = updateType p ->
  exists message,
    updateAlert alertId p' rows' = (inl (Error409Conflict message), rows').
Proof.
  intros Hrun Hsame.
  destruct (updateAlert_outcome alertId p rows)
    as [[e He]|(a & s & Hfind & Hs & Hrun0)]; [congruence|].
  cbn zeta in Hrun0. rewrite Hrun0 in Hrun. injection Hrun as Ha' Hrows'.
  assert (Hfind' : find_row alertId rows' = Some a').
  { rewrite Ha' in Hrows'. subst rows'. apply (find_row_update _ _ a); [done|].
    rewrite <- Ha'. destruct (updateType p); cbn; by eapply find_row_uuid. }
  assert (Hst : status a' = s).
  { rewrite <- Ha'. destruct (updateType p); cbn in *; by simplify_eq. }
  destruct p' as [c' msg']. cbn in Hsame. subst c' s. clear Ha' Hrun0.
  destruct (updateType p); cbn in Hs; try discriminate Hs; injection Hs as Hst.
  - rewrite (updateAlert_IGNORE_found _ _ _ _ Hfind'), <- Hst. unfold conflict. eauto.
  - rewrite (updateAlert_UNIGNORE_found _ _ _ _ Hfind'), <- Hst. unfold conflict. eauto.
  - rewrite (updateAlert_RESOLVE_found _ _ _ _ Hfind'), <- Hst. unfold conflict. eauto.
  - rewrite (updateAlert_UNRESOLVE_found _ _ _ _ Hfind'), <- Hst. unfold conflict. eauto.
Qed.

Lemma updateAlert_repeat_conflicts_witness :
  let a := sample_alert "a1" OPEN None 2 10 in
  let p := {| updateType := RESOLVE; params_resolutionMessage := Some "patched" |} in
  let a' := set_resolutionMessage (set_status a RESOLVED) (Some "patched") in
  updateAlert "a1" p [a] = (inr a', [a'])
  /\ exists message,
       updateAlert "a1" {| updateType := RESOLVE; params_resolutionMessage := None |} [a']
       = (inl (Error409Conflict message), [a']).
Proof.
  intros a p a'. split; [reflexivity|].
  exact (updateAlert_repeat_conflicts "a1" p
           {| updateType := RESOLVE; params_resolutionMessage := None |}
           [a] a' [a'] eq_refl eq_refl).
Defined.

Lemma find_row_update_other alertId other a' rows :
  uuid a' = alertId -> other <> alertId ->
  find_row other (update_rows alertId a' rows) = find_row other rows.
Proof.
  intros Hu Hne. unfold find_row, update_rows.
  induction rows as [|r rows IH]; cbn; [done|].
  rewrite IH. destruct (bool_decide (uuid r = alertId)) eqn:Hr; [|done].
  apply bool_decide_eq_true in Hr.
  by rewrite !bool_decide_eq_false_2 by congruence.
Qed.

(** X4: undoing a command. [IGNORE] followed by [UNIGNORE] hands back an
    OPEN alert exactly as it was; [RESOLVE] followed by [UNRESOLVE] hands it
    back OPEN as well, but with the resolution message that [RESOLVE]
    stored. Both leave the rows of other ids as they were. *)
Theorem updateAlert_undo alertId msg msg' rows a :
  find_row alertId rows = Some a ->
  status a = OPEN ->
  let run c m := updateAlert alertId {| updateType := c; params_resolutionMessage := m |} in
  (exists rows1 rows2,
     run IGNORE msg rows = (inr (set_status a IGNORED), rows1)
     /\ run UNIGNORE msg' rows1 = (inr a, rows2)
     /\ find_row alertId rows2 = Some a
     /\ forall (i : nat) row, rows !! i = Some row -> uuid row <> alertId ->
                              rows2 !! i = Some row)
  /\ (exists a1 rows1 rows2,
        run RESOLVE msg rows = (inr a1, rows1)
        /\ run UNRESOLVE msg' rows1
           = (inr (set_resolutionMessage a (stored_message msg)), rows2)
        /\ find_row alertId rows2
           = Some (set_resolutionMessage a (stored_message msg))
        /\ forall (i : nat) row, rows !! i = Some row -> uuid row <> alertId ->
                                 rows2 !! i = Some row).
Proof.
  intros Hfind Hopen run. subst run. cbn beta.
  pose proof (find_row_uuid _ _ _ Hfind) as Huuid.
  split.
  - assert (Hfind1 : find_row alertId (update_rows alertId (set_status a IGNORED) rows)
                     = Some (set_status a IGNORED))
      by by apply (find_row_update _ _ a).
    assert (Hback : set_status (set_status a IGNORED) OPEN = a)
      by (destruct a; cbn in *; by subst).
    exists (update_rows alertId (set_status a IGNORED) rows),
           (update_rows alertId a (update_rows alertId (set_status a IGNORED) rows)).
    split; [by rewrite (updateAlert_IGNORE_found _ _ _ _ Hfind), Hopen|].
    split.
    { rewrite (updateAlert_UNIGNORE_found _ _ _ _ Hfind1). cbn [status set_status].
      by rewrite Hback. }
    split; [by apply (find_row_update _ _ (set_status a IGNORED))|].
    intros i row Hi Hne. by do 2 (apply update_rows_other; [|done]).
  - set (a1 := set_resolutionMessage (set_status a RESOLVED) (stored_message msg)).
    set (a2 := set_resolutionMessage a (stored_message msg)).
    assert (Hfind1 : find_row alertId (update_rows alertId a1 rows) = Some a1)
      by by apply (find_row_update _ _ a).
    assert (Hback : set_status a1 OPEN = a2)
      by (destruct a; cbn in *; by subst).
    exists a1, (update_rows alertId a1 rows),
           (update_rows alertId a2 (update_rows alertId a1 rows)).
    split; [by rewrite (updateAlert_RESOLVE_found _ _ _ _ Hfind), Hopen|].
    split.
    { rewrite (updateAlert_UNRESOLVE_found _ _ _ _ Hfind1).
      cbn [status set_status a1 set_resolutionMessage]. by rewrite <- Hback. }
    split; [by apply (find_row_update _ _ a1)|].
    intros i row Hi Hne. by do 2 (apply update_rows_other; [|done]).
Qed.

Lemma updateAlert_undo_witness :
  let a := sample_alert "a1" OPEN None 2 10 in
  let b := sample_alert "a2" IGNORED None 1 5 in
  find_row "a1" [b; a] = Some a
  /\ status a = OPEN
  /\ exists rows1 rows2,
       updateAlert "a1" {| updateType := IGNORE; params_resolutionMessage := None |}
         [b; a] = (inr (set_status a IGNORED), rows1)
       /\ updateAlert "a1" {| updateType := UNIGNORE; params_resolutionMessage := None |}
            rows1 = (inr a, rows2)
       /\ find_row "a1" rows2 = Some a.
Proof.
  intros a b. split; [reflexivity|]. split; [reflexivity|].
  destruct (proj1 (updateAlert_undo "a1" None None [b; a] a eq_refl eq_refl))
    as (rows1 & rows2 & H1 & H2 & H3 & _).
  exists rows1, rows2. split; [exact H1|]. split; [exact H2|exact H3].
Defined.

(** X5: reading after writing. After a successful command, [getAlert] of
    the same id returns the alert the command returned, and [getAlert] of any
    other id returns what it returned before. *)
Theorem getAlert_after_updateAlert alertId p rows a' rows' other :
  updateAlert alertId p rows = (inr a', rows') ->
  getAlert alertId rows' = (inr (Some a'), rows')
  /\ (other <> alertId -> fst (getAlert other rows') = fst (getAlert other rows)).
Proof.
  intros Hrun.
  destruct (updateAlert_outcome alertId p rows)
    as [[e He]|(a & s & Hfind & Hs & Hrun0)]; [congruence|].
  cbn zeta in Hrun0. rewrite Hrun0 in Hrun. injection Hrun as Ha' Hrows'.
  rewrite Ha' in Hrows'. subst rows'.
  assert (Huuid : uuid a' = alertId).
  { rewrite <- Ha'. destruct (updateType p); cbn; by eapply find_row_uuid. }
  unfold getAlert. cbn [fst]. split.
  - f_equal. f_equal. by apply (find_row_update _ _ a).
  - intros Hne. f_equal. by apply find_row_update_other.
Qed.

Lemma getAlert_after_updateAlert_witness :
  let a := sample_alert "a1" OPEN None 2 10 in
  let b := sample_alert "a2" IGNORED None 1 5 in
  let p := {| updateType := IGNORE; params_resolutionMessage := None |} in
  updateAlert "a1" p [b; a] = (inr (set_status a IGNORED), [b; set_status a IGNORED])
  /\ getAlert "a1" [b; set_status a IGNORED]
     = (inr (Some (set_status a IGNORED)), [b; set_status a IGNORED]).
Proof.
  intros a b p. split; [reflexivity|].
  exact (proj1 (getAlert_after_updateAlert "a1" p [b; a] (set_status a IGNORED)
                  [b; set_status a IGNORED] "a2" eq_refl)).
Defined.

(** ** Filtering and paging of the listing *)

Lemma getAlerts_unfold status_rank tie_rank db alertParams :
  getAlerts status_rank tie_rank db alertParams
  = findAndCount status_rank tie_rank db (getAlerts_where alertParams)
      (truthy_nat (alertParams ≫= offset)) (truthy_nat (alertParams ≫= limit))
      [(col_status, DESC);
       (col_riskScore, default DESC (alertParams ≫= order));
       (col_createdAt, DESC)].
Proof.
  unfold getAlerts, getAlerts_where. f_equal.
  - destruct (truthy_string _), (alertParams ≫= alertTypes),
      (alertParams ≫= riskScores), (alertParams ≫= hosts),
      (alertParams ≫= params_status); reflexivity.
  - by destruct (alertParams ≫= order).
Qed.

Lemma operator_matches_In {A} `{EqDecision A} (vs : option (list A)) (x : A) :
  operator_matches (In <$> vs) x = true <-> forall l, vs = Some l -> x ∈ l.
Proof.
  destruct vs as [l|]; cbn.
  - rewrite bool_decide_eq_true. split; [by intros ? ? [= <-]|auto].
  - split; [done|auto].
Qed.

Lemma getAlerts_where_matches db alertParams a :
  where_matches db (getAlerts_where alertParams) a = true
  <-> satisfies_filters db alertParams a.
Proof.
  unfold where_matches, satisfies_filters, getAlerts_where.
  cbn [where_apiEndpointUuid where_type where_riskScore where_host where_status
       where_description operator_matches].
  rewrite andb_true_r, !andb_true_iff, !operator_matches_In.
  assert (Huuid : operator_matches
                    (Equal <$> truthy_string (alertParams ≫= params_apiEndpointUuid))
                    (apiEndpointUuid a) = true
                  <-> forall u, alertParams ≫= params_apiEndpointUuid = Some u ->
                                u <> "" -> apiEndpointUuid a = u).
  { destruct (alertParams ≫= params_apiEndpointUuid) as [[|c u]|]; cbn.
    - split; [by intros _ ? [= <-]|done].
    - rewrite bool_decide_eq_true. split; [by intros ? ? [= <-]|auto].
    - split; [done|auto]. }
  assert (Hhost : host_matches db (In <$> (alertParams ≫= hosts)) a = true
                  <-> forall hs, alertParams ≫= hosts = Some hs ->
                        exists e, e ∈ endpoint_rows db
                                  /\ endpoint_uuid e = apiEndpointUuid a
                                  /\ endpoint_host e ∈ hs).
  { unfold host_matches. destruct (alertParams ≫= hosts) as [hs|]; cbn.
    - rewrite existsb_exists. split.
      + intros (e & Hin & He) ? [= <-]. apply andb_true_iff in He as [H1 H2].
        apply bool_decide_eq_true in H1, H2. exists e.
        by rewrite list_elem_of_In.
      + intros H. destruct (H hs eq_refl) as (e & Hin & H1 & H2). exists e.
        rewrite <- list_elem_of_In. split; [done|].
        by rewrite andb_true_iff, !bool_decide_eq_true.
    - split; [done|auto]. }
  rewrite Huuid, Hhost. tauto.
Qed.

Lemma findAndCount_page_subseteq status_rank tie_rank db w skip take_ o :
  fst (findAndCount status_rank tie_rank db w skip take_ o)
  ⊆ List.filter (where_matches db w) (alert_rows db).
Proof.
  unfold findAndCount. cbn [fst].
  set (sorted := merge_sort _ _).
  assert (Hs : sorted ⊆ List.filter (where_matches db w) (alert_rows db)).
  { intros x Hx. subst sorted. by rewrite merge_sort_Permutation in Hx. }
  intros x Hx. apply Hs.
  destruct take_ as [n|]; [apply (sublist_subseteq _ _ (sublist_take _ n)) in Hx|];
    (destruct skip as [k|]; [by apply (sublist_subseteq _ _ (sublist_drop _ k)) in Hx|done]).
Qed.

Lemma getAlerts_elem_of status_rank tie_rank db alertParams a :
  a ∈ fst (getAlerts status_rank tie_rank db alertParams) ->
  a ∈ alert_rows db /\ satisfies_filters db alertParams a.
Proof.
  rewrite getAlerts_unfold. intros Ha.
  apply findAndCount_page_subseteq, list_elem_of_In, filter_In in Ha as [Hin Hm].
  split; [by apply list_elem_of_In|by apply getAlerts_where_matches].
Qed.

(** X6: every alert [getAlerts] returns is a stored alert that passes every
    filter the caller supplied (endpoint id, types, risk scores, hosts of the
    joined endpoint, statuses); an empty endpoint id counts as no filter. *)
Theorem getAlerts_sound status_rank tie_rank db alertParams a :
  a ∈ fst (getAlerts status_rank tie_rank db alertParams) ->
  a ∈ alert_rows db /\ satisfies_filters db alertParams a.
Proof.
  rewrite getAlerts_unfold. intros Ha.
  apply findAndCount_page_subseteq in Ha.
  apply list_elem_of_In, filter_In in Ha as [Hin Hmatch].
  split.
  - by apply list_elem_of_In.
  - by apply getAlerts_where_matches.
Qed.

Lemma getAlerts_sound_witness :
  let a := sample_alert "a1" OPEN None 2 10 in
  let b := sample_alert "a2" RESOLVED None 3 20 in
  let db := {| alert_rows := [a; b]; endpoint_rows := [] |} in
  let p := {| params_apiEndpointUuid := Some ""; alertTypes := None;
              riskScores := None; hosts := None; params_status := Some [OPEN];
              offset := Some 0%nat; limit := Some 10%nat; order := None |} in
  fst (getAlerts sample_status_rank sample_tie_rank db (Some p)) = [a]
  /\ a ∈ alert_rows db /\ satisfies_filters db (Some p) a.
Proof.
  intros a b db p. split; [by vm_compute|].
  apply (getAlerts_sound sample_status_rank sample_tie_rank db (Some p) a).
  change (a ∈ [a]). apply list_elem_of_here.
Defined.

(** X7: the unpaged listing holds each matching row exactly once (it is a
    permutation of the rows that pass the filters), and the count returned
    beside any page is the length of that listing, whatever the offset, the
    limit and the direction are. *)
Theorem getAlerts_complete status_rank tie_rank db (p : GetAlertParams) :
  fst (getAlerts status_rank tie_rank db (Some (unpaged p)))
  ≡ₚ List.filter (where_matches db (getAlerts_where (Some p))) (alert_rows db)
  /\ snd (getAlerts status_rank tie_rank db (Some p))
     = length (fst (getAlerts status_rank tie_rank db (Some (unpaged p))))
  /\ (forall a, a ∈ alert_rows db -> satisfies_filters db (Some p) a ->
                a ∈ fst (getAlerts status_rank tie_rank db (Some (unpaged p)))).
Proof.
  rewrite !getAlerts_unfold. unfold findAndCount. cbn [fst snd].
  change (getAlerts_where (Some (unpaged p))) with (getAlerts_where (Some p)).
  cbn [mbind option_bind unpaged offset limit truthy_nat].
  split; [apply merge_sort_Permutation|]. split.
  - by rewrite merge_sort_Permutation.
  - intros a Hin Hsat. rewrite merge_sort_Permutation.
    apply list_elem_of_In, filter_In. split; [by apply list_elem_of_In|].
    by apply getAlerts_where_matches.
Qed.


(** X9: when the caller filters on a single status, the risk score decides
    the order of the listing: of two returned alerts with different risk
    scores, the one the direction puts first comes first. *)
Theorem getAlerts_single_status_order status_rank tie_rank db (p : GetAlertParams) s :
  params_status p = Some [s] ->
  risk_score_decides (default DESC (order p))
    (fst (getAlerts status_rank tie_rank db (Some p))).
Proof.
  intros Hstatus i j a b Hij Hi Hj Hrisk.
  assert (Hs : forall x, x ∈ fst (getAlerts status_rank tie_rank db (Some p)) -> status x = s).
  { intros x Hx. apply getAlerts_elem_of in Hx as (_ & _ & _ & _ & _ & Hx).
    specialize (Hx [s] Hstatus). by apply list_elem_of_singleton in Hx. }
  pose proof (StronglySorted_lookup _ _ _ _ _ _
                (getAlerts_sorted status_rank tie_rank db (Some p)) Hij Hi Hj) as Hle.
  unfold order_le, order_leb in Hle. cbn in Hle.
  rewrite (Hs a), (Hs b), Z.compare_refl in Hle
    by (eapply list_elem_of_lookup_2; eassumption).
  destruct (default DESC (order p)); cbn in Hle;
    destruct (Z.compare_spec (riskScore a) (riskScore b)); cbn in Hle;
    try done; lia.
Qed.

Lemma getAlerts_single_status_order_witness :
  let a := sample_alert "a1" OPEN None 1 10 in
  let b := sample_alert "a2" RESOLVED None 3 20 in
  let c := sample_alert "a3" OPEN None 2 30 in
  let db := {| alert_rows := [a; b; c]; endpoint_rows := [] |} in
  let p := {| params_apiEndpointUuid := None; alertTypes := None;
              riskScores := None; hosts := None; params_status := Some [OPEN];
              offset := None; limit := None; order := Some ASC |} in
  fst (getAlerts sample_status_rank sample_tie_rank db (Some p)) = [a; c]
  /\ risk_score_decides ASC (fst (getAlerts sample_status_rank sample_tie_rank db (Some p))).
Proof.
  intros a b c db p. split; [by vm_compute|].
  exact (getAlerts_single_status_order sample_status_rank sample_tie_rank db p OPEN eq_refl).
Defined.

(** ** The single-alert factory *)

(** X10: [createAlert] on a data source that answers. The description of
    the draft is the one supplied, unless it is missing or empty: then it is
    the default of the alert type, which for a new endpoint cites the path.
    The call returns null exactly when duplicates are to be avoided and an
    unresolved alert with the endpoint, type and description of the draft is
    persisted; otherwise it returns the draft, with the risk score of its
    type. It never throws and reads nothing else. *)
Theorem createAlert_table {S} risk (db : DataSource) alertType apiEndpoint
    description_ context_ noDuplicate (s : S) :
  exists d,
    let f := {| finding_uuid := endpoint_uuid apiEndpoint;
                finding_type := alertType;
                finding_description := d;
                finding_context := context_ |} in
    createAlert risk (table_findOneBy db) alertType apiEndpoint description_
      context_ noDuplicate s
    = (inr (if noDuplicate && persisted_unresolved db f then None
            else Some (draft_of risk f)), s)
    /\ (forall x, description_ = Some x -> x <> "" -> d = x)
    /\ (description_ = None \/ description_ = Some "" ->
        d = match alertType with
            | NEW_ENDPOINT =>
                "A new endpoint has been detected: " +:+ endpoint_path apiEndpoint +:+ "."
            | OPEN_API_SPEC_DIFF => "A OpenAPI Spec diff has been detected."
            | PII_DATA_DETECTED => "PII Data has been detected."
            | _ => "A new alert."
            end).
Proof.
  exists (match truthy_string description_ with
          | Some d => d
          | None =>
              match alertType with
              | NEW_ENDPOINT =>
                  "A new endpoint has been detected: "
                    +:+ endpoint_path apiEndpoint +:+ "."
              | OPEN_API_SPEC_DIFF => "A OpenAPI Spec diff has been detected."
              | PII_DATA_DETECTED => "PII Data has been detected."
              | _ => "A new alert."
              end
          end).
  cbn zeta. split; [|split].
  - unfold createAlert. mrun. destruct noDuplicate; cbn [andb].
    + match goal with
      | |- context [existingUnresolvedAlert _ ?u ?t ?d] =>
          pose proof (existingUnresolvedAlert_table db
                        {| finding_uuid := u; finding_type := t;
                           finding_description := d;
                           finding_context := context_ |}) as Hlookup
      end.
      cbn [finding_uuid finding_type finding_description] in Hlookup.
      rewrite Hlookup. cbn [fst snd]. unfold persisted_unresolved.
      rewrite <- find_existsb.
      cbn [finding_uuid finding_type finding_description].
      destruct (List.find _ _); reflexivity.
    + reflexivity.
  - intros x -> Hx. by destruct x.
  - by intros [-> | ->].
Qed.

(** ** What the data-field batch pushes *)

Section Pushes.

Variable ALERT_TYPE_TO_RISK_SCORE : AlertType -> Z.
Variable DATA_SECTION_TO_LABEL_MAP : DataSection -> string.
Variable getPathTokens : string -> list string.
Variable findOneBy : FindOptionsWhere -> exn + option Alert.

Lemma pushes_ret {A} P (a : A) : pushes_only P (ret a).
Proof. intros batch. exists []. cbn. by rewrite app_nil_r. Qed.

Lemma pushes_push (P : Alert -> Prop) a : P a -> pushes_only P (push a).
Proof. intros Ha batch. exists [a]. split; [done|by constructor]. Qed.

Lemma pushes_bind {A B} P (c : M (list Alert) A) (k : A -> M (list Alert) B) :
  pushes_only P c -> (forall a, pushes_only P (k a)) ->
  pushes_only P (x <- c ;; k x).
Proof.
  intros Hc Hk batch. unfold bind.
  destruct (Hc batch) as (app1 & H1 & HP1).
  destruct (c batch) as [[err|a] s1]; cbn in *.
  - by exists app1.
  - destruct (Hk a s1) as (app2 & H2 & HP2). exists (app1 ++ app2).
    split; [by rewrite H2, H1, app_assoc|by apply Forall_app].
Qed.

Lemma pushes_for_of {A} P (xs : list A) (body : A -> M (list Alert) unit) :
  (forall x, pushes_only P (body x)) -> pushes_only P (for_of xs body).
Proof.
  intros Hbody. induction xs as [|x xs IH]; cbn; [apply pushes_ret|].
  apply pushes_bind; auto.
Qed.

Lemma pushes_existing P uuid_ type_ description_ :
  pushes_only P (existing_draft_or_unresolved findOneBy uuid_ type_ description_).
Proof.
  intros batch. exists []. rewrite app_nil_r. split; [|done].
  unfold existing_draft_or_unresolved. mrun.
  destruct (existingDataFieldAlert _ _ _); [done|].
  by destruct (existingUnresolvedAlert _ _ _ _) as [err|[a|]].
Qed.

(** The guarded push both loops make. *)
Lemma pushes_guarded (P : Alert -> Prop) uuid_ type_ context_ description_ :
  P (newAlert ALERT_TYPE_TO_RISK_SCORE type_ uuid_ context_ description_) ->
  pushes_only P
    (existing <- existing_draft_or_unresolved findOneBy uuid_ type_ description_ ;;
     if existing then ret tt
     else push (newAlert ALERT_TYPE_TO_RISK_SCORE type_ uuid_ context_ description_)).
Proof.
  intros HP. apply pushes_bind; [apply pushes_existing|].
  intros existing. destruct existing; [apply pushes_ret|by apply pushes_push].
Qed.

Lemma pushes_scan P uuid_ apiTrace hs found :
  (existsb is_basic_auth_header hs = true ->
   P (newAlert ALERT_TYPE_TO_RISK_SCORE BASIC_AUTHENTICATION_DETECTED uuid_
        (ctx_trace apiTrace) basicAuthDescription)) ->
  pushes_only P (scan_requestHeaders ALERT_TYPE_TO_RISK_SCORE findOneBy
                   uuid_ apiTrace hs found).
Proof.
  revert found. induction hs as [|header hs IH]; intros found HP;
    cbn [scan_requestHeaders]; [apply pushes_ret|].
  destruct found; [apply pushes_ret|].
  cbn [existsb] in HP. fold (is_basic_auth_header header).
  destruct (is_basic_auth_header header); cbn [orb] in HP.
  - apply pushes_bind; [apply pushes_existing|]. intros existing.
    apply pushes_bind.
    + destruct existing; [apply pushes_ret|apply pushes_push; auto].
    + intros _. destruct hs; apply pushes_ret.
  - by apply IH.
Qed.

Lemma alertsToAdd_types dataField dataClass path_ apiTrace :
  Forall (fun alert => add_type alert ∈ [PII_DATA_DETECTED; QUERY_SENSITIVE_DATA;
                                         PATH_SENSITIVE_DATA])
    (alertsToAdd DATA_SECTION_TO_LABEL_MAP getPathTokens dataField dataClass
       path_ apiTrace).
Proof.
  unfold alertsToAdd. repeat apply Forall_app_2.
  - apply Forall_singleton. cbn. set_solver.
  - case_bool_decide; [|by constructor]. apply Forall_singleton. cbn. set_solver.
  - case_bool_decide; [|by constructor].
    destruct (scan_pathTokens _ _ _ _ _). apply Forall_singleton. cbn. set_solver.
Qed.

Lemma pushes_dataField (P : Alert -> Prop) uuid_ path_ apiTrace dataField :
  (dataSection dataField = REQUEST_HEADER ->
   forall hs, apiTrace ≫= requestHeaders = Some hs ->
              existsb is_basic_auth_header hs = true ->
              P (newAlert ALERT_TYPE_TO_RISK_SCORE BASIC_AUTHENTICATION_DETECTED uuid_
                   (ctx_trace apiTrace) basicAuthDescription)) ->
  (forall type_ context_ description_,
     type_ ∈ [PII_DATA_DETECTED; QUERY_SENSITIVE_DATA; PATH_SENSITIVE_DATA] ->
     P (newAlert ALERT_TYPE_TO_RISK_SCORE type_ uuid_ context_ description_)) ->
  pushes_only P (dataField_alerts ALERT_TYPE_TO_RISK_SCORE DATA_SECTION_TO_LABEL_MAP
                   getPathTokens findOneBy uuid_ path_ apiTrace dataField).
Proof.
  intros Hbasic Hother. unfold dataField_alerts. apply pushes_bind.
  - case_bool_decide as Hsec; [|apply pushes_ret].
    destruct (apiTrace ≫= requestHeaders) as [hs|] eqn:Hhs; [|apply pushes_ret].
    apply pushes_scan. by apply Hbasic.
  - intros _. destruct (dataClasses dataField); [|apply pushes_ret].
    apply pushes_for_of. intros dataClass.
    pose proof (alertsToAdd_types dataField dataClass path_ apiTrace) as Htypes.
    induction Htypes as [|alert adds Halert _ IH]; cbn [for_of]; [apply pushes_ret|].
    apply pushes_bind; [|by intros _].
    apply pushes_guarded. by apply Hother.
Qed.

End Pushes.

(** X11: whatever the repository answers, and whether the call completes or
    is cut short by an exception, every draft [createDataFieldAlerts] puts
    into the caller's array carries the endpoint id it was given, the risk
    score of its type, no resolution message, and one of the types
    BASIC_AUTHENTICATION_DETECTED, PII_DATA_DETECTED, QUERY_SENSITIVE_DATA,
    PATH_SENSITIVE_DATA. *)
Theorem createDataFieldAlerts_drafts risk label tokens findOneBy
    dfs uuid_ path_ apiTrace (a : loc) (h : Heap) init :
  h !! a = Some init ->
  exists appended,
    snd (createDataFieldAlerts risk label tokens findOneBy (Some dfs) uuid_ path_
           apiTrace (Some a) h) !! a = Some (init ++ appended)
    /\ Forall (dataField_draft risk uuid_) appended.
Proof.
  intros Hinit.
  destruct (createDataFieldAlerts_run risk label tokens findOneBy dfs uuid_ path_
              apiTrace (Some a) h init Hinit) as (Hrun & Hlook & Hlt).
  cbn zeta in Hrun, Hlook, Hlt.
  assert (Hpush : pushes_only (dataField_draft risk uuid_)
                    (for_of dfs (dataField_alerts risk label tokens findOneBy
                                   uuid_ path_ apiTrace))).
  { apply pushes_for_of. intros dataField. apply pushes_dataField.
    - intros _ hs _ _. repeat split; cbn; try done. apply list_elem_of_here.
    - intros type_ context_ description_ Htype. repeat split; cbn; try done.
      by apply list_elem_of_further. }
  destruct (Hpush init) as (appended & Happ & HP).
  exists appended. split; [|done]. rewrite Hrun, <- Happ.
  unfold Heap, loc in *.
  destruct (fst _); cbn [snd]; [|done].
  by rewrite lookup_app_l by by rewrite length_insert.
Qed.

Lemma createDataFieldAlerts_drafts_witness :
  let dataField := {| dataSection := REQUEST_QUERY; dataPath := "email";
                      dataClasses := Some ["Email"] |} in
  ([[]] : Heap) !! (0%nat : loc) = Some []
  /\ exists appended,
       snd (createDataFieldAlerts sample_risk_score sample_section_label
              sample_path_tokens (failing_on QUERY_SENSITIVE_DATA) (Some [dataField])
              "endpoint-1" "/search" (Some sample_trace) (Some 0%nat) [[]])
         !! (0%nat : loc) = Some appended
       /\ length appended = 1%nat
       /\ Forall (dataField_draft sample_risk_score "endpoint-1") appended.
Proof.
  intros dataField. split; [reflexivity|].
  destruct (createDataFieldAlerts_drafts sample_risk_score sample_section_label
              sample_path_tokens (failing_on QUERY_SENSITIVE_DATA) [dataField]
              "endpoint-1" "/search" (Some sample_trace) 0%nat [[]] [] eq_refl)
    as (appended & Hlook & HP).
  exists appended. split; [exact Hlook|]. split; [|exact HP].
  vm_compute in Hlook. by injection Hlook as <-.
Defined.

(** ** The batch never holds a draft twice *)

Section Unique.

Variable ALERT_TYPE_TO_RISK_SCORE : AlertType -> Z.
Variable DATA_SECTION_TO_LABEL_MAP : DataSection -> string.
Variable getPathTokens : string -> list string.
Variable findOneBy : FindOptionsWhere -> exn + option Alert.
Variable apiEndpointUuid_ : string.

#[local] Abbreviation unique := (unique_drafts apiEndpointUuid_).

Lemma keeps_ret {A} I (a : A) : keeps I (ret a).
Proof. by intros batch. Qed.

Lemma keeps_bind {A B} I (c : M (list Alert) A) (k : A -> M (list Alert) B) :
  keeps I c -> (forall a, keeps I (k a)) -> keeps I (x <- c ;; k x).
Proof.
  intros Hc Hk batch HI. unfold bind. specialize (Hc batch HI).
  destruct (c batch) as [[err|a] s1]; cbn in *; [done|]. by apply Hk.
Qed.

Lemma keeps_for_of {A} I (xs : list A) (body : A -> M (list Alert) unit) :
  (forall x, keeps I (body x)) -> keeps I (for_of xs body).
Proof.
  intros Hbody. induction xs as [|x xs IH]; cbn; [apply keeps_ret|].
  apply keeps_bind; auto.
Qed.

Lemma unique_snoc batch type_ context_ description_ :
  unique batch ->
  existingDataFieldAlert (Some batch) apiEndpointUuid_ description_ = false ->
  unique (batch ++ [newAlert ALERT_TYPE_TO_RISK_SCORE type_ apiEndpointUuid_
                      context_ description_]).
Proof.
  unfold unique_drafts, existingDataFieldAlert. intros Hu Hex.
  rewrite List.filter_app, fmap_app. cbn.
  rewrite bool_decide_eq_true_2 by done. cbn.
  apply NoDup_app. split; [done|]. split; [|apply NoDup_singleton].
  intros d Hd ->%list_elem_of_singleton.
  apply list_elem_of_fmap in Hd as (a & Hdesc & Ha).
  apply list_elem_of_In, filter_In in Ha as [Hin Huuid].
  apply not_true_iff_false in Hex. apply Hex, existsb_exists.
  exists a. split; [done|]. by rewrite Huuid, bool_decide_eq_true_2.
Qed.

Lemma keeps_guarded type_ context_ description_ :
  keeps unique
    (existing <- existing_draft_or_unresolved findOneBy apiEndpointUuid_ type_
                   description_ ;;
     if existing then ret tt
     else push (newAlert ALERT_TYPE_TO_RISK_SCORE type_ apiEndpointUuid_ context_
                  description_)).
Proof.
  intros batch Hu. unfold existing_draft_or_unresolved. mrun.
  destruct (existingDataFieldAlert _ _ _) eqn:Hex; [done|].
  destruct (existingUnresolvedAlert _ _ _ _) as [err|[a|]]; cbn; [done..|].
  by apply unique_snoc.
Qed.

Lemma keeps_scan apiTrace hs found :
  keeps unique (scan_requestHeaders ALERT_TYPE_TO_RISK_SCORE findOneBy
                  apiEndpointUuid_ apiTrace hs found).
Proof.
  revert found. induction hs as [|header hs IH]; intros found;
    cbn [scan_requestHeaders]; [apply keeps_ret|].
  destruct found; [apply keeps_ret|].
  destruct (_ && _); [|apply IH].
  pose proof (keeps_guarded BASIC_AUTHENTICATION_DETECTED (ctx_trace apiTrace)
                basicAuthDescription) as Hstep.
  intros batch Hu. specialize (Hstep batch Hu). revert Hstep. unfold bind.
  destruct (existing_draft_or_unresolved _ _ _ _ _) as [[err|existing] s1];
    cbn [snd]; [done|].
  destruct (if existing then _ else _) as [[err|[]] s2]; cbn [snd]; [done|].
  intros Hs2. by apply IH.
Qed.

Lemma keeps_dataFields path_ apiTrace dfs :
  keeps unique
    (for_of dfs (dataField_alerts ALERT_TYPE_TO_RISK_SCORE DATA_SECTION_TO_LABEL_MAP
                   getPathTokens findOneBy apiEndpointUuid_ path_ apiTrace)).
Proof.
  apply keeps_for_of. intros dataField. unfold dataField_alerts. apply keeps_bind.
  - destruct (bool_decide _); [|apply keeps_ret].
    destruct (apiTrace ≫= requestHeaders); [apply keeps_scan|apply keeps_ret].
  - intros _. destruct (dataClasses dataField); [|apply keeps_ret].
    apply keeps_for_of. intros dataClass. apply keeps_for_of. intros alert.
    apply keeps_guarded.
Qed.

End Unique.

(** X12: [createDataFieldAlerts] never puts a draft into the caller's array
    whose endpoint and description a draft there already has. If no
    description occurs twice among the drafts of the endpoint before the
    call, none does after it, whatever the repository answers and whether
    the call completes or is cut short by an exception. *)
Theorem createDataFieldAlerts_unique risk label tokens findOneBy
    dfs uuid_ path_ apiTrace (a : loc) (h : Heap) init :
  h !! a = Some init ->
  unique_drafts uuid_ init ->
  exists batch,
    snd (createDataFieldAlerts risk label tokens findOneBy (Some dfs) uuid_ path_
           apiTrace (Some a) h) !! a = Some batch
    /\ unique_drafts uuid_ batch.
Proof.
  intros Hinit Hu.
  destruct (createDataFieldAlerts_run risk label tokens findOneBy dfs uuid_ path_
              apiTrace (Some a) h init Hinit) as (Hrun & Hlook & Hlt).
  cbn zeta in Hrun, Hlook, Hlt.
  pose proof (keeps_dataFields risk label tokens findOneBy uuid_ path_ apiTrace dfs
                init Hu) as Hkeep.
  eexists. split; [|exact Hkeep]. rewrite Hrun.
  unfold Heap, loc in *.
  destruct (fst _); cbn [snd]; [|done].
  by rewrite lookup_app_l by by rewrite length_insert.
Qed.

Lemma createDataFieldAlerts_unique_witness :
  let dataField := {| dataSection := REQUEST_HEADER; dataPath := "authorization";
                      dataClasses := Some ["Token"; "Token"] |} in
  ([[]] : Heap) !! (0%nat : loc) = Some []
  /\ unique_drafts "endpoint-1" []
  /\ exists batch,
       snd (createDataFieldAlerts sample_risk_score sample_section_label
              sample_path_tokens (table_findOneBy empty_source)
              (Some [dataField; dataField]) "endpoint-1" "/login"
              (Some sample_trace) (Some 0%nat) [[]]) !! (0%nat : loc) = Some batch
       /\ length batch = 2%nat
       /\ unique_drafts "endpoint-1" batch.
Proof.
  intros dataField. split; [reflexivity|]. split; [apply NoDup_nil_2|].
  destruct (createDataFieldAlerts_unique sample_risk_score sample_section_label
              sample_path_tokens (table_findOneBy empty_source)
              [dataField; dataField] "endpoint-1" "/login" (Some sample_trace)
              0%nat [[]] [] eq_refl (NoDup_nil_2 : unique_drafts "endpoint-1" []))
    as (batch & Hlook & Hu).
  exists batch. split; [exact Hlook|]. split; [|exact Hu].
  vm_compute in Hlook. by injection Hlook as <-.
Defined.

(** ** Running the data-field batch again *)

Section Idempotent.

Variable ALERT_TYPE_TO_RISK_SCORE : AlertType -> Z.
Variable db : DataSource.

#[local] Abbreviation policy := (batch_or_store_policy ALERT_TYPE_TO_RISK_SCORE db).

Lemma drafted_app batch more f :
  drafted batch f = true -> drafted (batch ++ more) f = true.
Proof. unfold drafted. rewrite existsb_app. by intros ->. Qed.

Lemma policy_extends batch fs : exists new, policy batch fs = batch ++ new.
Proof.
  revert batch. induction fs as [|f fs IH]; intros batch; cbn.
  - exists []. by rewrite app_nil_r.
  - destruct (_ || _); [apply IH|].
    destruct (IH (batch ++ [draft_of ALERT_TYPE_TO_RISK_SCORE f])) as [new ->].
    exists (draft_of ALERT_TYPE_TO_RISK_SCORE f :: new). by rewrite <- app_assoc.
Qed.

(** After a pass, every finding of the pass has a draft in the batch or a
    persisted unresolved alert. *)
Lemma policy_covers batch fs :
  Forall (fun f => drafted (policy batch fs) f || persisted_unresolved db f = true) fs.
Proof.
  revert batch. induction fs as [|f fs IH]; intros batch; [by constructor|].
  cbn [batch_or_store_policy]. constructor; [|apply IH].
  destruct (drafted batch f) eqn:Hd; cbn [orb].
  - destruct (policy_extends batch fs) as [new ->].
    by rewrite (drafted_app _ _ _ Hd).
  - destruct (persisted_unresolved db f) eqn:Hp; [by rewrite orb_true_r|].
    destruct (policy_extends (batch ++ [draft_of ALERT_TYPE_TO_RISK_SCORE f]) fs)
      as [new ->].
    rewrite drafted_app; [done|]. unfold drafted. rewrite existsb_app. cbn.
    by rewrite !bool_decide_eq_true_2, orb_true_r.
Qed.

Lemma policy_all_suppressed batch fs :
  Forall (fun f => drafted batch f || persisted_unresolved db f = true) fs ->
  policy batch fs = batch.
Proof.
  induction 1 as [|f fs Hf _ IH]; [done|]. cbn. by rewrite Hf.
Qed.

Lemma policy_idempotent batch fs : policy (policy batch fs) fs = policy batch fs.
Proof. apply policy_all_suppressed, policy_covers. Qed.

End Idempotent.

(** X13: on a data source that answers and does not change in between,
    running [createDataFieldAlerts] a second time with the same arguments
    and the same accumulator adds nothing: the second call returns the same
    reference and leaves every array as the first call left it. *)
Theorem createDataFieldAlerts_idempotent risk label tokens (db : DataSource)
    dfs uuid_ path_ apiTrace (a : loc) (h : Heap) init :
  h !! a = Some init ->
  let call := createDataFieldAlerts risk label tokens (table_findOneBy db)
                (Some dfs) uuid_ path_ apiTrace (Some a) in
  exists h1, call h = (inr a, h1) /\ call h1 = (inr a, h1).
Proof.
  intros Hinit call. subst call.
  set (fs := concat (dataField_findings label tokens uuid_ path_ apiTrace <$> dfs)).
  destruct (createDataFieldAlerts_run risk label tokens (table_findOneBy db)
              dfs uuid_ path_ apiTrace (Some a) h init Hinit) as (Hrun & Hlook & Hlt).
  rewrite dataFields_loop_table in Hrun, Hlook. cbn [fst snd] in Hrun, Hlook.
  fold fs in Hrun, Hlook.
  exists (<[a := batch_or_store_policy risk db init fs]> h).
  split; [exact Hrun|].
  destruct (createDataFieldAlerts_run risk label tokens (table_findOneBy db)
              dfs uuid_ path_ apiTrace (Some a)
              (<[a := batch_or_store_policy risk db init fs]> h)
              (batch_or_store_policy risk db init fs) Hlook) as (Hrun2 & _ & _).
  rewrite dataFields_loop_table in Hrun2. cbn [fst snd] in Hrun2. fold fs in Hrun2.
  rewrite Hrun2, policy_idempotent. unfold Heap, loc in *.
  by rewrite list_insert_insert_eq.
Qed.

Lemma createDataFieldAlerts_idempotent_witness :
  let dataField := {| dataSection := REQUEST_PATH; dataPath := "id";
                      dataClasses := Some ["Email"] |} in
  ([[]] : Heap) !! (0%nat : loc) = Some []
  /\ exists h1,
       createDataFieldAlerts sample_risk_score sample_section_label sample_path_tokens
         (table_findOneBy empty_source) (Some [dataField]) "endpoint-1"
         "/users/{id}/profile" (Some sample_trace) (Some 0%nat) [[]] = (inr 0%nat, h1)
       /\ createDataFieldAlerts sample_risk_score sample_section_label
            sample_path_tokens (table_findOneBy empty_source) (Some [dataField])
            "endpoint-1" "/users/{id}/profile" (Some sample_trace) (Some 0%nat) h1
          = (inr 0%nat, h1).
Proof.
  intros dataField. split; [reflexivity|].
  exact (createDataFieldAlerts_idempotent sample_risk_score sample_section_label
           sample_path_tokens empty_source [dataField] "endpoint-1"
           "/users/{id}/profile" (Some sample_trace) 0%nat [[]] [] eq_refl).
Defined.

Lemma pushes_for_of_Forall {A} P (xs : list A) (body : A -> M (list Alert) unit) :
  Forall (fun x => pushes_only P (body x)) xs -> pushes_only P (for_of xs body).
Proof.
  induction 1 as [|x xs Hx _ IH]; cbn; [apply pushes_ret|].
  apply pushes_bind; auto.
Qed.

(** X14: without a REQUEST_HEADER field among the data fields, or without a
    header named "authorization" whose value contains "basic " on the trace
    (in any case), [createDataFieldAlerts] puts no
    BASIC_AUTHENTICATION_DETECTED draft into the caller's array, whatever
    the repository answers. *)
Theorem createDataFieldAlerts_no_basic_auth risk label tokens findOneBy
    dfs uuid_ path_ apiTrace (a : loc) (h : Heap) init :
  h !! a = Some init ->
  Forall (fun dataField => dataSection dataField <> REQUEST_HEADER) dfs
  \/ (forall hs, apiTrace ≫= requestHeaders = Some hs ->
        Forall (fun header => toLowerCase (name header) <> "authorization"
                              \/ includes (toLowerCase (value header)) "basic " = false)
               hs) ->
  exists appended,
    snd (createDataFieldAlerts risk label tokens findOneBy (Some dfs) uuid_ path_
           apiTrace (Some a) h) !! a = Some (init ++ appended)
    /\ Forall (fun d => type d <> BASIC_AUTHENTICATION_DETECTED) appended.
Proof.
  intros Hinit Hno.
  destruct (createDataFieldAlerts_run risk label tokens findOneBy dfs uuid_ path_
              apiTrace (Some a) h init Hinit) as (Hrun & Hlook & Hlt).
  cbn zeta in Hrun, Hlook, Hlt.
  assert (Hpush : pushes_only (fun d => type d <> BASIC_AUTHENTICATION_DETECTED)
                    (for_of dfs (dataField_alerts risk label tokens findOneBy
                                   uuid_ path_ apiTrace))).
  { apply pushes_for_of_Forall, Forall_forall. intros dataField Hin.
    apply pushes_dataField.
    - intros Hsec hs Hhs Hbasic. exfalso. destruct Hno as [Hno|Hno].
      + eapply Forall_forall in Hno; [|exact Hin]. done.
      + specialize (Hno hs Hhs).
        apply existsb_exists in Hbasic as (header & Hheader & Hb).
        eapply Forall_forall in Hno; [|by apply list_elem_of_In].
        apply andb_true_iff in Hb as [Hn Hv]. apply bool_decide_eq_true in Hn.
        destruct Hno; congruence.
    - intros type_ context_ description_ Htype. cbn. intros ->.
      repeat (apply elem_of_cons in Htype as [Htype|Htype]; [done|]).
      by apply elem_of_nil in Htype. }
  destruct (Hpush init) as (appended & Happ & HP).
  exists appended. split; [|done]. rewrite Hrun, <- Happ.
  unfold Heap, loc in *.
  destruct (fst _); cbn [snd]; [|done].
  by rewrite lookup_app_l by by rewrite length_insert.
Qed.

Lemma createDataFieldAlerts_no_basic_auth_witness :
  let dataField := {| dataSection := REQUEST_QUERY; dataPath := "authorization";
                      dataClasses := Some ["Token"] |} in
  ([[]] : Heap) !! (0%nat : loc) = Some []
  /\ exists appended,
       snd (createDataFieldAlerts sample_risk_score sample_section_label
              sample_path_tokens (table_findOneBy empty_source) (Some [dataField])
              "endpoint-1" "/login" (Some sample_trace) (Some 0%nat) [[]])
         !! (0%nat : loc) = Some appended
       /\ Forall (fun d => type d <> BASIC_AUTHENTICATION_DETECTED) appended.
Proof.
  intros dataField. split; [reflexivity|].
  refine (createDataFieldAlerts_no_basic_auth sample_risk_score sample_section_label
            sample_path_tokens (table_findOneBy empty_source) [dataField]
            "endpoint-1" "/login" (Some sample_trace) 0%nat [[]] [] eq_refl _).
  left. apply Forall_singleton. discriminate.
Defined.

(** ** The position cited for a path parameter *)

Lemma scan_pathTokens_no_match dataPath_ dataClass tokens i acc :
  "{" +:+ dataPath_ +:+ "}" ∉ tokens ->
  scan_pathTokens dataPath_ dataClass tokens i acc = acc.
Proof.
  revert i acc. induction tokens as [|token tokens IH]; intros i acc Hno; [done|].
  cbn [scan_pathTokens]. apply not_elem_of_cons in Hno as [Hne Hno].
  rewrite bool_decide_eq_false_2 by done. by apply IH.
Qed.

Lemma scan_pathTokens_last dataPath_ dataClass pre post i acc :
  "{" +:+ dataPath_ +:+ "}" ∉ post ->
  scan_pathTokens dataPath_ dataClass (pre ++ ("{" +:+ dataPath_ +:+ "}") :: post) i acc
  = (Some (i + length pre)%nat,
     "Path Parameter at position " +:+ nat_to_string (i + length pre + 1)
       +:+ " contains sensitive data of type " +:+ dataClass +:+ ".").
Proof.
  intros Hpost. revert i acc. induction pre as [|token pre IH]; intros i acc.
  - cbn [app scan_pathTokens length]. rewrite bool_decide_eq_true_2 by done.
    rewrite scan_pathTokens_no_match by done. by rewrite Nat.add_0_r.
  - cbn [app scan_pathTokens length]. rewrite IH.
    by replace (S i + length pre)%nat with (i + S (length pre))%nat by lia.
Qed.

(** X15: the alerts for a sensitive path parameter. For a field of the
    request path, [createDataFieldAlerts] prepares the generic PII alert and
    one PATH_SENSITIVE_DATA alert. When the token "{name}" of the field
    occurs among the tokens of the endpoint path, the description cites the
    position of its last occurrence, counted from 1, and the context holds
    its index, counted from 0; when it does not occur, the description is
    the generic one and the index stays null. *)
Theorem alertsToAdd_path_parameter label tokens dataField dataClass path_ apiTrace :
  dataSection dataField = REQUEST_PATH ->
  let marker := "{" +:+ dataPath dataField +:+ "}" in
  let pii :=
    {| add_description :=
         "Sensitive data of type " +:+ dataClass
           +:+ " has been detected in field '" +:+ dataPath dataField
           +:+ "' of " +:+ label REQUEST_PATH +:+ ".";
       add_type := PII_DATA_DETECTED; add_context := ctx_trace apiTrace |} in
  (marker ∉ tokens path_ ->
   alertsToAdd label tokens dataField dataClass path_ apiTrace
   = [ pii;
       {| add_description :=
            "Path Parameters contain sensitive data of type " +:+ dataClass +:+ ".";
          add_type := PATH_SENSITIVE_DATA;
          add_context := ctx_path apiTrace None |} ])
  /\ (forall pre post,
        tokens path_ = pre ++ marker :: post -> marker ∉ post ->
        alertsToAdd label tokens dataField dataClass path_ apiTrace
        = [ pii;
            {| add_description :=
                 "Path Parameter at position " +:+ nat_to_string (length pre + 1)
                   +:+ " contains sensitive data of type " +:+ dataClass +:+ ".";
               add_type := PATH_SENSITIVE_DATA;
               add_context := ctx_path apiTrace (Some (length pre)) |} ]).
Proof.
  intros Hsec. cbn zeta. unfold alertsToAdd. rewrite Hsec.
  rewrite bool_decide_eq_false_2, bool_decide_eq_true_2 by done. split.
  - intros Hno. by rewrite scan_pathTokens_no_match.
  - intros pre post -> Hpost. by rewrite scan_pathTokens_last.
Qed.

Lemma alertsToAdd_path_parameter_witness :
  let dataField := {| dataSection := REQUEST_PATH; dataPath := "id";
                      dataClasses := Some ["Email"] |} in
  dataSection dataField = REQUEST_PATH
  /\ sample_path_tokens "/users/{id}/profile" = ["users"] ++ "{id}" :: ["profile"]
  /\ ("{id}" ∉ ["profile"])
  /\ fmap (M:=list) add_description
       (alertsToAdd sample_section_label sample_path_tokens dataField "Email"
          "/users/{id}/profile" None)
     = [ "Sensitive data of type Email has been detected in field 'id' of Request Path.";
         "Path Parameter at position 2 contains sensitive data of type Email." ].
Proof.
  intros dataField.
  assert (Hpost : "{id}" ∉ ["profile"]).
  { intros H. apply list_elem_of_singleton in H. discriminate H. }
  split; [reflexivity|]. split; [reflexivity|]. split; [exact Hpost|].
  rewrite (proj2 (alertsToAdd_path_parameter sample_section_label sample_path_tokens
                    dataField "Email" "/users/{id}/profile" None eq_refl)
             ["users"] ["profile"] eq_refl Hpost).
  reflexivity.
Defined.

(** ** Effects of the spec-diff batch *)

Lemma slice_length_window {A} (xs : list A) (n : Z) :
  (length (slice xs (n - 5) (n + 5)) <= 10)%nat.
Proof.
  unfold slice. rewrite length_take, length_drop.
  destruct (n - 5 <? 0)%Z eqn:Hs, (n + 5 <? 0)%Z eqn:He; lia.
Qed.

Lemma slice_window {A} (xs : list A) (n : Z) :
  (5 <= n)%Z -> (n + 5 <= Z.of_nat (length xs))%Z ->
  slice xs (n - 5) (n + 5) = take 10 (drop (Z.to_nat (n - 5)) xs).
Proof.
  intros H5 Hlen. unfold slice.
  destruct (n - 5 <? 0)%Z eqn:Hs; [lia|]. destruct (n + 5 <? 0)%Z eqn:He; [lia|].
  rewrite !Z.min_l by lia. f_equal. lia.
Qed.

Lemma slice_near_start {A} (xs : list A) (n : Z) :
  (0 < n < 5)%Z -> (10 <= length xs)%nat -> slice xs (n - 5) (n + 5) = [].
Proof.
  intros Hn Hlen. unfold slice.
  destruct (n - 5 <? 0)%Z eqn:Hs; [|lia]. destruct (n + 5 <? 0)%Z eqn:He; [lia|].
  replace (Z.to_nat _) with 0%nat by lia. done.
Qed.

Section SpecDiffEffects.

Variable ALERT_TYPE_TO_RISK_SCORE : AlertType -> Z.
Variable findOneBy : FindOptionsWhere -> exn + option Alert.
Variable jsonMap_parse : string -> exn + (string -> option Z).
Variable yaml_load : string -> exn + (list string -> option Z).
Variable queryRunner_update : string -> gmap string CacheEntry -> exn + unit.

#[local] Abbreviation locate := (locate_in_spec jsonMap_parse yaml_load).
#[local] Abbreviation step :=
  (specDiff_alert ALERT_TYPE_TO_RISK_SCORE findOneBy jsonMap_parse yaml_load
     queryRunner_update).

Lemma locate_in_spec_stored openApiSpec pathPointer key st :
  stored (snd (locate openApiSpec pathPointer key st)) = stored st.
Proof.
  unfold locate_in_spec. mrun.
  unfold set_minimizedSpecContext, count_parse, truthy_number.
  by repeat case_match; simplify_eq/=.
Qed.

(** What a resolution writes: nothing, or one entry under its own key,
    with a line number other than 0 and the lines around that line. *)
Lemma locate_in_spec_entry openApiSpec pathPointer key st k e :
  minimizedSpecContext (snd (locate openApiSpec pathPointer key st)) !! k = Some e ->
  minimizedSpecContext st !! k = Some e
  \/ (k = key /\ minimizedSpecContext st !! key = None
      /\ lineNumber e <> 0%Z
      /\ minimizedSpec e
         = join (String "010" "")
             (slice (split_lines (spec openApiSpec))
                (lineNumber e - 5) (lineNumber e + 5))).
Proof.
  unfold locate_in_spec. mrun.
  unfold set_minimizedSpecContext, count_parse, truthy_number.
  repeat case_match; simplify_eq/=; auto;
    (destruct (decide (k = key)) as [->|Hne];
     [rewrite lookup_insert_eq; intros [= <-]; right; cbn;
      repeat split; try done; lia
     |rewrite lookup_insert_ne by done; auto]).
Qed.

Lemma locate_in_spec_keeps openApiSpec pathPointer key st k e :
  minimizedSpecContext st !! k = Some e ->
  minimizedSpecContext (snd (locate openApiSpec pathPointer key st)) !! k = Some e.
Proof.
  intros Hk.
  pose proof (locate_in_spec_parses jsonMap_parse yaml_load openApiSpec
                pathPointer key st) as (_ & Hother & Hsame).
  destruct (decide (k = key)) as [->|Hne]; [by apply Hsame|].
  by rewrite Hother.
Qed.

Lemma spec_effects_refl openApiSpec completed st :
  spec_effects openApiSpec 0 [] completed st st.
Proof.
  split; [lia|]. split; [exists []; by rewrite app_nil_r|]. split; auto.
Qed.

Lemma spec_effects_trans openApiSpec n1 n2 keys1 keys2 c1 c2 st st1 st2 :
  (c2 = true -> c1 = true) ->
  spec_effects openApiSpec n1 keys1 c1 st st1 ->
  spec_effects openApiSpec n2 keys2 c2 st1 st2 ->
  spec_effects openApiSpec (n1 + n2) (keys1 ++ keys2) c2 st st2.
Proof.
  intros Hc (Hp1 & (w1 & Hw1 & Hl1 & He1 & Hn1) & Hk1 & Hg1)
    (Hp2 & (w2 & Hw2 & Hl2 & He2 & Hn2) & Hk2 & Hg2).
  split; [lia|]. split; [|split].
  - exists (w1 ++ w2). rewrite Hw2, Hw1, app_assoc, length_app.
    split; [done|]. split; [lia|]. split; [|by apply Forall_app].
    intros Hc2. rewrite He1, He2 by auto. done.
  - auto.
  - intros k e Hk. destruct (Hg2 k e Hk) as [Hk'|(Hin & Hrest)].
    + destruct (Hg1 k e Hk') as [?|(Hin & Hrest)]; [by left|right].
      split; [|done]. apply elem_of_app. by left.
    + right. split; [|done]. apply elem_of_app. by right.
Qed.

Lemma specDiff_alert_effects uuid_ apiTrace openApiSpec item acc st :
  let run := step uuid_ apiTrace openApiSpec item (acc, st) in
  spec_effects openApiSpec 1 [join "." (snd item)] (is_completed (fst run))
    st (snd (snd run)).
Proof.
  cbn zeta. unfold specDiff_alert. mrun.
  pose proof (locate_in_spec_parses jsonMap_parse yaml_load openApiSpec (snd item)
                (join "." (snd item)) st) as (Hparses & _).
  pose proof (locate_in_spec_stored openApiSpec (snd item)
                (join "." (snd item)) st) as Hstored.
  pose proof (locate_in_spec_entry openApiSpec (snd item)
                (join "." (snd item)) st) as Hentry.
  pose proof (locate_in_spec_keeps openApiSpec (snd item)
                (join "." (snd item)) st) as Hkeeps.
  assert (Hsame : forall c, c = false -> spec_effects openApiSpec 1
                               [join "." (snd item)] c st st).
  { intros c ->. split; [lia|]. split; [|split; auto].
    exists []. rewrite app_nil_r. split_and!; try done; cbn; lia. }
  assert (Hgain : forall st1 k e,
            (forall k e, minimizedSpecContext st1 !! k = Some e ->
                         minimizedSpecContext st !! k = Some e
                         \/ (k = join "." (snd item)
                             /\ minimizedSpecContext st !! join "." (snd item) = None
                             /\ lineNumber e <> 0%Z
                             /\ minimizedSpec e
                                = join (String "010" "")
                                    (slice (split_lines (spec openApiSpec))
                                       (lineNumber e - 5) (lineNumber e + 5)))) ->
            minimizedSpecContext st1 !! k = Some e ->
            minimizedSpecContext st !! k = Some e
            \/ (k ∈ [join "." (snd item)] /\ lineNumber e <> 0%Z
                /\ minimizedSpec e
                   = join (String "010" "")
                       (slice (split_lines (spec openApiSpec))
                          (lineNumber e - 5) (lineNumber e + 5)))).
  { intros st1 k e H Hk. destruct (H k e Hk) as [?|(-> & _ & ? & ?)]; [by left|].
    right. split; [apply list_elem_of_here|done]. }
  destruct (existingUnresolvedAlert _ _ _ _) as [err|[a|]]; cbn [fst snd is_completed].
  - by apply Hsame.
  - destruct (queryRunner_update _ _) as [err|[]]; cbn [fst snd is_completed];
      [by apply Hsame|].
    split; [cbn; lia|]. split; [|split; auto].
    exists [(spec_name openApiSpec, minimizedSpecContext st)].
    split_and!; try done; try (cbn; lia); by repeat constructor.
  - destruct (locate_in_spec _ _ _ _ _ _) as [[err|[]] st1];
      cbn [fst snd is_completed] in *.
    + split; [lia|]. split; [|split; [done|intros k e; apply (Hgain st1 k e Hentry)]].
      exists []. rewrite app_nil_r. split_and!; try done; cbn; lia.
    + destruct (queryRunner_update _ _) as [err|[]]; cbn [fst snd is_completed].
      * split; [lia|]. split; [|split; [done|intros k e; apply (Hgain st1 k e Hentry)]].
        exists []. rewrite app_nil_r. split_and!; try done; cbn; lia.
      * split; [cbn; lia|]. split; [|split; [done|intros k e; apply (Hgain st1 k e Hentry)]].
        exists [(spec_name openApiSpec, minimizedSpecContext st1)]. cbn.
        rewrite Hstored. split_and!; try done; try (cbn; lia); by repeat constructor.
Qed.

Lemma specDiff_loop_effects uuid_ apiTrace openApiSpec items acc st :
  let run := for_of items (step uuid_ apiTrace openApiSpec) (acc, st) in
  spec_effects openApiSpec (length items) ((fun item => join "." (snd item)) <$> items)
    (is_completed (fst run)) st (snd (snd run)).
Proof.
  cbn zeta. revert acc st. induction items as [|item items IH]; intros acc st.
  - apply spec_effects_refl.
  - cbn [for_of fmap list_fmap length]. unfold bind.
    pose proof (specDiff_alert_effects uuid_ apiTrace openApiSpec item acc st) as Hstep.
    cbn zeta in Hstep.
    destruct (specDiff_alert _ _ _ _ _ _ _ _ _ _) as [[err|[]] [acc1 st1]];
      cbn [fst snd is_completed] in *.
    + destruct Hstep as (Hp & (w & Hw & Hl & He & Hn) & Hk & Hg).
      split; [lia|]. split; [|split; [done|]].
      * exists w. repeat split; [done|lia|done|done].
      * intros k e Hke. destruct (Hg k e Hke) as [?|(Hin & ?)]; [by left|right].
        split; [|done]. apply list_elem_of_singleton in Hin as ->.
        apply list_elem_of_here.
    + apply (spec_effects_trans openApiSpec 1 (length items)
               [join "." (snd item)] _ true _ st st1); [done|done|apply IH].
Qed.

End SpecDiffEffects.

Lemma createSpecDiffAlerts_effects risk findOneBy jsonMap_parse yaml_load
    queryRunner_update items uuid_ apiTrace openApiSpec st :
  spec_effects openApiSpec (length items) ((fun item => join "." (snd item)) <$> items)
    (is_completed (fst (createSpecDiffAlerts_try risk findOneBy jsonMap_parse
                          yaml_load queryRunner_update (Some items) uuid_ apiTrace
                          openApiSpec st)))
    st
    (snd (createSpecDiffAlerts risk findOneBy jsonMap_parse yaml_load
            queryRunner_update (Some items) uuid_ apiTrace openApiSpec st)).
Proof.
  pose proof (specDiff_loop_effects risk findOneBy jsonMap_parse yaml_load
                queryRunner_update uuid_ apiTrace openApiSpec items [] st) as Hloop.
  cbn zeta in Hloop.
  unfold createSpecDiffAlerts, createSpecDiffAlerts_try. mrun.
  case_bool_decide as Hlen.
  - destruct items; [|done]. apply spec_effects_refl.
  - destruct (for_of _ _ _) as [[err|[]] [acc1 st1]]; cbn [fst snd is_completed] in *;
      exact Hloop.
Qed.

(** X16: parses and store updates of a spec-diff batch, whatever the
    repository, the parsers and the query runner do. A call parses the spec
    at most once per key and sends at most one update per key, each for the
    spec it was handed; a call whose [try] block completes has sent exactly
    one update per key, also for the keys whose finding was suppressed. *)
Theorem createSpecDiffAlerts_parses_and_updates risk findOneBy jsonMap_parse
    yaml_load queryRunner_update items uuid_ apiTrace openApiSpec st :
  let call := createSpecDiffAlerts risk findOneBy jsonMap_parse yaml_load
                queryRunner_update (Some items) uuid_ apiTrace openApiSpec st in
  let body := createSpecDiffAlerts_try risk findOneBy jsonMap_parse yaml_load
                queryRunner_update (Some items) uuid_ apiTrace openApiSpec st in
  (parses st <= parses (snd call) <= parses st + length items)%nat
  /\ exists writes,
       stored (snd call) = stored st ++ writes
       /\ (length writes <= length items)%nat
       /\ Forall (fun w => fst w = spec_name openApiSpec) writes
       /\ (forall alerts, fst body = inr alerts -> length writes = length items).
Proof.
  cbn zeta.
  destruct (createSpecDiffAlerts_effects risk findOneBy jsonMap_parse yaml_load
              queryRunner_update items uuid_ apiTrace openApiSpec st)
    as (Hp & (writes & Hw & Hl & He & Hn) & _).
  split; [done|]. exists writes. split_and!; try done.
  intros alerts Hbody. apply He. by rewrite Hbody.
Qed.

(** X17: the cache of spec locations only grows. Whatever the collaborators
    do, every entry the cache held before a spec-diff batch is there
    afterwards, unchanged; and an entry that is new after the batch sits
    under the joined pointer of one of the keys handed in. *)
Theorem createSpecDiffAlerts_cache_grows risk findOneBy jsonMap_parse
    yaml_load queryRunner_update items uuid_ apiTrace openApiSpec st :
  let st' := snd (createSpecDiffAlerts risk findOneBy jsonMap_parse yaml_load
                    queryRunner_update (Some items) uuid_ apiTrace openApiSpec st) in
  (forall k e, minimizedSpecContext st !! k = Some e ->
               minimizedSpecContext st' !! k = Some e)
  /\ (forall k e, minimizedSpecContext st' !! k = Some e ->
                  minimizedSpecContext st !! k = None ->
                  exists item, item ∈ items /\ k = join "." (snd item)).
Proof.
  cbn zeta.
  destruct (createSpecDiffAlerts_effects risk findOneBy jsonMap_parse yaml_load
              queryRunner_update items uuid_ apiTrace openApiSpec st)
    as (_ & _ & Hkeep & Hgain).
  split; [done|]. intros k e Hk Hnew.
  destruct (Hgain k e Hk) as [?|(Hin & _)]; [congruence|].
  apply list_elem_of_fmap in Hin as (item & -> & Hin). eauto.
Qed.

(** X18: what a new cache entry holds. An entry that a spec-diff batch adds
    to the cache never has line number 0; its snippet is the lines of the
    spec text from index [lineNumber - 5] up to [lineNumber + 5], joined by
    line feeds - at most ten lines. For a line number of 5 or more that
    leaves five lines after it, these are ten consecutive lines; for a line
    number from 1 to 4 in a spec of ten or more lines the snippet is empty,
    because the negative start index counts from the end of the text. *)
Theorem createSpecDiffAlerts_new_entry risk findOneBy jsonMap_parse
    yaml_load queryRunner_update items uuid_ apiTrace openApiSpec st k e :
  let st' := snd (createSpecDiffAlerts risk findOneBy jsonMap_parse yaml_load
                    queryRunner_update (Some items) uuid_ apiTrace openApiSpec st) in
  let lines := split_lines (spec openApiSpec) in
  minimizedSpecContext st' !! k = Some e ->
  minimizedSpecContext st !! k = None ->
  lineNumber e <> 0%Z
  /\ (exists window,
        minimizedSpec e = join (String "010" "") window
        /\ window = slice lines (lineNumber e - 5) (lineNumber e + 5)
        /\ (length window <= 10)%nat)
  /\ ((5 <= lineNumber e)%Z -> (lineNumber e + 5 <= Z.of_nat (length lines))%Z ->
      minimizedSpec e
      = join (String "010" "") (take 10 (drop (Z.to_nat (lineNumber e - 5)) lines)))
  /\ ((0 < lineNumber e < 5)%Z -> (10 <= length lines)%nat -> minimizedSpec e = "").
Proof.
  cbn zeta. intros Hk Hnew.
  destruct (createSpecDiffAlerts_effects risk findOneBy jsonMap_parse yaml_load
              queryRunner_update items uuid_ apiTrace openApiSpec st)
    as (_ & _ & _ & Hgain).
  destruct (Hgain k e Hk) as [?|(_ & Hline & Hsnippet)]; [congruence|].
  split; [done|]. split; [|split].
  - eexists. split; [exact Hsnippet|]. split; [done|]. apply slice_length_window.
  - intros H5 Hlen. by rewrite Hsnippet, slice_window.
  - intros Hn Hlen. by rewrite Hsnippet, slice_near_start.
Qed.

Lemma createSpecDiffAlerts_new_entry_witness :
  let items := [("Required property 'id' is missing from response body",
                 ["paths"; "/users"])] in
  let st' := snd (createSpecDiffAlerts sample_risk_score
                    (table_findOneBy empty_source) sample_jsonMap_parse
                    sample_yaml_load sample_queryRunner_update (Some items)
                    "endpoint-1" (Some sample_trace) sample_spec empty_spec_state) in
  let e := {| lineNumber := 3;
              minimizedSpec := "  /users:" +:+ String "010" "" +:+ "    get: {}" |} in
  minimizedSpecContext st' !! "paths./users" = Some e
  /\ minimizedSpecContext empty_spec_state !! "paths./users" = None
  /\ lineNumber e <> 0%Z.
Proof.
  intros items st' e.
  assert (Hk : minimizedSpecContext st' !! "paths./users" = Some e)
    by (vm_compute; reflexivity).
  split; [exact Hk|]. split; [reflexivity|].
  exact (proj1 (createSpecDiffAlerts_new_entry sample_risk_score
                  (table_findOneBy empty_source) sample_jsonMap_parse
                  sample_yaml_load sample_queryRunner_update items "endpoint-1"
                  (Some sample_trace) sample_spec empty_spec_state "paths./users" e
                  Hk eq_refl)).
Defined.

(** ** The unsecured-endpoint batch *)

Lemma missingHSTS_loop_sublist {S} risk findOneBy alertProps acc (s : S) :
  exists kept,
    kept `sublist_of` alertProps
    /\ fst (snd (for_of alertProps (missingHSTS_alert risk findOneBy) (acc, s)))
       = acc ++ ((fun p => draft_of risk (missingHSTS_finding p)) <$> kept).
Proof.
  revert acc. induction alertProps as [|p ps IH]; intros acc.
  - exists []. cbn. by rewrite app_nil_r.
  - cbn [for_of]. unfold bind.
    destruct p as [[endpoint trace] description_].
    unfold missingHSTS_alert at 1. mrun.
    destruct (existingUnresolvedAlert _ _ _ _) as [err|[a|]]; cbn [fst snd].
    + exists []. split; [apply sublist_nil_l|]. cbn. by rewrite app_nil_r.
    + destruct (IH acc) as (kept & Hsub & Hkept). exists kept.
      split; [by apply sublist_cons|]. exact Hkept.
    + destruct (IH (acc ++ [newAlert risk UNSECURED_ENDPOINT_DETECTED
                              (endpoint_uuid endpoint)
                              (ctx_hsts (trace_host trace +:+ "/" +:+ trace_path trace)
                                        trace) description_]))
        as (kept & Hsub & Hkept).
      exists ((endpoint, trace, description_) :: kept).
      split; [by apply sublist_skip|]. rewrite Hkept, <- app_assoc. done.
Qed.

(** X19: whatever the repository answers, the drafts
    [createMissingHSTSAlert] returns are the drafts of some of the triples
    it was handed, in the order handed in, none of them twice unless handed
    in twice: each has the endpoint id and the description of its triple,
    the type UNSECURED_ENDPOINT_DETECTED with its risk score, and a context
    that cites "host/path" of the trace. So there are never more drafts than
    triples. *)
Theorem createMissingHSTSAlert_sublist {S} risk findOneBy alertProps (s : S) :
  exists kept,
    kept `sublist_of` alertProps
    /\ createMissingHSTSAlert risk findOneBy (Some alertProps) s
       = (inr ((fun p => newAlert risk UNSECURED_ENDPOINT_DETECTED
                           (endpoint_uuid p.1.1)
                           (ctx_hsts (trace_host p.1.2 +:+ "/" +:+ trace_path p.1.2)
                                     p.1.2)
                           p.2) <$> kept), s)
    /\ (length kept <= length alertProps)%nat.
Proof.
  destruct (missingHSTS_loop_sublist risk findOneBy alertProps [] s)
    as (kept & Hsub & Hkept).
  destruct (missingHSTS_loop_state risk findOneBy alertProps [] s) as (r & acc' & Hloop).
  rewrite Hloop in Hkept. cbn [fst snd app] in Hkept. subst acc'.
  unfold createMissingHSTSAlert, createMissingHSTSAlert_try. mrun. rewrite Hloop.
  destruct r as [err|[]]; cbn [fst snd].
  - exists []. split; [apply sublist_nil_l|]. split; [done|cbn; lia].
  - exists kept. split; [done|]. split; [|by apply sublist_length].
    do 2 f_equal. apply list_fmap_ext. by intros i [[endpoint trace] description_] _.
Qed.

(** ** Empty batches *)

(** X20: batches with nothing in them, whatever the collaborators would
    answer. With [dataFields] null, [createDataFieldAlerts] returns a fresh
    empty array, also when an accumulator was supplied, which it neither
    returns nor touches; with an empty list of data fields it returns the
    accumulator itself, untouched. [createSpecDiffAlerts] with no or an
    empty record of items and [createMissingHSTSAlert] with no or an empty
    list return the empty list; nothing is looked up, parsed or stored. *)
Theorem empty_batches risk label tokens findOneBy jsonMap_parse yaml_load
    queryRunner_update :
  (forall uuid_ path_ apiTrace sda (h : Heap),
     createDataFieldAlerts risk label tokens findOneBy None uuid_ path_ apiTrace sda h
     = (inr (length h), h ++ [[]]))
  /\ (forall uuid_ path_ apiTrace (a : loc) (h : Heap) init,
        h !! a = Some init ->
        createDataFieldAlerts risk label tokens findOneBy (Some []) uuid_ path_
          apiTrace (Some a) h = (inr a, h))
  /\ (forall alertItems uuid_ apiTrace openApiSpec st,
        alertItems = None \/ alertItems = Some [] ->
        createSpecDiffAlerts risk findOneBy jsonMap_parse yaml_load
          queryRunner_update alertItems uuid_ apiTrace openApiSpec st = (inr [], st))
  /\ (forall (S : Type) alertProps (s : S),
        alertProps = None \/ alertProps = Some [] ->
        createMissingHSTSAlert risk findOneBy alertProps s = (inr [], s)).
Proof.
  split; [done|]. split; [|split].
  - intros uuid_ path_ apiTrace a h init Hinit.
    unfold createDataFieldAlerts, createDataFieldAlerts_try. mrun. cbn.
    unfold Heap, loc in *. rewrite Hinit. cbn. by rewrite list_insert_id.
  - by intros alertItems uuid_ apiTrace openApiSpec st [-> | ->].
  - by intros S alertProps s [-> | ->].
Qed.

(** ** Messages for validation errors *)

Lemma first_segment_prefix c rest :
  dot_free c = true -> first_segment (c +:+ "." +:+ rest) = c.
Proof.
  induction c as [|a c IH]; cbn; [done|].
  intros Hc. cbv [String.append]. fold String.append.
  destruct (Ascii.ascii_dec a ".") as [->|Hne]; [done|].
  assert (Hrec : first_segment (c +:+ "." +:+ rest) = c).
  { apply IH. revert Hc. clear -Hne.
    destruct a as [[] [] [] [] [] [] [] []]; cbn; congruence. }
  change (first_segment (String a (c +:+ "." +:+ rest)) = String a c).
  transitivity (String a (first_segment (c +:+ "." +:+ rest))); [|by rewrite Hrec].
  clear -Hne. destruct a as [[] [] [] [] [] [] [] []]; cbn; congruence.
Qed.

Lemma first_segment_dot_free c : dot_free c = true -> first_segment c = c.
Proof.
  induction c as [|a c IH]; cbn; [done|]. intros Hc.
  destruct (Ascii.ascii_dec a ".") as [->|Hne]; [done|].
  assert (Hrec : first_segment c = c).
  { apply IH. revert Hc. clear -Hne.
    destruct a as [[] [] [] [] [] [] [] []]; cbn; congruence. }
  transitivity (String a (first_segment c)); [|by rewrite Hrec].
  clear -Hne. destruct a as [[] [] [] [] [] [] [] []]; cbn; congruence.
Qed.

(** X21: the message for a validation error is chosen by its error code up
    to the first dot: whatever follows "required.", "type." or
    "additionalProperties." in the code, the request and the response
    formatter use the wording of that category; any other code gets the
    default wording. Each list of errors gives one message per error, in
    order, and no list gives no message. *)
Theorem generateAlertMessage_by_category category rest path_ message_ location_ :
  dot_free category = true ->
  let error := {| errorCode := category +:+ "." +:+ rest; error_path := Some path_;
                  error_message := message_; error_location := Some location_ |} in
  generateAlertMessageFromReqErrors (Some [error])
  = [ if bool_decide (category = "required") then
        "Required property '" +:+ path_ +:+ "' is missing from request " +:+ location_
      else if bool_decide (category = "type") then
        "Property '" +:+ path_ +:+ "' " +:+ message_ +:+ " in request " +:+ location_
      else if bool_decide (category = "additionalProperties") then
        "Property '" +:+ path_ +:+ "' is present in request " +:+ location_
          +:+ " without being defined in OpenAPI Spec"
      else message_ +:+ ": '" +:+ path_ +:+ "' in request " +:+ location_ ]
  /\ generateAlertMessageFromRespErrors (Some [error])
     = [ if bool_decide (category = "required") then
           "Required property '" +:+ path_ +:+ "' is missing from response body"
         else if bool_decide (category = "type") then
           "Property '" +:+ path_ +:+ "' " +:+ message_ +:+ " in response body"
         else if bool_decide (category = "additionalProperties") then
           "Property '" +:+ path_
             +:+ "' is present in response body without being defined in OpenAPI Spec"
         else message_ +:+ ": '" +:+ path_ +:+ "' in response body" ]
  /\ (forall errors,
        length (generateAlertMessageFromReqErrors (Some errors)) = length errors
        /\ length (generateAlertMessageFromRespErrors (Some errors)) = length errors)
  /\ generateAlertMessageFromReqErrors None = []
  /\ generateAlertMessageFromRespErrors None = [].
Proof.
  intros Hc. cbn zeta.
  unfold generateAlertMessageFromReqErrors, generateAlertMessageFromRespErrors.
  cbn [fmap list_fmap errorCode error_path error_message error_location template
       default from_option id].
  rewrite (first_segment_prefix _ _ Hc).
  split; [done|]. split; [done|]. split; [|done].
  intros errors. by rewrite !length_fmap.
Qed.

Lemma generateAlertMessage_by_category_witness :
  dot_free "required" = true
  /\ generateAlertMessageFromReqErrors
       (Some [ {| errorCode := "required.openapi.requestValidation";
                  error_path := Some "name"; error_message := "must have required property 'name'";
                  error_location := Some "body" |} ])
     = ["Required property 'name' is missing from request body"].
Proof.
  split; [reflexivity|].
  exact (proj1 (generateAlertMessage_by_category "required"
                  "openapi.requestValidation" "name"
                  "must have required property 'name'" "body" eq_refl)).
Defined.

(** ** New drafts and the persisted alerts *)

Section NotPersisted.

Variable ALERT_TYPE_TO_RISK_SCORE : AlertType -> Z.
Variable db : DataSource.

#[local] Abbreviation policy := (batch_or_store_policy ALERT_TYPE_TO_RISK_SCORE db).
#[local] Abbreviation draft := (draft_of ALERT_TYPE_TO_RISK_SCORE).

Lemma draft_not_persisted f :
  persisted_unresolved db f = false -> no_unresolved_duplicate db (draft f).
Proof.
  intros Hf row Hin Hu Ht Hd. destruct (decide (status row = RESOLVED)); [done|].
  apply not_true_iff_false in Hf. exfalso. apply Hf, persisted_unresolved_spec.
  exists row. by cbn in *.
Qed.

Lemma policy_not_persisted batch fs :
  exists new,
    policy batch fs = batch ++ new /\ Forall (no_unresolved_duplicate db) new.
Proof.
  revert batch. induction fs as [|f fs IH]; intros batch; cbn.
  - exists []. by rewrite app_nil_r.
  - destruct (drafted batch f); cbn [orb]; [apply IH|].
    destruct (persisted_unresolved db f) eqn:Hf; [apply IH|].
    destruct (IH (batch ++ [draft f])) as (new & -> & Hnew).
    exists (draft f :: new). split; [by rewrite <- app_assoc|].
    constructor; [by apply draft_not_persisted|done].
Qed.

Lemma store_policy_not_persisted fs :
  Forall (no_unresolved_duplicate db) (store_policy ALERT_TYPE_TO_RISK_SCORE db fs).
Proof.
  unfold store_policy. apply Forall_fmap, Forall_forall. intros f Hf.
  apply list_elem_of_In, filter_In in Hf as [_ Hf].
  apply draft_not_persisted. by destruct (persisted_unresolved db f).
Qed.

(** When no two findings share endpoint and description and none has a
    draft in the batch, consulting the batch changes nothing. *)
Lemma policy_store_agree batch fs :
  NoDup ((fun f => (finding_uuid f, finding_description f)) <$> fs) ->
  Forall (fun f => drafted batch f = false) fs ->
  policy batch fs = batch ++ store_policy ALERT_TYPE_TO_RISK_SCORE db fs.
Proof.
  revert batch. induction fs as [|f fs IH]; intros batch Hnd Hfs.
  - cbn. by rewrite app_nil_r.
  - cbn [fmap list_fmap] in Hnd. apply NoDup_cons in Hnd as [Hf Hnd].
    apply Forall_cons in Hfs as [Hdf Hfs].
    cbn [batch_or_store_policy]. rewrite Hdf. cbn [orb].
    unfold store_policy. cbn [List.filter].
    destruct (persisted_unresolved db f); cbn [negb fmap list_fmap].
    + by apply IH.
    + rewrite IH; [by rewrite <- app_assoc|done|].
      apply Forall_forall. intros g Hg.
      rewrite drafted_snoc. eapply Forall_forall in Hfs; [|done]. rewrite Hfs.
      cbn. apply andb_false_iff.
      destruct (decide (finding_uuid f = finding_uuid g)) as [Hu|Hu];
        [|left; by apply bool_decide_eq_false_2].
      right. apply bool_decide_eq_false_2. intros Hd. apply Hf.
      apply list_elem_of_fmap. exists g. by rewrite Hu, Hd.
Qed.

End NotPersisted.

(** X22: on a data source that answers, no draft a batch factory adds
    duplicates an unresolved persisted alert: for every new draft of
    [createDataFieldAlerts], [createSpecDiffAlerts] and
    [createMissingHSTSAlert], each persisted alert with the same endpoint,
    type and description is RESOLVED. *)
Theorem new_drafts_not_persisted risk label tokens (db : DataSource) :
  (forall dfs uuid_ path_ apiTrace sda (h : Heap) init,
     match sda with Some a => h !! a = Some init | None => init = [] end ->
     exists l h' new,
       createDataFieldAlerts risk label tokens (table_findOneBy db) (Some dfs)
         uuid_ path_ apiTrace sda h = (inr l, h')
       /\ h' !! l = Some (init ++ new)
       /\ Forall (no_unresolved_duplicate db) new)
  /\ (forall jsonMap_parse yaml_load queryRunner_update items uuid_ apiTrace
             openApiSpec st,
        exists alerts st',
          createSpecDiffAlerts risk (table_findOneBy db) jsonMap_parse yaml_load
            queryRunner_update (Some items) uuid_ apiTrace openApiSpec st
          = (inr alerts, st')
          /\ Forall (no_unresolved_duplicate db) alerts)
  /\ (forall alertProps,
        exists alerts,
          createMissingHSTSAlert risk (table_findOneBy db) (Some alertProps) tt
          = (inr alerts, tt)
          /\ Forall (no_unresolved_duplicate db) alerts).
Proof.
  split; [|split].
  - intros dfs uuid_ path_ apiTrace sda h init Hinit.
    destruct (createDataFieldAlerts_table risk label tokens db dfs uuid_ path_
                apiTrace sda h init Hinit) as (l & h' & Hrun & Hlook).
    destruct (policy_not_persisted risk db init
                (concat (dataField_findings label tokens uuid_ path_ apiTrace <$> dfs)))
      as (new & Hnew & HP).
    exists l, h', new. by rewrite Hlook, Hnew.
  - intros jsonMap_parse yaml_load queryRunner_update items uuid_ apiTrace
      openApiSpec st.
    unfold createSpecDiffAlerts, try_catch.
    destruct (createSpecDiffAlerts_try _ _ _ _ _ _ _ _ _ _) as [[err|alerts] st1] eqn:Htry.
    + do 2 eexists. split; [reflexivity|]. constructor.
    + do 2 eexists. split; [reflexivity|].
      apply createSpecDiffAlerts_table in Htry as ->.
      apply store_policy_not_persisted.
  - intros alertProps. eexists. split; [apply createMissingHSTSAlert_table|].
    apply store_policy_not_persisted.
Qed.

Lemma new_drafts_not_persisted_witness :
  let open_ :=
    {| uuid := "a1"; type := UNSECURED_ENDPOINT_DETECTED; riskScore := 3;
       status := OPEN; description := "Found endpoint possibly missing SSL on /login";
       context := ctx_undefined; resolutionMessage := None;
       apiEndpointUuid := "endpoint-1"; createdAt := 1; updatedAt := 1 |} in
  let db := {| alert_rows := [open_]; endpoint_rows := [] |} in
  let alertProps :=
    [(sample_endpoint, sample_trace, "Found endpoint possibly missing SSL on /login");
     (sample_endpoint, sample_trace, "Couldn't validate SSL info for /login")] in
  exists alerts,
    createMissingHSTSAlert sample_risk_score (table_findOneBy db) (Some alertProps) tt
    = (inr alerts, tt)
    /\ description <$> alerts = ["Couldn't validate SSL info for /login"]
    /\ Forall (no_unresolved_duplicate db) alerts.
Proof.
  intros open_ db alertProps.
  destruct (proj2 (proj2 (new_drafts_not_persisted sample_risk_score
                            sample_section_label sample_path_tokens db)) alertProps)
    as (alerts & Hrun & HP).
  exists alerts. split; [exact Hrun|]. split; [|exact HP].
  vm_compute in Hrun. by injection Hrun as <-.
Defined.

(** X23: a spec-diff batch needs no look at its own drafts. The keys of the
    record of items are distinct, so on a data source that answers, a call
    of [createSpecDiffAlerts] whose [try] block completes returns what the
    policy that also consults the in-memory batch would return. *)
Theorem createSpecDiffAlerts_batch_policy risk (db : DataSource) jsonMap_parse
    yaml_load queryRunner_update items uuid_ apiTrace openApiSpec st alerts st' :
  NoDup (fst <$> items) ->
  createSpecDiffAlerts_try risk (table_findOneBy db) jsonMap_parse yaml_load
    queryRunner_update (Some items) uuid_ apiTrace openApiSpec st = (inr alerts, st') ->
  createSpecDiffAlerts risk (table_findOneBy db) jsonMap_parse yaml_load
    queryRunner_update (Some items) uuid_ apiTrace openApiSpec st = (inr alerts, st')
  /\ alerts = batch_or_store_policy risk db [] (specDiff_finding uuid_ apiTrace <$> items).
Proof.
  intros Hnd Htry. split; [unfold createSpecDiffAlerts, try_catch; by rewrite Htry|].
  rewrite (createSpecDiffAlerts_table _ _ _ _ _ _ _ _ _ _ _ _ Htry).
  rewrite policy_store_agree; [done| |by apply Forall_forall].
  assert (Hkeys : (fun f => (finding_uuid f, finding_description f))
                    <$> (specDiff_finding uuid_ apiTrace <$> items)
                  = (fun k => (uuid_, k)) <$> (fst <$> items))
    by (rewrite <- !list_fmap_compose; by apply list_fmap_ext).
  rewrite Hkeys.
  assert (Inj (=) (=) (fun k : string => (uuid_, k))) by (by intros ? ? [= ->]).
  by apply (NoDup_fmap_2 _).
Qed.

Lemma createSpecDiffAlerts_batch_policy_witness :
  let items := [("Required property 'id' is missing from response body", ["paths"; "/users"]);
                ("Property 'age' is present in response body without being defined in OpenAPI Spec",
                 ["paths"; "/users"])] in
  NoDup (fst <$> items)
  /\ exists alerts st',
       createSpecDiffAlerts sample_risk_score (table_findOneBy empty_source)
         sample_jsonMap_parse sample_yaml_load sample_queryRunner_update (Some items)
         "endpoint-1" (Some sample_trace) sample_spec empty_spec_state
       = (inr alerts, st')
       /\ alerts = batch_or_store_policy sample_risk_score empty_source []
                     (specDiff_finding "endpoint-1" (Some sample_trace) <$> items).
Proof.
  intros items.
  assert (Hnd : NoDup (fst <$> items)).
  { apply NoDup_cons. split; [|apply NoDup_singleton].
    intros H. apply list_elem_of_singleton in H. discriminate H. }
  split; [exact Hnd|].
  eexists _, _.
  exact (createSpecDiffAlerts_batch_policy sample_risk_score empty_source
           sample_jsonMap_parse sample_yaml_load sample_queryRunner_update items
           "endpoint-1" (Some sample_trace) sample_spec empty_spec_state _ _ Hnd
           (surjective_pairing _)).
Defined.

(** ** Cache keys and pointers *)

Lemma dot_free_dot x z : dot_free (x +:+ "." +:+ z) = false.
Proof.
  induction x as [|a x IH]; [done|].
  change (dot_free (String a (x +:+ "." +:+ z)) = false).
  destruct a as [[] [] [] [] [] [] [] []]; cbn; exact IH || reflexivity.
Qed.

(** X24: the cache key of a pointer. Two non-empty pointers whose segments
    contain no dot have the same key - their segments joined with "." - only
    if they are the same pointer, so neither is served the cached location
    of the other. *)
Theorem minimizedSpecKey_injective (xs ys : list string) :
  xs <> [] -> ys <> [] ->
  Forall (fun s => dot_free s = true) xs ->
  Forall (fun s => dot_free s = true) ys ->
  join "." xs = join "." ys -> xs = ys.
Proof.
  revert ys. induction xs as [|x xs IH]; intros ys Hxs Hys Hdx Hdy Hjoin; [done|].
  destruct ys as [|y ys]; [done|].
  apply Forall_cons in Hdx as [Hx Hdx]. apply Forall_cons in Hdy as [Hy Hdy].
  destruct xs as [|x' xs], ys as [|y' ys].
  - cbn in Hjoin. by subst.
  - cbn [join] in Hjoin. rewrite Hjoin, dot_free_dot in Hx. done.
  - cbn [join] in Hjoin. rewrite <- Hjoin, dot_free_dot in Hy. done.
  - change (x +:+ "." +:+ join "." (x' :: xs) = y +:+ "." +:+ join "." (y' :: ys))
      in Hjoin.
    assert (x = y) as ->.
    { rewrite <- (first_segment_prefix x (join "." (x' :: xs)) Hx),
        <- (first_segment_prefix y (join "." (y' :: ys)) Hy). by rewrite Hjoin. }
    apply String.app_inj in Hjoin. injection Hjoin as Hrest.
    f_equal. by apply IH.
Qed.

Lemma minimizedSpecKey_injective_witness :
  let xs := ["paths"; "/users"; "get"] in
  xs <> []
  /\ Forall (fun s => dot_free s = true) xs
  /\ join "." xs = "paths./users.get"
  /\ xs = ["paths"; "/users"; "get"].
Proof.
  intros xs.
  assert (Hne : xs <> []) by discriminate.
  assert (Hd : Forall (fun s => dot_free s = true) xs) by (repeat constructor).
  split; [exact Hne|]. split; [exact Hd|]. split; [reflexivity|].
  exact (minimizedSpecKey_injective xs ["paths"; "/users"; "get"] Hne Hne Hd Hd eq_refl).
Defined.

(** ** A YAML pointer the source map does not know *)

Section YamlMiss.

Variable ALERT_TYPE_TO_RISK_SCORE : AlertType -> Z.
Variable findOneBy : FindOptionsWhere -> exn + option Alert.
Variable jsonMap_parse : string -> exn + (string -> option Z).
Variable yaml_load : string -> exn + (list string -> option Z).
Variable queryRunner_update : string -> gmap string CacheEntry -> exn + unit.
Variable openApiSpec : OpenApiSpec.
Variable map : list string -> option Z.

Hypothesis Hyaml : extension openApiSpec = YAML.
Hypothesis Hload : yaml_load (spec openApiSpec) = inr map.

#[local] Abbreviation step :=
  (specDiff_alert ALERT_TYPE_TO_RISK_SCORE findOneBy jsonMap_parse yaml_load
     queryRunner_update).

Lemma locate_in_spec_yaml_miss pathPointer key st :
  minimizedSpecContext st !! key = None ->
  map pathPointer = None ->
  locate_in_spec jsonMap_parse yaml_load openApiSpec pathPointer key st
  = (inl (TypeError "Cannot read properties of undefined (reading 'line')"),
     count_parse st).
Proof.
  intros Hkey Hmap. unfold locate_in_spec. mrun.
  by rewrite Hkey, Hyaml, Hload, Hmap.
Qed.

Lemma specDiff_alert_keeps_miss uuid_ apiTrace key0 other acc st acc' st' :
  minimizedSpecContext st !! key0 = None ->
  (join "." (snd other) = key0 -> map (snd other) = None) ->
  step uuid_ apiTrace openApiSpec other (acc, st) = (inr tt, (acc', st')) ->
  minimizedSpecContext st' !! key0 = None.
Proof.
  intros Hkey Hother. unfold specDiff_alert. mrun.
  destruct (existingUnresolvedAlert _ _ _ _) as [err|[a|]]; cbn [fst snd]; [done|..].
  - destruct (queryRunner_update _ _) as [err|[]]; [done|]. by intros [= <- <-].
  - pose proof (locate_in_spec_entry jsonMap_parse yaml_load openApiSpec (snd other)
                  (join "." (snd other)) st key0) as Hentry.
    destruct (decide (join "." (snd other) = key0)) as [Heq|Hne].
    + rewrite locate_in_spec_yaml_miss by (by rewrite ?Heq; auto). done.
    + destruct (locate_in_spec _ _ _ _ _ _) as [[err|[]] st1]; cbn [fst snd] in *;
        [done|].
      destruct (queryRunner_update _ _) as [err|[]]; [done|]. intros [= <- <-]. cbn.
      destruct (minimizedSpecContext st1 !! key0) as [e|] eqn:He; [|done].
      destruct (Hentry e eq_refl) as [?|(? & _)]; congruence.
Qed.

Lemma specDiff_loop_yaml_miss uuid_ apiTrace pre item post acc st :
  minimizedSpecContext st !! join "." (snd item) = None ->
  map (snd item) = None ->
  (forall other, other ∈ pre -> join "." (snd other) = join "." (snd item) ->
                 map (snd other) = None) ->
  existingUnresolvedAlert findOneBy uuid_ OPEN_API_SPEC_DIFF (fst item) = inr None ->
  exists err,
    fst (for_of (pre ++ item :: post) (step uuid_ apiTrace openApiSpec) (acc, st))
    = inl err.
Proof.
  intros Hkey Hmap Hpre Hlookup. revert acc st Hkey.
  induction pre as [|other pre IH]; intros acc st Hkey.
  - cbn [app for_of]. unfold bind. unfold specDiff_alert at 1. mrun.
    rewrite Hlookup. cbn [fst snd].
    rewrite locate_in_spec_yaml_miss by done. cbn. eauto.
  - cbn [app for_of]. unfold bind.
    destruct (specDiff_alert _ _ _ _ _ _ _ _ _ _) as [[err|[]] [acc1 st1]] eqn:Hstep;
      [cbn; eauto|].
    apply IH.
    + intros o Ho. apply Hpre. by apply list_elem_of_further.
    + eapply specDiff_alert_keeps_miss; [exact Hkey| |exact Hstep].
      apply Hpre, list_elem_of_here.
Qed.

End YamlMiss.

(** X25: for a YAML spec, a pointer the source map does not know empties
    the batch. When the finding of an item is not suppressed, its location is
    not cached, and the source map of the YAML text has no entry for its
    pointer (nor for an earlier item with the same cache key), reading the
    line of the failed lookup throws, and [createSpecDiffAlerts] returns the
    empty list: the drafts of all other items of the call are lost too. *)
Theorem createSpecDiffAlerts_yaml_unknown_pointer risk findOneBy jsonMap_parse
    yaml_load queryRunner_update openApiSpec map pre item post uuid_ apiTrace st :
  extension openApiSpec = YAML ->
  yaml_load (spec openApiSpec) = inr map ->
  map (snd item) = None ->
  minimizedSpecContext st !! join "." (snd item) = None ->
  (forall other, other ∈ pre -> join "." (snd other) = join "." (snd item) ->
                 map (snd other) = None) ->
  existingUnresolvedAlert findOneBy uuid_ OPEN_API_SPEC_DIFF (fst item) = inr None ->
  fst (createSpecDiffAlerts risk findOneBy jsonMap_parse yaml_load queryRunner_update
         (Some (pre ++ item :: post)) uuid_ apiTrace openApiSpec st) = inr [].
Proof.
  intros Hyaml Hload Hmap Hkey Hpre Hlookup.
  destruct (specDiff_loop_yaml_miss risk findOneBy jsonMap_parse yaml_load
              queryRunner_update openApiSpec map Hyaml Hload uuid_ apiTrace
              pre item post [] st Hkey Hmap Hpre Hlookup) as [err Hloop].
  unfold createSpecDiffAlerts, createSpecDiffAlerts_try. mrun.
  rewrite bool_decide_eq_false_2 by (rewrite length_app; cbn; lia).
  destruct (for_of _ _ _) as [[e|[]] [acc1 st1]]; cbn [fst] in *; [done|].
  discriminate Hloop.
Qed.

Lemma createSpecDiffAlerts_yaml_unknown_pointer_witness :
  let yaml_spec := {| spec_name := "petstore"; spec := spec sample_spec;
                      extension := YAML |} in
  let known := ("Property 'age' is present in response body without being defined in OpenAPI Spec",
                ["paths"; "/users"]) in
  let unknown := ("Required property 'id' is missing from response body",
                  ["paths"; "/pets"]) in
  let load := fun _ : string =>
                inr (fun p : list string =>
                       if bool_decide (p = ["paths"; "/users"]) then Some 3%Z else None)
                : exn + (list string -> option Z) in
  extension yaml_spec = YAML
  /\ fst (createSpecDiffAlerts sample_risk_score (table_findOneBy empty_source)
            sample_jsonMap_parse load sample_queryRunner_update
            (Some [known; unknown]) "endpoint-1" (Some sample_trace) yaml_spec
            empty_spec_state) = inr [].
Proof.
  intros yaml_spec known unknown load. split; [reflexivity|].
  refine (createSpecDiffAlerts_yaml_unknown_pointer sample_risk_score
            (table_findOneBy empty_source) sample_jsonMap_parse load
            sample_queryRunner_update yaml_spec
            (fun p => if bool_decide (p = ["paths"; "/users"]) then Some 3%Z else None)
            [known] unknown [] "endpoint-1" (Some sample_trace) empty_spec_state
            eq_refl eq_refl eq_refl eq_refl _ eq_refl).
  intros other Hother%list_elem_of_singleton Hkey. subst other. discriminate Hkey.
Defined.
